(** * EduEase: the note-content extractors of [backend/processing.py]
      and [frontend/app.py]

    The extractors [parse_graphviz], [parse_quiz_from_json] and
    [get_topic_from_summary] pick a fenced block or a section out of the
    text returned by the generative model with Python's [re] module, then
    post-process the captured text with [str] methods and [json.loads].

    The embedding follows the code: a pattern is the very text the source
    passes to [re.compile] / [re.search] (for [parse_quiz_from_json] the
    label is spliced into it, unescaped, as the f-string does), it is parsed
    into a syntax tree and run by a backtracking matcher with the priorities
    of [re] (leftmost start, greedy and lazy repeats, groups, lookahead).

    A Python [str] is modelled as a list of characters with code points
    below 256. *)

From Stdlib Require Import Ascii String List Bool Arith Lia ZArith
  DecimalString.
Import ListNotations.

Set Warnings "-register-all".

Set Implicit Arguments.

Open Scope string_scope.
Open Scope list_scope.
Open Scope nat_scope.

(** ** Strings *)

Definition str := list ascii.

(** String literals are read as character lists. *)
Definition chars (s : string) : list ascii := list_ascii_of_string s.
Coercion chars : string >-> list.

Definition nl : ascii := "010"%char.
Definition dq : ascii := "034"%char.

(** [str.isspace] on one character (code points below 256). *)
Definition isspace (a : ascii) : bool :=
  let n := nat_of_ascii a in
  ((9 <=? n) && (n <=? 13)) || ((28 <=? n) && (n <=? 32))
  || (n =? 133) || (n =? 160).

(** Lower-casing of one character as [re.IGNORECASE] does on [str]
    patterns (code points below 256). *)
Definition lower (a : ascii) : ascii :=
  let n := nat_of_ascii a in
  if ((65 <=? n) && (n <=? 90))
     || ((192 <=? n) && (n <=? 222) && negb (n =? 215))
  then ascii_of_nat (n + 32) else a.

Fixpoint lstrip (s : str) : str :=
  match s with
  | a :: s' => if isspace a then lstrip s' else s
  | [] => []
  end.

Definition rstrip (s : str) : str := rev (lstrip (rev s)).

(** [s.strip()] *)
Definition strip (s : str) : str := rstrip (lstrip s).

(** [s.startswith(p)] *)
Fixpoint startswith (p s : str) : bool :=
  match p, s with
  | [], _ => true
  | a :: p', b :: s' => Ascii.eqb a b && startswith p' s'
  | _ :: _, [] => false
  end.

(** [s.replace(old, new, count)] for a non-empty [old]; [count = None] is
    the call without a count.  [skip] counts the characters of a replaced
    occurrence that are still to be dropped. *)
Fixpoint replace_go (old new : str) (count : option nat) (skip : nat)
         (s : str) : str :=
  match s with
  | [] => []
  | a :: s' =>
      match skip with
      | S n => replace_go old new count n s'
      | 0 =>
          match count with
          | Some 0 => a :: replace_go old new count 0 s'
          | _ =>
              if startswith old s
              then new ++ replace_go old new (option_map pred count)
                                     (pred (length old)) s'
              else a :: replace_go old new count 0 s'
          end
      end
  end.

Definition replace (old new : str) (count : option nat) (s : str) : str :=
  replace_go old new count 0 s.

(** [s.split()]: the maximal runs of non-whitespace characters. *)
Fixpoint split_go (cur : str) (s : str) : list str :=
  match s with
  | [] => match cur with [] => [] | _ => [rev cur] end
  | a :: s' =>
      if isspace a
      then match cur with
           | [] => split_go [] s'
           | _ => rev cur :: split_go [] s'
           end
      else split_go (a :: cur) s'
  end.

Definition split (s : str) : list str := split_go [] s.

(** [sep.join(l)] *)
Fixpoint join (sep : str) (l : list str) : str :=
  match l with
  | [] => []
  | [x] => x
  | x :: l' => x ++ sep ++ join sep l'
  end.

(** ** Regular expressions: syntax *)

Inductive category := CATEGORY_SPACE | CATEGORY_NOT_SPACE.

Inductive set_item :=
| SLiteral (c : ascii)
| SCategory (cat : category).

Inductive regex :=
| Empty
| Literal (c : ascii)
| AnyChar
| In (items : list set_item)
| Seq (r1 r2 : regex)
| Branch (r1 r2 : regex)
| Repeat (greedy : bool) (lo : nat) (hi : option nat) (r : regex)
| Subpattern (group : option nat) (r : regex)
| Assert (r : regex).

Definition seq_of (l : list regex) : regex := fold_right Seq Empty l.

(** A literal string is the sequence of its characters. *)
Definition literals (s : str) : list regex := map Literal s.

Fixpoint nullable (r : regex) : bool :=
  match r with
  | Empty => true
  | Literal _ | AnyChar | In _ => false
  | Seq a b => nullable a && nullable b
  | Branch a b => nullable a || nullable b
  | Repeat _ lo _ r' => (lo =? 0) || nullable r'
  | Subpattern _ r' => nullable r'
  | Assert _ => true
  end.

(** ** Regular expressions: the pattern parser of [re.compile]

    The parser reads the pattern text left to right, keeping the stack of
    the groups that are open.  It covers the syntax the three patterns of
    the source use, and the neighbouring syntax a spliced label may add:
    literals, [.], the escapes [\s \S \n \t \r \f \v \a] and escaped
    punctuation, sets of literals and [\s \S], capturing groups, [(?:...)],
    [(?=...)], [|], and the repeats [* + ?] with their lazy forms.
    [ReError] is the [re.error] raised by [re.compile]; [Unsupported] marks
    a pattern with syntax outside this fragment, about which the embedding
    says nothing. *)

Inductive compiled :=
| Compiled (r : regex)
| ReError
| Unsupported.

Inductive group_kind := GCapture (n : nat) | GPlain | GLookahead.

Record frame := Frame {
  fr_kind : group_kind;
  fr_alts : list regex;
  fr_seq : list regex
}.

Definition ch (s : string) : ascii :=
  match s with String a _ => a | EmptyString => zero end.

Definition is_alnum (a : ascii) : bool :=
  let n := nat_of_ascii a in
  ((48 <=? n) && (n <=? 57)) || ((65 <=? n) && (n <=? 90))
  || ((97 <=? n) && (n <=? 122)).

(** The control characters of the escapes [\a \f \n \r \t \v]. *)
Definition control_escape (b : ascii) : option ascii :=
  if Ascii.eqb b (ch "a") then Some (ascii_of_nat 7)
  else if Ascii.eqb b (ch "f") then Some (ascii_of_nat 12)
  else if Ascii.eqb b (ch "n") then Some (ascii_of_nat 10)
  else if Ascii.eqb b (ch "r") then Some (ascii_of_nat 13)
  else if Ascii.eqb b (ch "t") then Some (ascii_of_nat 9)
  else if Ascii.eqb b (ch "v") then Some (ascii_of_nat 11)
  else None.

(** The item a backslash followed by [b] stands for inside a set. *)
Definition class_escape (b : ascii) : option set_item :=
  if Ascii.eqb b (ch "s") then Some (SCategory CATEGORY_SPACE)
  else if Ascii.eqb b (ch "S") then Some (SCategory CATEGORY_NOT_SPACE)
  else match control_escape b with
       | Some c => Some (SLiteral c)
       | None => if is_alnum b then None else Some (SLiteral b)
       end.

(** The node a backslash followed by [b] stands for outside a set. *)
Definition escape (b : ascii) : option regex :=
  if Ascii.eqb b (ch "s") then Some (In [SCategory CATEGORY_SPACE])
  else if Ascii.eqb b (ch "S") then Some (In [SCategory CATEGORY_NOT_SPACE])
  else match control_escape b with
       | Some c => Some (Literal c)
       | None => if is_alnum b then None else Some (Literal b)
       end.

(** Characters with a special role inside a set that the fragment leaves
    out (ranges, negation, nested sets and set operations). *)
Definition set_special (a : ascii) : bool :=
  Ascii.eqb a (ch "-") || Ascii.eqb a (ch "[") || Ascii.eqb a (ch "^")
  || Ascii.eqb a (ch "&") || Ascii.eqb a (ch "~") || Ascii.eqb a (ch "|").

(** The alternatives closed so far (latest first) and the current
    sequence (latest item first) make one branch node. *)
Definition close_alts (alts seq : list regex) : regex :=
  fold_left (fun acc alt => Branch alt acc) alts (seq_of (rev seq)).

Definition wrap (k : group_kind) (r : regex) : regex :=
  match k with
  | GCapture n => Subpattern (Some n) r
  | GPlain => Subpattern None r
  | GLookahead => Assert r
  end.

Inductive quantified :=
| QOk (seq : list regex)
| QError
| QUnsupported.

(** A repeat applies to the last item of the current sequence: there must
    be one ("nothing to repeat") and it must not be a repeat itself
    ("multiple repeat").  A body that can match the empty string is left
    out of the fragment. *)
Definition quantify (greedy : bool) (lo : nat) (hi : option nat)
           (seq : list regex) : quantified :=
  match seq with
  | [] => QError
  | Repeat _ _ _ _ :: _ => QError
  | item :: seq' =>
      if nullable item then QUnsupported
      else QOk (Repeat greedy lo hi item :: seq')
  end.

Definition repeat_bounds (a : ascii) : option (nat * option nat) :=
  if Ascii.eqb a (ch "*") then Some (0, None)
  else if Ascii.eqb a (ch "+") then Some (1, None)
  else if Ascii.eqb a (ch "?") then Some (0, Some 1)
  else None.

Fixpoint parse (src : str) (in_set : option (list set_item))
         (stack : list frame) (alts seq : list regex) (ng : nat)
  : compiled :=
  match src with
  | [] =>
      match in_set, stack with
      | Some _, _ => ReError        (* unterminated character set *)
      | None, _ :: _ => ReError     (* missing ), unterminated subpattern *)
      | None, [] => Compiled (close_alts alts seq)
      end
  | a :: rest =>
      match in_set with
      | Some items =>
          if Ascii.eqb a (ch "]") then
            match items with
            | [] => Unsupported
            | _ => parse rest None stack alts (In (rev items) :: seq) ng
            end
          else if Ascii.eqb a (ch "\") then
            match rest with
            | [] => ReError         (* bad escape (end of pattern) *)
            | b :: rest' =>
                match class_escape b with
                | Some it => parse rest' (Some (it :: items)) stack alts seq ng
                | None => Unsupported
                end
            end
          else if set_special a then Unsupported
          else parse rest (Some (SLiteral a :: items)) stack alts seq ng
      | None =>
          if Ascii.eqb a (ch "\") then
            match rest with
            | [] => ReError         (* bad escape (end of pattern) *)
            | b :: rest' =>
                match escape b with
                | Some r => parse rest' None stack alts (r :: seq) ng
                | None => Unsupported
                end
            end
          else if Ascii.eqb a (ch "[") then
            parse rest (Some []) stack alts seq ng
          else if Ascii.eqb a (ch ".") then
            parse rest None stack alts (AnyChar :: seq) ng
          else if Ascii.eqb a (ch "|") then
            parse rest None stack (seq_of (rev seq) :: alts) [] ng
          else if Ascii.eqb a (ch "(") then
            match rest with
            | b :: rest1 =>
                if Ascii.eqb b (ch "?") then
                  match rest1 with
                  | [] => ReError   (* unexpected end of pattern *)
                  | c :: rest2 =>
                      if Ascii.eqb c (ch "=") then
                        parse rest2 None (Frame GLookahead alts seq :: stack)
                              [] [] ng
                      else if Ascii.eqb c (ch ":") then
                        parse rest2 None (Frame GPlain alts seq :: stack)
                              [] [] ng
                      else Unsupported
                  end
                else parse rest None
                           (Frame (GCapture (S ng)) alts seq :: stack)
                           [] [] (S ng)
            | [] => ReError         (* missing ), unterminated subpattern *)
            end
          else if Ascii.eqb a (ch ")") then
            match stack with
            | [] => ReError         (* unbalanced parenthesis *)
            | Frame k oalts oseq :: stack' =>
                parse rest None stack' oalts
                      (wrap k (close_alts alts seq) :: oseq) ng
            end
          else
            match repeat_bounds a with
            | Some (lo, hi) =>
                match rest with
                | b :: rest' =>
                    if Ascii.eqb b (ch "?") then
                      match quantify false lo hi seq with
                      | QOk seq' => parse rest' None stack alts seq' ng
                      | QError => ReError
                      | QUnsupported => Unsupported
                      end
                    else if Ascii.eqb b (ch "+") then
                      match quantify true lo hi seq with
                      | QError => ReError
                      | _ => Unsupported
                      end
                    else
                      match quantify true lo hi seq with
                      | QOk seq' => parse rest None stack alts seq' ng
                      | QError => ReError
                      | QUnsupported => Unsupported
                      end
                | [] =>
                    match quantify true lo hi seq with
                    | QOk seq' => parse rest None stack alts seq' ng
                    | QError => ReError
                    | QUnsupported => Unsupported
                    end
                end
            | None =>
                if Ascii.eqb a (ch "{") || Ascii.eqb a (ch "^")
                   || Ascii.eqb a (ch "$")
                then Unsupported
                else parse rest None stack alts (Literal a :: seq) ng
            end
      end
  end.

(** [re.compile(pattern)] *)
Definition re_compile (pattern : str) : compiled :=
  parse pattern None [] [] [] 0.

(** ** Regular expressions: the backtracking matcher

    The matcher walks the subject from a suffix [w] and hands the rest of
    the subject to a continuation; a failing continuation makes it try its
    next alternative.  A span is recorded as the pair of the suffix where
    it starts and the suffix where it ends. *)

Record flags := Flags { IGNORECASE : bool; DOTALL : bool }.

Definition NOFLAG : flags := Flags false false.

Definition span := (str * str)%type.

Definition captures := list (nat * span).

Definition cont := str -> captures -> option (str * captures).

Definition literal_eq (fl : flags) (c a : ascii) : bool :=
  if IGNORECASE fl then Ascii.eqb (lower a) (lower c) else Ascii.eqb a c.

Definition category_has (cat : category) (a : ascii) : bool :=
  match cat with
  | CATEGORY_SPACE => isspace a
  | CATEGORY_NOT_SPACE => negb (isspace a)
  end.

Definition item_has (fl : flags) (it : set_item) (a : ascii) : bool :=
  match it with
  | SLiteral c => literal_eq fl c a
  | SCategory cat => category_has cat a
  end.

Definition any_has (fl : flags) (a : ascii) : bool :=
  DOTALL fl || negb (Ascii.eqb a nl).

(** One character against a one-character test. *)
Definition one (test : ascii -> bool) (k : cont) : cont :=
  fun w cs =>
    match w with
    | a :: w' => if test a then k w' cs else None
    | [] => None
    end.

(** [lo] to [hi] iterations of [body], the greedy repeat trying one more
    iteration before the continuation and the lazy one after it.  Every
    iteration consumes at least one character, which bounds their number by
    the [fuel], the length of the subject left plus one. *)
Fixpoint rep (fuel : nat) (body : cont -> cont) (greedy : bool) (lo : nat)
         (hi : option nat) (k : cont) (w : str) (cs : captures)
  : option (str * captures) :=
  match fuel with
  | 0 => None
  | S fuel' =>
      let again : cont := fun w' cs' =>
        if length w' <? length w
        then rep fuel' body greedy (pred lo) (option_map pred hi) k w' cs'
        else None in
      match lo, hi with
      | S _, _ => body again w cs
      | 0, Some 0 => k w cs
      | 0, _ =>
          if greedy
          then match body again w cs with
               | Some res => Some res
               | None => k w cs
               end
          else match k w cs with
               | Some res => Some res
               | None => body again w cs
               end
      end
  end.

Definition accept : cont := fun w cs => Some (w, cs).

Fixpoint bt (fl : flags) (r : regex) (k : cont) {struct r} : cont :=
  match r with
  | Empty => k
  | Literal c => one (literal_eq fl c) k
  | AnyChar => one (any_has fl) k
  | In items => one (fun a => existsb (fun it => item_has fl it a) items) k
  | Seq r1 r2 => bt fl r1 (bt fl r2 k)
  | Branch r1 r2 =>
      fun w cs =>
        match bt fl r1 k w cs with
        | Some res => Some res
        | None => bt fl r2 k w cs
        end
  | Repeat greedy lo hi r' =>
      fun w cs => rep (S (length w)) (bt fl r') greedy lo hi k w cs
  | Subpattern (Some n) r' =>
      fun w cs => bt fl r' (fun w' cs' => k w' ((n, (w, w')) :: cs')) w cs
  | Subpattern None r' => bt fl r' k
  | Assert r' =>
      fun w cs =>
        match bt fl r' accept w cs with
        | Some (_, cs') => k w cs'
        | None => None
        end
  end.

(** The match object: the suffix of the subject where the match starts,
    the suffix where it ends, and the groups. *)
Record match_object := Match {
  m_start : str;
  m_end : str;
  m_groups : captures
}.

(** The text of a span. *)
Definition span_text (sp : span) : str :=
  firstn (length (fst sp) - length (snd sp)) (fst sp).

Fixpoint lookup_group (n : nat) (cs : captures) : option span :=
  match cs with
  | [] => None
  | (m, sp) :: cs' => if m =? n then Some sp else lookup_group n cs'
  end.

(** [m.group(n)], [None] for a group that did not take part. *)
Definition group (m : match_object) (n : nat) : option str :=
  match n with
  | 0 => Some (span_text (m_start m, m_end m))
  | _ => option_map span_text (lookup_group n (m_groups m))
  end.

(** [pattern.search(text)]: the first start, from the left, at which the
    pattern matches. *)
Fixpoint search (fl : flags) (r : regex) (w : str) : option match_object :=
  match bt fl r accept w [] with
  | Some (w', cs) => Some (Match w w' cs)
  | None =>
      match w with
      | [] => None
      | _ :: w' => search fl r w'
      end
  end.

(** ** Effects: exceptions and the log

    A call either returns or raises; what it writes with [logging] is
    appended to the log it is run from.  [Raise e] is an exception [e] of
    a class that derives from [Exception]: an [except Exception] clause
    catches it.  [Escape name] is an exception of a class that does not,
    [KeyboardInterrupt], [SystemExit] or [GeneratorExit]: it passes every
    [except Exception] clause, and a [finally] clause still runs.
    [Outside] is the outcome of a call whose pattern is outside the
    embedded fragment of the pattern syntax. *)

Inductive exn :=
| re_error
| JSONDecodeError
| TypeError
| AttributeError
| ValueError (msg : str)
| OtherException (msg : str).

(** [str(e)] for the exceptions that carry a message. *)
Definition exn_text (e : exn) : str :=
  match e with
  | ValueError msg | OtherException msg => msg
  | _ => []
  end.

Inductive level := INFO | WARNING | ERROR.

Definition log := list (level * str).

Inductive outcome (A : Type) :=
| Return (a : A)
| Raise (e : exn)
| Escape (name : str)
| Outside.

Arguments Return {A} a.
Arguments Raise {A} e.
Arguments Escape {A} name.
Arguments Outside {A}.

Definition M (A : Type) : Type := log -> outcome A * log.

Definition ret {A} (a : A) : M A := fun l => (Return a, l).

Definition raise {A} (e : exn) : M A := fun l => (Raise e, l).

Definition outside {A} : M A := fun l => (Outside, l).

Definition bind {A B} (m : M A) (f : A -> M B) : M B :=
  fun l =>
    match m l with
    | (Return a, l') => f a l'
    | (Raise e, l') => (Raise e, l')
    | (Escape name, l') => (Escape name, l')
    | (Outside, l') => (Outside, l')
    end.

Notation "x <- m ;; f" := (bind m (fun x => f))
  (at level 61, m at next level, right associativity).
Notation "m ;; f" := (bind m (fun _ => f))
  (at level 61, right associativity).

(** [logging.info], [logging.warning], [logging.error] *)
Definition logging (lv : level) (msg : str) : M unit :=
  fun l => (Return tt, l ++ [(lv, msg)]).

(** [try: m except Exception as e: handler e]: what derives from
    [Exception] is handled, anything else goes through. *)
Definition try_except {A} (m : M A) (handler : exn -> M A) : M A :=
  fun l =>
    match m l with
    | (Raise e, l') => handler e l'
    | res => res
    end.

(** The result of a library call, which returns or raises. *)
Definition lift {A} (r : A + exn) : M A :=
  match r with
  | inl a => ret a
  | inr e => raise e
  end.

(** [re.search(pattern, text, flags)] and [re.compile(pattern, flags)]
    followed by [pattern.search(text)]. *)
Definition re_search (pattern : str) (fl : flags) (text : str)
  : M (option match_object) :=
  match re_compile pattern with
  | Compiled r => ret (search fl r text)
  | ReError => raise re_error
  | Unsupported => outside
  end.

(** ** JSON values, as [json.loads] returns them *)

Inductive json :=
| JNull
| JBool (b : bool)
| JInt (z : Z)
| JFloat (text : str)
| JString (s : str)
| JList (items : list json)
| JDict (items : list (str * json)).

(** ** The extractors *)

Definition quoted (s : str) : str := [dq] ++ s ++ [dq].

(** The pattern texts of the source.  [quiz_pattern key] is the f-string
    of [parse_quiz_from_json], the label spliced in as it is. *)
Definition dot_pattern : str := "```dot\s*([\s\S]+?)\s*```".

Definition quiz_pattern (key : str) : str :=
  "##\s*" ++ key ++ "[\s\S]*?```json\s*([\s\S]+?)\s*```".

Definition summary_pattern : str :=
  "##\s*(Detailed\s)?Summary\s*.*?\n(.*?)(?=##)".

(** The value of the local [styling] of [parse_graphviz]. *)
Definition styling : str :=
  "bgcolor=" ++ quoted "transparent" ++ "; node [style="
  ++ quoted "filled" ++ ", shape=" ++ quoted "box"
  ++ ", fillcolor=" ++ quoted "#AEC6CF" ++ ", fontcolor="
  ++ quoted "#121212" ++ ", color=" ++ quoted "#FFFFFF"
  ++ ", penwidth=2, fontname=" ++ quoted "Inter"
  ++ "]; edge [color=" ++ quoted "#FFFFFF" ++ ", fontname="
  ++ quoted "Inter" ++ "];".

Module Backend.

Section Libraries.

(** [json.loads]: the decoded value, or the exception raised. *)
Variable json_loads : str -> json + exn.

(** [GenerativeModel('gemini-1.5-flash-latest').generate_content(prompt)]
    followed by the reading of [response.text]: the text, [None] for a
    response without one, or the exception raised. *)
Variable generate_content : str -> option str + exn.

Definition parse_graphviz (notes_text : str) : M (option str) :=
  match_ <- re_search dot_pattern NOFLAG notes_text ;;
  match match_ with
  | None => ret None
  | Some m =>
      match group m 1 with
      | None => raise AttributeError
      | Some g =>
          let content := strip g in
          let content :=
            if negb (startswith "digraph" (strip content))
            then "digraph G { " ++ content ++ " }"
            else content in
          ret (Some (replace "{" ("{ " ++ styling) (Some 1) content))
      end
  end.

Definition parse_quiz_from_json (notes_text key : str) : M json :=
  match_ <- re_search (quiz_pattern key) (Flags true false) notes_text ;;
  match match_ with
  | None => ret (JList [])
  | Some m =>
      match group m 1 with
      | None => raise TypeError
      | Some g =>
          match json_loads g with
          | inl v => ret v
          | inr JSONDecodeError =>
              logging WARNING
                      ("Failed to parse JSON for key: '" ++ key ++ "'") ;;
              ret (JList [])
          | inr e => raise e
          end
      end
  end.

Definition get_topic_from_summary (notes_text : str) : M (option str) :=
  logging INFO "Distilling topic from summary." ;;
  summary_match <- re_search summary_pattern (Flags true true)
                             notes_text ;;
  let no_summary : M (option str) :=
    logging WARNING
      "Could not find a summary in the notes to generate a topic from." ;;
    ret None in
  match summary_match with
  | None => no_summary
  | Some m =>
      match group m 2 with
      | None => raise AttributeError
      | Some g =>
          match strip g with
          | [] => no_summary
          | summary_text =>
              try_except
                (let prompt : str :=
                   "Based on the following summary, identify the core topic in 3-5 words. "
                   ++ "Your response must ONLY be the topic phrase, with no extra text or punctuation. "
                   ++ "For example: 'Quantum Physics Basics'." ++ [nl; nl]
                   ++ "Summary: " ++ summary_text in
                 response <- lift (generate_content prompt) ;;
                 match response with
                 | Some (a :: text) =>
                     let topic := replace [dq] [] None (strip (a :: text)) in
                     logging INFO
                       ("Successfully distilled topic: '" ++ topic ++ "'") ;;
                     ret (Some topic)
                 | _ =>
                     raise (ValueError
                       "Gemini API returned an empty response for topic distillation.")
                 end)
                (fun e =>
                   logging ERROR
                     ("Gemini API call for topic distillation failed: "
                      ++ exn_text e) ;;
                   ret None)
          end
      end
  end.

End Libraries.

End Backend.

Module Frontend.

Definition parse_graphviz (notes_text : str) : M (option str) :=
  match_ <- re_search dot_pattern NOFLAG notes_text ;;
  match match_ with
  | None => ret None
  | Some m =>
      match group m 1 with
      | None => raise AttributeError
      | Some g =>
          let content := strip g in
          let content :=
            if negb (startswith "digraph" (strip content))
            then "digraph G { " ++ content ++ " }"
            else content in
          ret (Some (replace "{" ("{ " ++ styling) (Some 1) content))
      end
  end.

Definition get_topic_from_summary (notes_text : str) : M (option str) :=
  summary_match <- re_search summary_pattern (Flags true true)
                             notes_text ;;
  match summary_match with
  | None => ret None
  | Some m =>
      match group m 2 with
      | None => raise AttributeError
      | Some g =>
          match strip g with
          | [] => ret None
          | summary_text =>
              ret (Some (join " " (firstn 10 (split summary_text))))
          end
      end
  end.

End Frontend.

(** ** Vocabulary of the statements

    Direct readings of a text, independent of the matcher, in which the
    statements about the extractors are phrased. *)

(** The flags [parse_quiz_from_json] compiles its pattern with. *)
Definition quiz_flags : flags := Flags true false.

(** The flags [get_topic_from_summary] searches with. *)
Definition summary_flags : flags := Flags true true.

(** [w] begins with the text [l], compared as the flags say. *)
Fixpoint starts (fl : flags) (l w : str) : bool :=
  match l, w with
  | [], _ => true
  | c :: l', a :: w' => literal_eq fl c a && starts fl l' w'
  | _ :: _, [] => false
  end.

(** [t] is the text [l], compared as the flags say. *)
Definition same_text (fl : flags) (l t : str) : bool :=
  (length t =? length l) && starts fl l t.

(** The offset of the first suffix of [w] that satisfies [P]. *)
Fixpoint first_at (P : str -> bool) (w : str) : option nat :=
  if P w then Some 0
  else match w with
       | [] => None
       | _ :: w' => option_map S (first_at P w')
       end.

(** Some whitespace, then a text that satisfies [P]. *)
Fixpoint spaces_then (P : str -> bool) (w : str) : bool :=
  P w || match w with
         | a :: w' => isspace a && spaces_then P w'
         | [] => false
         end.

(** A header for the label [key] starts here: [##], optional whitespace,
    the label in any case. *)
Definition header_here (key : str) (w : str) : bool :=
  starts quiz_flags "##" w && spaces_then (starts quiz_flags key) (skipn 2 w).

(** A closing fence, after optional whitespace, starts here. *)
Definition closes_here (w : str) : bool := startswith "```" (lstrip w).

(** A json fence starts here: the opening [```json] in any case and,
    after at least one character, a closing [```]. *)
Definition fence_here (w : str) : bool :=
  starts quiz_flags "```json" w
  && match first_at (startswith "```") (skipn 8 w) with
     | Some _ => true
     | None => false
     end.

(** No closing fence starts inside [content], past its first character,
    when [tail] follows it. *)
Definition no_early_close (content tail : str) : bool :=
  forallb (fun p => negb (closes_here (skipn p (content ++ tail))))
          (seq 1 (length content - 1)).

Definition starts_nonspace (s : str) : bool :=
  match s with
  | a :: _ => negb (isspace a)
  | [] => false
  end.

(** The inside of a fence, between its tag and the closing [```] that
    [rest] follows: whitespace [ws1], a [content] that starts with a
    character other than whitespace, whitespace [ws2]; and the closing
    fence is the first one past the first character of the content. *)
Definition fence_inside (ws1 content ws2 rest : str) : bool :=
  forallb isspace ws1 && starts_nonspace content && forallb isspace ws2
  && no_early_close content (ws2 ++ "```" ++ rest).


(** Characters that mean themselves in a pattern. *)
Definition plain_char (a : ascii) : bool :=
  negb (existsb (Ascii.eqb a) "\[.|()*+?{^$").

(** A label that is plain text: no character of it is pattern syntax. *)
Definition plain_label (key : str) : bool := forallb plain_char key.



(** A Summary header starts here: [##], optional whitespace, optionally
    [Detailed] and one whitespace character, then [Summary], in any case. *)
Definition summary_title (w : str) : bool :=
  starts summary_flags "Summary" w
  || (starts summary_flags "Detailed" w
      && match skipn 8 w with
         | a :: w' => isspace a && starts summary_flags "Summary" w'
         | [] => false
         end).

Definition summary_header_here (w : str) : bool :=
  starts summary_flags "##" w && spaces_then summary_title (skipn 2 w).



(** *** Sample inputs *)


(** The same with the fence in the first section. *)
Definition one_section : str :=
  "Notes." ++ [nl] ++ "## mcq quiz" ++ [nl]
  ++ "```json" ++ [nl] ++ "[1]" ++ [nl] ++ "```" ++ [nl].

Definition summary_then_quiz : str :=
  "## Summary" ++ [nl] ++ "The topic is X." ++ [nl] ++ "## Quiz" ++ [nl]
  ++ "...".


(** A header for the label, and no fence after it. *)
Definition unfenced : str :=
  "## MCQ Quiz" ++ [nl] ++ "1. What is X?" ++ [nl] ++ "## Summary" ++ [nl].

(** A dot fence that begins with [digraph] and has no brace. *)
Definition unbraced_graph : str := "```dot digraph```".

Definition edge_graph : str :=
  "Diagram:" ++ [nl] ++ "```dot" ++ [nl] ++ "A -> B" ++ [nl] ++ "```"
  ++ [nl].

Definition summary_last : str :=
  "# Notes" ++ [nl] ++ "## Summary:" ++ [nl] ++ "The topic is X." ++ [nl].









(** A decoder for the examples: it decodes the text [[1]] and raises
    [JSONDecodeError] on any other. *)
Definition sample_loads (s : str) : json + exn :=
  if same_text NOFLAG "[1]" s then inl (JList [JInt 1])
  else inr JSONDecodeError.


(** ** The parse trees of the three patterns *)

Definition ws_star : regex :=
  Repeat true 0 None (In [SCategory CATEGORY_SPACE]).

Definition any_set : regex :=
  In [SCategory CATEGORY_SPACE; SCategory CATEGORY_NOT_SPACE].

(** [\s*([\s\S]+?)\s*```], the part of a fence after its tag. *)
Definition fence_tail : list regex :=
  [ws_star; Subpattern (Some 1) (Seq (Repeat false 1 None any_set) Empty);
   ws_star] ++ literals "```".

Definition dot_regex : regex := seq_of (literals "```dot" ++ fence_tail).

Definition quiz_regex (key : str) : regex :=
  seq_of (literals "##" ++ [ws_star] ++ literals key
          ++ [Repeat false 0 None any_set] ++ literals "```json"
          ++ fence_tail).

Definition summary_regex : regex :=
  seq_of (literals "##"
          ++ [ws_star;
              Repeat true 0 (Some 1)
                (Subpattern (Some 1)
                   (seq_of (literals "Detailed"
                            ++ [In [SCategory CATEGORY_SPACE]])))]
          ++ literals "Summary"
          ++ [ws_star; Repeat false 0 None AnyChar; Literal nl;
              Subpattern (Some 2) (Seq (Repeat false 0 None AnyChar) Empty);
              Assert (seq_of (literals "##"))]).

(** ** What a successful run of the matcher went through

    [Reach fl r w cs w' cs']: the node [r] can match from the suffix [w]
    with groups [cs], leaving the suffix [w'] and the groups [cs']. *)

Inductive Reach (fl : flags)
  : regex -> str -> captures -> str -> captures -> Prop :=
| R_empty w cs : Reach fl Empty w cs w cs
| R_literal c a w cs :
    literal_eq fl c a = true -> Reach fl (Literal c) (a :: w) cs w cs
| R_any a w cs :
    any_has fl a = true -> Reach fl AnyChar (a :: w) cs w cs
| R_in items a w cs :
    existsb (fun it => item_has fl it a) items = true ->
    Reach fl (In items) (a :: w) cs w cs
| R_seq r1 r2 w cs w1 cs1 w2 cs2 :
    Reach fl r1 w cs w1 cs1 -> Reach fl r2 w1 cs1 w2 cs2 ->
    Reach fl (Seq r1 r2) w cs w2 cs2
| R_branch_l r1 r2 w cs w1 cs1 :
    Reach fl r1 w cs w1 cs1 -> Reach fl (Branch r1 r2) w cs w1 cs1
| R_branch_r r1 r2 w cs w1 cs1 :
    Reach fl r2 w cs w1 cs1 -> Reach fl (Branch r1 r2) w cs w1 cs1
| R_repeat_stop g hi r w cs : Reach fl (Repeat g 0 hi r) w cs w cs
| R_repeat_iter g lo hi r w cs w1 cs1 w2 cs2 :
    lo <> 0 \/ hi <> Some 0 ->
    Reach fl r w cs w1 cs1 ->
    length w1 < length w ->
    Reach fl (Repeat g (pred lo) (option_map pred hi) r) w1 cs1 w2 cs2 ->
    Reach fl (Repeat g lo hi r) w cs w2 cs2
| R_group n r w cs w1 cs1 :
    Reach fl r w cs w1 cs1 ->
    Reach fl (Subpattern (Some n) r) w cs w1 ((n, (w, w1)) :: cs1)
| R_plain r w cs w1 cs1 :
    Reach fl r w cs w1 cs1 -> Reach fl (Subpattern None r) w cs w1 cs1
| R_assert r w cs w1 cs1 :
    Reach fl r w cs w1 cs1 -> Reach fl (Assert r) w cs w cs1.

(** ** The repeats of one character, as plain recursions *)

(** [test*] greedy: the longest run first. *)
Fixpoint greedy_star (test : ascii -> bool) (k : cont) (w : str)
         (cs : captures) : option (str * captures) :=
  match w with
  | a :: w' =>
      if test a
      then match greedy_star test k w' cs with
           | Some res => Some res
           | None => k w cs
           end
      else k w cs
  | [] => k w cs
  end.

(** [test*?] lazy: the shortest run first. *)
Fixpoint lazy_star (test : ascii -> bool) (k : cont) (w : str)
         (cs : captures) : option (str * captures) :=
  match k w cs with
  | Some res => Some res
  | None =>
      match w with
      | a :: w' => if test a then lazy_star test k w' cs else None
      | [] => None
      end
  end.

(** ** Further vocabulary *)

(** Some suffix of [w] satisfies [P]. *)
Definition found (P : str -> bool) (w : str) : bool :=
  match first_at P w with
  | Some _ => true
  | None => false
  end.

(** A dot fence starts here: the opening [```dot] and, after at least one
    character, a closing [```]. *)
Definition dot_fence_here (w : str) : bool :=
  startswith "```dot" w && found (startswith "```") (skipn 7 w).

(** A header for the label starts here, and a json fence starts somewhere
    after the text of the label. *)
Definition header_then_fence (key : str) (w : str) : bool :=
  starts quiz_flags "##" w
  && spaces_then (fun x => starts quiz_flags key x
                           && found fence_here (skipn (length key) x))
                 (skipn 2 w).

(** A word: a non-empty text without whitespace. *)
Definition is_word (w : str) : bool :=
  match w with
  | [] => false
  | _ => forallb (fun a => negb (isspace a)) w
  end.

(** A Summary header whose line goes on after the title. *)
Definition summary_colon : str :=
  "# Notes" ++ [nl] ++ "## Summary:" ++ [nl]
  ++ "  The   topic is X, and it goes on for more than ten words in all."
  ++ [nl] ++ [nl] ++ "## Quiz" ++ [nl].


(** A model that answers with a quoted topic. *)
Definition quoting_generate (prompt : str) : option str + exn :=
  inl (Some (chars " " ++ quoted "Topic X" ++ [nl])).

(** Nothing, or [Detailed] in any case and one whitespace character. *)
Definition optional_detailed (opt : str) : bool :=
  match opt with
  | [] => true
  | _ => same_text summary_flags "Detailed" (firstn 8 opt)
         && match skipn 8 opt with
            | [a] => isspace a
            | _ => false
            end
  end.

(** The parts of a Summary header and of the line after it: whitespace
    [ws], the title [opt ++ sum], whitespace [ws0], and a line [line1]
    that starts with a character other than whitespace. *)
Definition summary_parts (ws opt sum ws0 line1 : str) : bool :=
  forallb isspace ws && optional_detailed opt
  && same_text summary_flags "Summary" sum
  && forallb isspace ws0 && starts_nonspace line1
  && negb (existsb (Ascii.eqb nl) line1).

(** A document with a Summary header, the line [line1], the text [body]
    and a later [##]. *)
Definition summary_section (pre ws opt sum ws0 line1 body rest : str) : str :=
  pre ++ "##" ++ ws ++ opt ++ sum ++ ws0 ++ line1 ++ [nl] ++ body ++ "##"
  ++ rest.

(** A section titled Detailed Summary with two lines. *)
Definition detailed_summary : str :=
  summary_section [] " " "Detailed " "SUMMARY" [nl] "Line one."
                  ("Line two." ++ [nl]) (" Quiz" ++ [nl]).

(** The first ten words of a text, as the frontend makes a topic of
    them; [None] for a text of whitespace. *)
Definition first_words (s : str) : option str :=
  match strip s with
  | [] => None
  | summary_text => Some (join " " (firstn 10 (split summary_text)))
  end.

(** ** Python values decoded from JSON *)

Fixpoint str_eqb (s t : str) : bool :=
  match s, t with
  | [], [] => true
  | a :: s', b :: t' => Ascii.eqb a b && str_eqb s' t'
  | _, _ => false
  end.

(** The value a dict holds for [key]; a dict holds each key once. *)
Fixpoint dict_lookup (key : str) (items : list (str * json)) : option json :=
  match items with
  | [] => None
  | (k, v) :: items' =>
      if str_eqb k key then Some v else dict_lookup key items'
  end.

(** A natural number as [str] and an f-string write it. *)
Definition decimal (n : nat) : str :=
  chars (NilEmpty.string_of_uint (Nat.to_uint n)).

(** The value found in [v] by following the keys of [path] through
    nested dicts. *)
Fixpoint field (v : json) (path : list str) : option json :=
  match path with
  | [] => Some v
  | key :: path' =>
      match v with
      | JDict items =>
          match dict_lookup key items with
          | Some x => field x path'
          | None => None
          end
      | _ => None
      end
  end.

(** ** Files, and the calls that touch them

    The files the program names are modelled by their sizes: the size of
    the file at each path where there is one.  A call that touches the
    files runs from the files and the log, and leaves both behind,
    however it ends. *)

Definition files := str -> option nat.

Definition world := (files * log)%type.

Definition IO (A : Type) : Type := world -> outcome A * world.

Definition io_ret {A} (a : A) : IO A := fun w => (Return a, w).

Definition io_raise {A} (e : exn) : IO A := fun w => (Raise e, w).

Definition io_bind {A B} (m : IO A) (f : A -> IO B) : IO B :=
  fun w =>
    match m w with
    | (Return a, w') => f a w'
    | (Raise e, w') => (Raise e, w')
    | (Escape name, w') => (Escape name, w')
    | (Outside, w') => (Outside, w')
    end.

Notation "x <~ m ;; f" := (io_bind m (fun x => f))
  (at level 61, m at next level, right associativity).
Notation "m ~;; f" := (io_bind m (fun _ => f))
  (at level 61, right associativity).

(** A call that only writes to the log. *)
Definition run {A} (m : M A) : IO A :=
  fun w => let (o, l) := m (snd w) in (o, (fst w, l)).

(** [try: m except Exception as e: handler e]: what derives from
    [Exception] is handled, anything else goes through. *)
Definition io_try_except {A} (m : IO A) (handler : exn -> IO A) : IO A :=
  fun w =>
    match m w with
    | (Raise e, w') => handler e w'
    | res => res
    end.

(** [try: m finally: cleanup]: the cleanup runs however [m] ends, and
    what [m] returned or raised stands unless the cleanup raises: an
    exception of the cleanup replaces it. *)
Definition io_finally {A} (m : IO A) (cleanup : IO unit) : IO A :=
  fun w =>
    match m w with
    | (Outside, w') => (Outside, w')
    | (o, w') =>
        match cleanup w' with
        | (Return _, w'') => (o, w'')
        | (Raise e, w'') => (Raise e, w'')
        | (Escape name, w'') => (Escape name, w'')
        | (Outside, w'') => (Outside, w'')
        end
    end.

(** The text of the [FileNotFoundError] of the operating system. *)
Definition no_such_file (path : str) : exn :=
  OtherException ("[Errno 2] No such file or directory: '" ++ path ++ "'").

(** [os.path.exists(path)] *)
Definition path_exists (path : str) : IO bool :=
  fun w => (Return (match fst w path with Some _ => true | None => false end),
            w).

(** [os.path.getsize(path)] *)
Definition getsize (path : str) : IO nat :=
  fun w =>
    match fst w path with
    | Some n => (Return n, w)
    | None => (Raise (no_such_file path), w)
    end.

(** [os.remove(path)].  Where there is no file the call raises
    [FileNotFoundError].  Where [os.path.exists] sees one the call can
    fail all the same: the path is a directory, the file may not be
    removed, another process has removed it in between.
    [remove_error path fs] is the exception the operating system answers
    with then, if any; the files are left as they were. *)
Definition remove (remove_error : str -> files -> option exn) (path : str)
  : IO unit :=
  fun w =>
    match fst w path with
    | Some _ =>
        match remove_error path (fst w) with
        | Some e => (Raise e, w)
        | None =>
            (Return tt,
             (fun p => if str_eqb p path then None else fst w p, snd w))
        end
    | None => (Raise (no_such_file path), w)
    end.

(** The text of [s] before the first [c]: [s.split(c)[0]]. *)
Fixpoint before (c : ascii) (s : str) : str :=
  match s with
  | [] => []
  | a :: s' => if Ascii.eqb a c then [] else a :: before c s'
  end.

(** [os.path.basename(path)], on POSIX: what follows the last slash. *)
Definition basename (path : str) : str := rev (before "/" (rev path)).

(** ** The services of [backend/processing.py] and the endpoints of
       [backend/main.py] *)

(** What a call into a library or a remote service raises: an exception
    of a class that derives from [Exception], or one of a class that does
    not, named by its class ([KeyboardInterrupt], [SystemExit],
    [GeneratorExit]). *)
Inductive raised :=
| Exception (e : exn)
| BaseException (name : str).

(** The outcome of such a call. *)
Definition ended {A} (r : A + raised) : outcome A :=
  match r with
  | inl a => Return a
  | inr (Exception e) => Raise e
  | inr (BaseException name) => Escape name
  end.

Definition call {A} (r : A + raised) : M A := fun l => (ended r, l).

Module Processing.

Section Services.

(** The module's global [youtube_service]: [None], or the client, of
    which [search().list(q=query, part='snippet', maxResults=max_results,
    type='video').execute()] returns the decoded response or raises. *)
Variable youtube_service : option (str -> Z -> json + raised).

(** The exceptions Python raises on a value of the wrong type: by
    [v[key]] for a [v] that is not a dict, by [v.get] for such a [v], and
    by a [for] loop over a [v] that cannot be iterated. *)
Variable not_subscriptable : json -> exn.
Variable no_attribute_get : json -> exn.
Variable not_iterable : json -> exn.

(** [str(v)] for the values other than strings. *)
Variable py_str : json -> str.

(** [GenerativeModel('gemini-1.5-flash-latest').generate_content(prompt)]
    followed by the reading of [response.text]: the text, [None] for a
    response without one, or the exception raised. *)
Variable generate_content : str -> option str + raised.

(** [with yt_dlp.YoutubeDL(ydl_opts) as ydl: ydl.download([video_url])],
    for the options of [video_to_audio] with the given [outtmpl]: it
    returns or raises, and leaves the files as it made them. *)
Variable ydl_download : str -> str -> files -> (unit + raised) * files.

(** [WhisperModel("base", device="cpu", compute_type="int8")] followed by
    [model.transcribe(audio_path, beam_size=5)] and the reading of the
    segments: the texts of the segments, or the exception raised. *)
Variable transcribe : str -> files -> (list str + raised) * files.

Definition download (outtmpl video_url : str) : IO unit :=
  fun w =>
    let (r, fs) := ydl_download outtmpl video_url (fst w) in
    (ended r, (fs, snd w)).

Definition segments_of (audio_path : str) : IO (list str) :=
  fun w =>
    let (r, fs) := transcribe audio_path (fst w) in
    (ended r, (fs, snd w)).

Definition video_to_audio (video_url output_path : str) : IO str :=
  run (logging INFO ("Starting audio extraction for URL: " ++ video_url)) ~;;
  let unique_id : str := before "." (basename output_path) in
  let output_template : str := unique_id ++ ".%(ext)s" in
  io_try_except
    (download output_template video_url ~;;
     present <~ path_exists output_path ;;
     missing <~ (if negb present then io_ret true
                 else size <~ getsize output_path ;; io_ret (size =? 0)) ;;
     if (missing : bool)
     then io_raise (OtherException "Audio file was not created or is empty.")
     else
       run (logging INFO
                    ("Audio extracted successfully to " ++ output_path)) ~;;
       io_ret output_path)
    (fun e =>
       run (logging ERROR
                    ("yt-dlp failed for URL " ++ video_url ++ ". Error: "
                     ++ exn_text e)) ~;;
       io_raise e).

Definition audio_to_text (audio_path : str) : IO str :=
  present <~ path_exists audio_path ;;
  if negb present
  then io_raise (OtherException
                   ("Audio file not found at path: " ++ audio_path))
  else
    io_try_except
      (run (logging INFO
                    ("Loading Whisper model for transcription of "
                     ++ audio_path ++ ".")) ~;;
       segments <~ segments_of audio_path ;;
       let transcript : str := concat segments in
       run (logging INFO
                    ("Transcription complete. Transcript length: "
                     ++ decimal (length transcript) ++ " characters.")) ~;;
       io_ret transcript)
      (fun e =>
         run (logging ERROR
                      ("Whisper transcription failed for " ++ audio_path
                       ++ ". Error: " ++ exn_text e)) ~;;
         io_raise e).

(** The value of the local [system_prompt] of [generate_notes]. *)
Definition system_prompt : str := "...".

Definition generate_notes (text : str) : M str :=
  logging INFO "Calling Gemini API to generate notes." ;;
  match text with
  | [] => raise (ValueError "Cannot generate notes from an empty transcript.")
  | _ =>
      try_except
        (response <- call (generate_content
                             (system_prompt ++ [nl; nl]
                              ++ "Here is the transcript:" ++ [nl] ++ text)) ;;
         match response with
         | Some (a :: notes) =>
             logging INFO "Successfully generated notes from Gemini API." ;;
             ret (a :: notes)
         | _ =>
             raise (ValueError
                      "Gemini API returned an empty or malformed response.")
         end)
        (fun e =>
           logging ERROR
                   ("Gemini API call for notes generation failed: "
                    ++ exn_text e) ;;
           raise e)
  end.

(** [v[key]] for a string [key]; the text of the [KeyError] is the key
    between single quotes. *)
Definition getitem (v : json) (key : str) : M json :=
  match v with
  | JDict items =>
      match dict_lookup key items with
      | Some x => ret x
      | None => raise (OtherException ("'" ++ key ++ "'"))
      end
  | _ => raise (not_subscriptable v)
  end.

(** [v.get(key, default)] *)
Definition get (v : json) (key : str) (default : json) : M json :=
  match v with
  | JDict items =>
      ret (match dict_lookup key items with
           | Some x => x
           | None => default
           end)
  | _ => raise (no_attribute_get v)
  end.

(** The values a [for] loop over [v] goes through: the elements of a
    list, the keys of a dict, the characters of a string. *)
Definition iter (v : json) : M (list json) :=
  match v with
  | JList l => ret l
  | JDict items => ret (map (fun kv => JString (fst kv)) items)
  | JString s => ret (map (fun c => JString [c]) s)
  | _ => raise (not_iterable v)
  end.

(** A value inside an f-string. *)
Definition format (v : json) : str :=
  match v with
  | JString s => s
  | _ => py_str v
  end.

(** The dict appended for one item of the response. *)
Definition recommendation (item : json) : M json :=
  snippet <- getitem item "snippet" ;;
  title <- getitem snippet "title" ;;
  id <- getitem item "id" ;;
  videoId <- getitem id "videoId" ;;
  snippet <- getitem item "snippet" ;;
  thumbnails <- getitem snippet "thumbnails" ;;
  high <- getitem thumbnails "high" ;;
  url <- getitem high "url" ;;
  ret (JDict [("title" : str, title);
              ("url" : str,
               JString ("https://www.youtube.com/watch?v=" ++ format videoId));
              ("thumbnail" : str, url)]).

(** The loop over the items, [recommendations] being the list built so
    far. *)
Fixpoint for_item_in (items : list json) (recommendations : list json)
  : M (list json) :=
  match items with
  | [] => ret recommendations
  | item :: items' =>
      r <- recommendation item ;;
      for_item_in items' (recommendations ++ [r])
  end.

Definition get_youtube_recommendations (topic level : str) (max_results : Z)
  : M (list json) :=
  match youtube_service with
  | None =>
      logging WARNING
              "YouTube service not available. Skipping recommendations." ;;
      ret []
  | Some service =>
      match topic with
      | [] =>
          logging WARNING "No topic provided. Skipping recommendations." ;;
          ret []
      | _ =>
          logging INFO
                  ("Fetching YouTube recommendations for topic: '" ++ topic
                   ++ "', level: '" ++ level ++ "'.") ;;
          let query : str := topic ++ " for " ++ level ++ "s tutorial" in
          try_except
            (search_response <- call (service query max_results) ;;
             items <- get search_response "items" (JList []) ;;
             items <- iter items ;;
             recommendations <- for_item_in items [] ;;
             logging INFO
                     ("Found " ++ decimal (length recommendations)
                      ++ " YouTube recommendations.") ;;
             ret recommendations)
            (fun e =>
               logging ERROR ("YouTube API search failed: " ++ exn_text e) ;;
               ret [])
      end
  end.

End Services.

End Processing.

Module Main.

Section Endpoints.

Variable youtube_service : option (str -> Z -> json + raised).
Variable not_subscriptable : json -> exn.
Variable no_attribute_get : json -> exn.
Variable not_iterable : json -> exn.
Variable py_str : json -> str.

Variable json_loads : str -> json + exn.
Variable remove_error : str -> files -> option exn.
Variable generate_content : str -> option str + raised.
Variable ydl_download : str -> str -> files -> (unit + raised) * files.
Variable transcribe : str -> files -> (list str + raised) * files.

(** An optional text in an answer: [None] is written [null]. *)
Definition optional (o : option str) : json :=
  match o with
  | Some s => JString s
  | None => JNull
  end.

(** The endpoint [/generate], on a request with the field [video_url]. *)
Definition generate_notes_endpoint (video_url : str) : IO json :=
  let audio_file_path : str := "Target_audio.mp3" in
  io_finally
    (io_try_except
       (Processing.video_to_audio ydl_download video_url audio_file_path ~;;
        transcript <~ Processing.audio_to_text transcribe audio_file_path ;;
        notes_text <~ run (Processing.generate_notes generate_content
                                                     transcript) ;;
        mcq_questions <~
          run (Backend.parse_quiz_from_json json_loads notes_text
                                            "MCQ Quiz") ;;
        flashcard_questions <~
          run (Backend.parse_quiz_from_json json_loads notes_text
                                            "Flashcard Review") ;;
        graphviz_data <~ run (Backend.parse_graphviz notes_text) ;;
        io_ret (JDict [("status" : str, JString "success");
                       ("notes" : str, JString notes_text);
                       ("mcq_questions" : str, mcq_questions);
                       ("flashcard_questions" : str, flashcard_questions);
                       ("graphviz_data" : str, optional graphviz_data)]))
       (fun e =>
          io_ret (JDict [("status" : str, JString "error");
                         ("message" : str, JString (exn_text e))])))
    (present <~ path_exists audio_file_path ;;
     if (present : bool) then remove remove_error audio_file_path
     else io_ret tt).

(** The endpoint [/roadmap], on a request with the fields [topic] and
    [level]; [max_results] is left to its default, 3. *)
Definition generate_roadmap_endpoint (topic level : str) : M json :=
  try_except
    (recommendations <-
       Processing.get_youtube_recommendations
         youtube_service not_subscriptable no_attribute_get not_iterable
         py_str topic level 3%Z ;;
     ret (JDict [("status" : str, JString "success");
                 ("recommendations" : str, JList recommendations)]))
    (fun e =>
       ret (JDict [("status" : str, JString "error");
                   ("message" : str, JString (exn_text e))])).

End Endpoints.

End Main.

(** *** Sample services *)

(** A response with two videos. *)
Definition video (id title : str) : json :=
  JDict [("id" : str, JDict [("videoId" : str, JString id)]);
         ("snippet" : str,
          JDict [("title" : str, JString title);
                 ("thumbnails" : str,
                  JDict [("high" : str,
                          JDict [("url" : str,
                                  JString ("https://i.ytimg.com/vi/" ++ id
                                           ++ "/hqdefault.jpg"))])])])].

Definition sample_service (query : str) (max_results : Z)
  : json + raised :=
  inl (JDict [("items" : str,
               JList [video "abc" "First"; video "xyz" "Second"])]).

(** The recommendations made of that response. *)
Definition sample_recommendations : list json :=
  [JDict [("title" : str, JString "First");
          ("url" : str, JString "https://www.youtube.com/watch?v=abc");
          ("thumbnail" : str,
           JString "https://i.ytimg.com/vi/abc/hqdefault.jpg")];
   JDict [("title" : str, JString "Second");
          ("url" : str, JString "https://www.youtube.com/watch?v=xyz");
          ("thumbnail" : str,
           JString "https://i.ytimg.com/vi/xyz/hqdefault.jpg")]].

(** A service that is out of quota. *)
Definition failing_service (query : str) (max_results : Z)
  : json + raised :=
  inr (Exception (OtherException "quotaExceeded")).

(** A service whose call is interrupted from the keyboard. *)
Definition interrupted_service (query : str) (max_results : Z)
  : json + raised :=
  inr (BaseException "KeyboardInterrupt").

Definition sample_type_error (v : json) : exn :=
  OtherException "wrong type".

Definition sample_str (v : json) : str := "?".

(** [r] is the recommendation made of [item]: its title, the address of
    the video made of its [videoId], and its high thumbnail. *)
Definition recommended (py_str : json -> str) (item r : json) : Prop :=
  exists title videoId thumbnail,
    field item ["snippet" : str; "title" : str] = Some title
    /\ field item ["id" : str; "videoId" : str] = Some videoId
    /\ field item ["snippet" : str; "thumbnails" : str; "high" : str;
                   "url" : str] = Some thumbnail
    /\ r = JDict [("title" : str, title);
                  ("url" : str,
                   JString ("https://www.youtube.com/watch?v="
                            ++ match videoId with
                               | JString s => s
                               | _ => py_str videoId
                               end));
                  ("thumbnail" : str, thumbnail)].

(** A call that returns, raises an exception that derives from
    [Exception], or lets escape one whose name satisfies [P]; its pattern,
    if it has one, is inside the embedded fragment. *)
Definition ends {A} (P : str -> Prop) (m : M A) : Prop :=
  forall l, match fst (m l) with
            | Escape name => P name
            | Outside => False
            | _ => True
            end.

(** The same for a call on the files. *)
Definition io_ends {A} (P : str -> Prop) (m : IO A) : Prop :=
  forall w, match fst (m w) with
            | Escape name => P name
            | Outside => False
            | _ => True
            end.

(** No name: nothing escapes. *)
Definition no_escape (name : str) : Prop := False.

(** *** Sample services for the pipeline *)

(** No file at all. *)
Definition no_files : files := fun _ => None.

(** A download that writes a thousand bytes where the template says,
    with the extension mp3. *)
Definition sample_download (outtmpl video_url : str) (fs : files)
  : (unit + raised) * files :=
  (inl tt,
   fun p => if str_eqb p (before "%" outtmpl ++ "mp3") then Some 1000
            else fs p).

(** A download that fails. *)
Definition failing_download (outtmpl video_url : str) (fs : files)
  : (unit + raised) * files :=
  (inr (Exception (OtherException "Video unavailable")), fs).

(** A download that writes its file and is then interrupted from the
    keyboard. *)
Definition interrupted_download (outtmpl video_url : str) (fs : files)
  : (unit + raised) * files :=
  (inr (BaseException "KeyboardInterrupt"),
   fun p => if str_eqb p (before "%" outtmpl ++ "mp3") then Some 1000
            else fs p).

(** An operating system that removes every file it is asked to, and one
    that refuses. *)
Definition no_remove_error (path : str) (fs : files) : option exn := None.

Definition permission_denied (path : str) (fs : files) : option exn :=
  Some (OtherException ("[Errno 13] Permission denied: '" ++ path ++ "'")).

Definition sample_transcribe (audio_path : str) (fs : files)
  : (list str + raised) * files :=
  (inl [chars "Hello "; chars "world."], fs).

(** A model that answers with the notes [one_section]. *)
Definition sample_notes_model (prompt : str) : option str + raised :=
  inl (Some one_section).



(** The sample download, run from no file and an empty log. *)
Definition sample_download_run : outcome str * world :=
  Processing.video_to_audio sample_download "https://youtu.be/x"
                            "Target_audio.mp3" (no_files, []).

(** ** [re.sub] with a function as the replacement

    The matches are looked for one after the other, each search starting
    where the last match ended; after an empty match the next one may not
    be empty at the same place.  Between the matches the text is kept,
    and each match is replaced by what the function returns for it. *)

(** The end of a match that starts at [w]; an empty match is refused when
    the match has to advance. *)
Definition accept_advancing (must_advance : bool) (w : str) : cont :=
  fun w' cs =>
    if must_advance && (length w' =? length w) then None else Some (w', cs).

Fixpoint search_from (fl : flags) (r : regex) (must_advance : bool) (w : str)
  : option match_object :=
  match bt fl r (accept_advancing must_advance w) w [] with
  | Some (w', cs) => Some (Match w w' cs)
  | None =>
      match w with
      | [] => None
      | _ :: w' => search_from fl r false w'
      end
  end.

(** The [fuel] bounds the number of matches; twice the length of the text
    and two is enough (lemma [sub_go_returns]). *)
Fixpoint sub_go (fuel : nat) (fl : flags) (r : regex)
         (repl : match_object -> M str) (must_advance : bool) (w : str)
  : M str :=
  match fuel with
  | 0 => outside
  | S fuel' =>
      match search_from fl r must_advance w with
      | None => ret w
      | Some m =>
          item <- repl m ;;
          rest <- sub_go fuel' fl r repl
                         (length (m_end m) =? length (m_start m))
                         (m_end m) ;;
          ret (firstn (length w - length (m_start m)) w ++ item ++ rest)
      end
  end.

(** [re.sub(pattern, repl, text, flags=fl)] *)
Definition re_sub (pattern : str) (repl : match_object -> M str) (text : str)
           (fl : flags) : M str :=
  match re_compile pattern with
  | Compiled r => sub_go (2 * length text + 2) fl r repl false text
  | ReError => raise re_error
  | Unsupported => outside
  end.

(** ** The helpers of [frontend/app.py] *)

Module App.

Section Hash.

(** The built-in [hash], on a text or on [None]. *)
Variable hash : option str -> Z.

Definition colors : list str :=
  [chars "#FFD6A5"; chars "#FDFFB6"; chars "#CAFFBF"; chars "#9BF6FF";
   chars "#FFC0CB"].

(** [l[i]] for an index that is not negative. *)
Definition item_at (l : list str) (i : Z) : M str :=
  match nth_error l (Z.to_nat i) with
  | Some x => ret x
  | None => raise (OtherException "list index out of range")
  end.

(** A group inside an f-string: its text, or [None]. *)
Definition format_group (g : option str) : str :=
  match g with
  | Some s => s
  | None => "None"
  end.

Definition color_replacer (match_ : match_object) : M str :=
  let keyword := group match_ 1 in
  color <- item_at colors (hash keyword mod Z.of_nat (length colors)) ;;
  ret ("<span style=" ++ [dq] ++ "background-color: " ++ color ++ "; ..."
       ++ [dq] ++ ">" ++ format_group keyword ++ "</span>").

Definition highlight_keywords (text : str) : M str :=
  re_sub "@@(.*?)@@" color_replacer text NOFLAG.

End Hash.

End App.

(** The parse tree of the pattern of [highlight_keywords]. *)
Definition keyword_regex : regex :=
  seq_of (literals "@@"
          ++ [Subpattern (Some 1) (Seq (Repeat false 0 None AnyChar) Empty)]
          ++ literals "@@").

(** The element a keyword is replaced by, in the colour [color]. *)
Definition span_of (color keyword : str) : str :=
  "<span style=" ++ [dq] ++ "background-color: " ++ color ++ "; ..."
  ++ [dq] ++ ">" ++ keyword ++ "</span>".

(** A hash for the examples: the length of the text. *)
Definition sample_hash (k : option str) : Z :=
  match k with
  | Some s => Z.of_nat (length s)
  | None => (-1)%Z
  end.

(** ** Properties of matcher components, for the proofs *)

(** Whatever [body] answers was reached by a run of [r] that ended where
    the continuation accepted. *)
Definition sound_body (fl : flags) (r : regex) (body : cont -> cont) : Prop :=
  forall k w cs res,
    body k w cs = Some res ->
    exists w' cs', Reach fl r w cs w' cs' /\ k w' cs' = Some res.

(** [body] only depends on what its continuation answers. *)
Definition ext_body (body : cont -> cont) : Prop :=
  forall k k', (forall w cs, k w cs = k' w cs) ->
               forall w cs, body k w cs = body k' w cs.

(** The test of [[\s\S]]. *)
Definition always : ascii -> bool := fun _ => true.

(** A node that takes exactly one character passing [test] and leaves the
    groups alone. *)
Definition one_char (fl : flags) (r : regex) (test : ascii -> bool) : Prop :=
  forall w cs w1 cs1,
    Reach fl r w cs w1 cs1 ->
    exists a, w = a :: w1 /\ cs1 = cs /\ test a = true.

(** ** The patterns compile *)

Lemma dot_pattern_compiles : re_compile dot_pattern = Compiled dot_regex.
Proof. reflexivity. Qed.

Lemma summary_pattern_compiles :
  re_compile summary_pattern = Compiled summary_regex.
Proof. reflexivity. Qed.

Lemma plain_char_parse a rest stack alts seq ng :
  plain_char a = true ->
  parse (a :: rest) None stack alts seq ng
  = parse rest None stack alts (Literal a :: seq) ng.
Proof.
  unfold plain_char. rewrite negb_true_iff. cbn [existsb chars list_ascii_of_string].
  intros H. repeat (apply orb_false_elim in H; destruct H as [? H]).
  cbn [parse]. unfold repeat_bounds, ch.
  repeat match goal with E : Ascii.eqb _ _ = false |- _ => rewrite E; clear E end.
  reflexivity.
Qed.

Lemma plain_label_parse key rest stack alts seq ng :
  plain_label key = true ->
  parse (key ++ rest) None stack alts seq ng
  = parse rest None stack alts (rev (literals key) ++ seq) ng.
Proof.
  revert seq. induction key as [|a key IH]; intros seq H.
  - reflexivity.
  - cbn [plain_label forallb] in H. apply andb_true_iff in H as [Ha Hk].
    cbn [app]. rewrite plain_char_parse by exact Ha.
    rewrite IH by exact Hk. cbn [literals map rev].
    rewrite <- app_assoc. reflexivity.
Qed.

Lemma seq_of_app a b : seq_of (a ++ b) = fold_right Seq (seq_of b) a.
Proof. unfold seq_of. apply fold_right_app. Qed.

Lemma plain_char_not_repeat a :
  plain_char a = true ->
  Ascii.eqb a (ch "?") = false /\ Ascii.eqb a (ch "+") = false.
Proof.
  unfold plain_char. rewrite negb_true_iff.
  cbn [existsb chars list_ascii_of_string].
  intros H. repeat (apply orb_false_elim in H; destruct H as [? H]).
  split; assumption.
Qed.

Lemma quiz_suffix_parse seq :
  parse (chars "[\s\S]*?```json\s*([\s\S]+?)\s*```") None [] [] seq 0
  = Compiled (seq_of (rev seq ++ [Repeat false 0 None any_set]
                      ++ literals "```json" ++ fence_tail)).
Proof.
  cbn. unfold seq_of. f_equal. f_equal.
  repeat (rewrite <- app_assoc; cbn [app]). reflexivity.
Qed.

(** A plain label makes the spliced pattern compile, to the expected
    tree. *)
Lemma quiz_pattern_compiles key :
  plain_label key = true ->
  re_compile (quiz_pattern key) = Compiled (quiz_regex key).
Proof.
  intros H. unfold re_compile, quiz_pattern.
  change (chars "##\s*" ++ key ++ chars "[\s\S]*?```json\s*([\s\S]+?)\s*```")
    with ("#"%char :: "#"%char :: "\"%char :: "s"%char :: "*"%char
          :: key ++ chars "[\s\S]*?```json\s*([\s\S]+?)\s*```").
  assert (Hpre : parse ("#"%char :: "#"%char :: "\"%char :: "s"%char
                        :: "*"%char
                        :: key ++ chars "[\s\S]*?```json\s*([\s\S]+?)\s*```")
                       None [] [] [] 0
                 = parse (key ++ chars "[\s\S]*?```json\s*([\s\S]+?)\s*```")
                         None [] [] [ws_star; Literal "#"; Literal "#"] 0).
  { destruct key as [|a key].
    - reflexivity.
    - cbn [plain_label forallb] in H. apply andb_true_iff in H as [Ha _].
      destruct (plain_char_not_repeat _ Ha) as [E1 E2].
      cbn [app]. cbn [parse]. cbn. unfold ch in E1, E2.
      rewrite E1, E2. reflexivity. }
  rewrite Hpre, plain_label_parse by exact H.
  rewrite quiz_suffix_parse. unfold quiz_regex. f_equal. f_equal.
  rewrite rev_app_distr, rev_involutive. cbn [rev app].
  rewrite <- ?app_assoc. reflexivity.
Qed.

(** ** The matcher: soundness

    Whatever the matcher answers was reached by a run of the pattern that
    ended where the continuation accepted. *)

Section Matcher.

Variable fl : flags.

Lemma one_sound test k w cs res :
  one test k w cs = Some res ->
  exists a w', w = a :: w' /\ test a = true /\ k w' cs = Some res.
Proof.
  unfold one. destruct w as [|a w']; [discriminate|].
  destruct (test a) eqn:E; [|discriminate].
  intros H. exists a, w'. auto.
Qed.

Lemma rep_sound r body :
  sound_body fl r body ->
  forall fuel greedy lo hi, sound_body fl (Repeat greedy lo hi r)
                                       (rep fuel body greedy lo hi).
Proof.
  intros Hbody fuel.
  induction fuel as [|fuel IH]; intros greedy lo hi k w cs res H.
  - discriminate.
  - cbn [rep] in H.
    assert (Hiter : lo <> 0 \/ hi <> Some 0 ->
              forall res0,
                body (fun w' cs' =>
                        if length w' <? length w
                        then rep fuel body greedy (pred lo)
                                 (option_map pred hi) k w' cs'
                        else None) w cs = Some res0 ->
                exists w' cs',
                  Reach fl (Repeat greedy lo hi r) w cs w' cs'
                  /\ k w' cs' = Some res0).
    { intros Hb res0 H0. apply Hbody in H0 as (w1 & cs1 & HR & Hk).
      destruct (length w1 <? length w) eqn:E; [|discriminate].
      apply Nat.ltb_lt in E.
      apply IH in Hk as (w2 & cs2 & HR2 & Hk2).
      exists w2, cs2. split; [|exact Hk2].
      eapply R_repeat_iter; eauto. }
    assert (Hstop : lo = 0 -> k w cs = Some res ->
              exists w' cs',
                Reach fl (Repeat greedy lo hi r) w cs w' cs'
                /\ k w' cs' = Some res).
    { intros -> Hk. exists w, cs. split; [constructor | exact Hk]. }
    destruct lo as [|lo].
    + destruct hi as [[|h]|].
      * auto.
      * destruct greedy.
        -- match type of H with
           | match ?b with _ => _ end = _ => destruct b eqn:E
           end.
           ++ inversion H; subst. apply Hiter; [right; discriminate|reflexivity].
           ++ auto.
        -- destruct (k w cs) eqn:E.
           ++ inversion H; subst. auto.
           ++ apply Hiter; [right; discriminate|exact H].
      * destruct greedy.
        -- match type of H with
           | match ?b with _ => _ end = _ => destruct b eqn:E
           end.
           ++ inversion H; subst. apply Hiter; [right; discriminate|reflexivity].
           ++ auto.
        -- destruct (k w cs) eqn:E.
           ++ inversion H; subst. auto.
           ++ apply Hiter; [right; discriminate|exact H].
    + apply Hiter; [left; discriminate|exact H].
Qed.

Theorem bt_sound r : sound_body fl r (bt fl r).
Proof.
  induction r as [|c| |items|r1 IH1 r2 IH2|r1 IH1 r2 IH2|g lo hi r IH
                  |[n|] r IH|r IH]; intros k w cs res H; cbn [bt] in H.
  - exists w, cs. split; [constructor|exact H].
  - apply one_sound in H as (a & w' & -> & Ht & Hk).
    exists w', cs. split; [constructor; exact Ht|exact Hk].
  - apply one_sound in H as (a & w' & -> & Ht & Hk).
    exists w', cs. split; [constructor; exact Ht|exact Hk].
  - apply one_sound in H as (a & w' & -> & Ht & Hk).
    exists w', cs. split; [constructor; exact Ht|exact Hk].
  - apply IH1 in H as (w1 & cs1 & HR1 & H).
    apply IH2 in H as (w2 & cs2 & HR2 & H).
    exists w2, cs2. split; [econstructor; eauto|exact H].
  - destruct (bt fl r1 k w cs) eqn:E.
    + inversion H; subst. apply IH1 in E as (w1 & cs1 & HR & Hk).
      exists w1, cs1. split; [apply R_branch_l; exact HR|exact Hk].
    + apply IH2 in H as (w1 & cs1 & HR & Hk).
      exists w1, cs1. split; [apply R_branch_r; exact HR|exact Hk].
  - eapply rep_sound; eauto.
  - apply IH in H as (w1 & cs1 & HR & Hk).
    exists w1, ((n, (w, w1)) :: cs1). split; [constructor; exact HR|exact Hk].
  - apply IH in H as (w1 & cs1 & HR & Hk).
    exists w1, cs1. split; [constructor; exact HR|exact Hk].
  - destruct (bt fl r accept w cs) as [[w1 cs1]|] eqn:E; [|discriminate].
    apply IH in E as (w2 & cs2 & HR & Hk). unfold accept in Hk.
    inversion Hk; subst.
    exists w, cs1. split; [econstructor; exact HR|exact H].
Qed.

(** The matcher only depends on what its continuation answers. *)
Lemma one_ext test : ext_body (one test).
Proof.
  intros k k' H w cs. unfold one. destruct w; [reflexivity|].
  destruct (test a); [apply H|reflexivity].
Qed.

Lemma rep_ext body :
  ext_body body ->
  forall fuel greedy lo hi, ext_body (rep fuel body greedy lo hi).
Proof.
  intros Hbody fuel.
  induction fuel as [|fuel IH]; intros greedy lo hi k k' H w cs.
  - reflexivity.
  - cbn [rep].
    assert (E : body (fun w' cs' =>
                        if length w' <? length w
                        then rep fuel body greedy (pred lo)
                                 (option_map pred hi) k w' cs'
                        else None) w cs
                = body (fun w' cs' =>
                          if length w' <? length w
                          then rep fuel body greedy (pred lo)
                                   (option_map pred hi) k' w' cs'
                          else None) w cs).
    { apply Hbody. intros w' cs'.
      destruct (length w' <? length w); [|reflexivity].
      apply IH. exact H. }
    rewrite E, (H w cs). reflexivity.
Qed.

Lemma bt_ext r : ext_body (bt fl r).
Proof.
  induction r as [|c| |items|r1 IH1 r2 IH2|r1 IH1 r2 IH2|g lo hi r IH
                  |[n|] r IH|r IH]; intros k k' H w cs; cbn [bt].
  - apply H.
  - apply one_ext; exact H.
  - apply one_ext; exact H.
  - apply one_ext; exact H.
  - apply IH1. intros w' cs'. apply IH2. exact H.
  - rewrite (IH1 k k' H), (IH2 k k' H). reflexivity.
  - apply rep_ext; assumption.
  - apply IH. intros w' cs'. apply H.
  - apply IH. exact H.
  - destruct (bt fl r accept w cs) as [[w1 cs1]|]; [apply H|reflexivity].
Qed.

(** *** Sequences and literal text *)

Lemma bt_seq_of_app a b k :
  bt fl (seq_of (a ++ b)) k = bt fl (seq_of a) (bt fl (seq_of b) k).
Proof.
  induction a as [|x a IH]; [reflexivity|].
  cbn [app seq_of fold_right bt]. unfold seq_of in IH. rewrite IH.
  reflexivity.
Qed.

Lemma bt_literals l k w cs :
  bt fl (seq_of (literals l)) k w cs
  = if starts fl l w then k (skipn (length l) w) cs else None.
Proof.
  revert w. induction l as [|c l IH]; intros w; [reflexivity|].
  cbn [literals map seq_of fold_right bt length starts]. unfold one.
  destruct w as [|a w]; [reflexivity|].
  destruct (literal_eq fl c a); [|reflexivity].
  cbn [andb skipn]. apply IH.
Qed.

(** *** Repeats of one character *)

Lemma rep_one_greedy test k cs w :
  forall fuel, length w < fuel ->
    rep fuel (one test) true 0 None k w cs = greedy_star test k w cs.
Proof.
  induction w as [|a w IH]; intros [|fuel] Hf; try (cbn in Hf; lia).
  - reflexivity.
  - cbn [rep one greedy_star]. destruct (test a); [|reflexivity].
    cbn [length pred option_map].
    replace (length w <? S (length w)) with true
      by (symmetry; apply Nat.ltb_lt; lia).
    rewrite IH by (cbn in Hf; lia). reflexivity.
Qed.

Lemma rep_one_lazy test k cs w :
  forall fuel, length w < fuel ->
    rep fuel (one test) false 0 None k w cs = lazy_star test k w cs.
Proof.
  induction w as [|a w IH]; intros [|fuel] Hf; try (cbn in Hf; lia).
  - cbn [rep one lazy_star]. destruct (k [] cs); reflexivity.
  - cbn [rep one lazy_star]. destruct (k (a :: w) cs); [reflexivity|].
    destruct (test a); [|reflexivity].
    cbn [length pred option_map].
    replace (length w <? S (length w)) with true
      by (symmetry; apply Nat.ltb_lt; lia).
    apply IH. cbn in Hf; lia.
Qed.

Lemma rep_one_lazy_plus test k cs w :
  rep (S (length w)) (one test) false 1 None k w cs
  = one test (lazy_star test k) w cs.
Proof.
  destruct w as [|a w]; [reflexivity|].
  cbn [rep]. unfold one. destruct (test a); [|reflexivity].
  cbn [length pred option_map].
  replace (length w <? S (length w)) with true
    by (symmetry; apply Nat.ltb_lt; lia).
  apply rep_one_lazy. lia.
Qed.

Lemma greedy_star_test t t' k w cs :
  (forall a, t a = t' a) ->
  greedy_star t k w cs = greedy_star t' k w cs.
Proof.
  intros H. induction w as [|a w IH]; [reflexivity|].
  cbn [greedy_star]. rewrite IH, H. reflexivity.
Qed.

Lemma lazy_star_test t t' k w cs :
  (forall a, t a = t' a) ->
  lazy_star t k w cs = lazy_star t' k w cs.
Proof.
  intros H. induction w as [|a w IH]; [reflexivity|].
  cbn [lazy_star]. rewrite IH, H. reflexivity.
Qed.

Lemma any_set_test a :
  existsb (fun it => item_has fl it a)
          [SCategory CATEGORY_SPACE; SCategory CATEGORY_NOT_SPACE] = true.
Proof. cbn. destruct (isspace a); reflexivity. Qed.

Lemma space_test a :
  existsb (fun it => item_has fl it a) [SCategory CATEGORY_SPACE] = isspace a.
Proof. cbn. apply orb_false_r. Qed.

Lemma bt_ws_star k w cs :
  bt fl ws_star k w cs = greedy_star isspace k w cs.
Proof.
  unfold ws_star. cbn [bt]. rewrite rep_one_greedy by lia.
  apply greedy_star_test, space_test.
Qed.

Lemma bt_lazy_any k w cs :
  bt fl (Repeat false 0 None any_set) k w cs = lazy_star always k w cs.
Proof.
  unfold any_set. cbn [bt]. rewrite rep_one_lazy by lia.
  apply lazy_star_test, any_set_test.
Qed.

Lemma bt_lazy_plus_any k w cs :
  bt fl (Repeat false 1 None any_set) k w cs
  = match w with
    | _ :: w' => lazy_star always k w' cs
    | [] => None
    end.
Proof.
  unfold any_set. cbn [bt]. rewrite rep_one_lazy_plus. unfold one.
  destruct w as [|a w]; [reflexivity|].
  rewrite any_set_test. apply lazy_star_test, any_set_test.
Qed.

End Matcher.

(** ** Characters and plain text *)

Ltac each_ascii a := destruct a as [[] [] [] [] [] [] [] []].

Lemma isspace_lower a : isspace (lower a) = isspace a.
Proof. each_ascii a; reflexivity. Qed.

Lemma literal_eq_space fl c a :
  literal_eq fl c a = true -> isspace a = isspace c.
Proof.
  unfold literal_eq. destruct (IGNORECASE fl); intros H.
  - apply Ascii.eqb_eq in H.
    rewrite <- (isspace_lower a), <- (isspace_lower c), H. reflexivity.
  - apply Ascii.eqb_eq in H. subst. reflexivity.
Qed.

Lemma literal_eq_backtick fl a :
  literal_eq fl "`"%char a = Ascii.eqb "`"%char a.
Proof. destruct fl as [[] d]; each_ascii a; reflexivity. Qed.

Lemma literal_eq_hash fl a :
  literal_eq fl "#"%char a = Ascii.eqb "#"%char a.
Proof. destruct fl as [[] d]; each_ascii a; reflexivity. Qed.

Lemma starts_backticks fl w : starts fl "```" w = startswith "```" w.
Proof.
  destruct w as [|a [|b [|c w]]]; cbn;
    rewrite ?literal_eq_backtick; reflexivity.
Qed.

Lemma starts_hashes fl w : starts fl "##" w = startswith "##" w.
Proof.
  destruct w as [|a [|b w]]; cbn; rewrite ?literal_eq_hash; reflexivity.
Qed.



Lemma same_text_length fl l t :
  same_text fl l t = true -> length t = length l.
Proof.
  unfold same_text. intros H. apply andb_true_iff in H as [H _].
  apply Nat.eqb_eq. exact H.
Qed.

Lemma starts_app fl l w x :
  starts fl l w = true -> starts fl l (w ++ x) = true.
Proof.
  revert w. induction l as [|c l IH]; intros [|a w] H; try discriminate;
    try reflexivity.
  cbn [starts app] in *. apply andb_true_iff in H as [H1 H2].
  rewrite H1, (IH _ H2). reflexivity.
Qed.

Lemma same_text_starts fl l t x :
  same_text fl l t = true -> starts fl l (t ++ x) = true.
Proof.
  intros H. apply starts_app. unfold same_text in H.
  apply andb_true_iff in H as [_ H]. exact H.
Qed.

Lemma same_text_skipn fl l t x :
  same_text fl l t = true -> skipn (length l) (t ++ x) = x.
Proof.
  intros H. rewrite <- (same_text_length _ _ _ H).
  rewrite skipn_app, skipn_all, Nat.sub_diag. reflexivity.
Qed.

Lemma starts_split fl l w :
  starts fl l w = true ->
  exists t, w = t ++ skipn (length l) w /\ same_text fl l t = true.
Proof.
  revert w. induction l as [|c l IH]; intros w H.
  - exists []. split; reflexivity.
  - destruct w as [|a w]; [discriminate|]. cbn [starts] in H.
    apply andb_true_iff in H as [H1 H2].
    destruct (IH _ H2) as (t & Hw & Ht). exists (a :: t). split.
    + cbn [length skipn app]. f_equal. exact Hw.
    + unfold same_text in *. cbn [length starts].
      apply andb_true_iff in Ht as [Hl Hs]. rewrite H1, Hs.
      cbn. rewrite Hl. reflexivity.
Qed.

Lemma starts_first_nonspace fl l w :
  starts_nonspace l = true -> starts fl l w = true ->
  starts_nonspace w = true.
Proof.
  destruct l as [|c l]; [discriminate|].
  destruct w as [|a w]; [discriminate|]. cbn. intros Hc H.
  apply andb_true_iff in H as [H _].
  rewrite (literal_eq_space _ _ _ H). exact Hc.
Qed.

Lemma starts_space_fails fl l a w :
  starts_nonspace l = true -> isspace a = true ->
  starts fl l (a :: w) = false.
Proof.
  intros Hl Ha. destruct (starts fl l (a :: w)) eqn:E; [|reflexivity].
  pose proof (starts_first_nonspace _ _ _ Hl E) as H. cbn in H.
  rewrite Ha in H. discriminate.
Qed.

(** *** Leading whitespace *)

Lemma lstrip_app ws w :
  forallb isspace ws = true -> lstrip (ws ++ w) = lstrip w.
Proof.
  induction ws as [|a ws IH]; intros H; [reflexivity|].
  cbn in *. apply andb_true_iff in H as [Ha H]. rewrite Ha. auto.
Qed.

Lemma lstrip_nonspace w : starts_nonspace w = true -> lstrip w = w.
Proof.
  destruct w as [|a w]; [discriminate|]. cbn.
  intros H. apply negb_true_iff in H. rewrite H. reflexivity.
Qed.

Lemma lstrip_split w :
  exists ws, w = ws ++ lstrip w /\ forallb isspace ws = true.
Proof.
  induction w as [|a w (ws & Hw & Hs)].
  - exists []. split; reflexivity.
  - cbn [lstrip]. destruct (isspace a) eqn:E.
    + exists (a :: ws). split; [cbn; f_equal; exact Hw|].
      cbn. rewrite E. exact Hs.
    + exists []. split; reflexivity.
Qed.

Lemma lstrip_idem w : lstrip (lstrip w) = lstrip w.
Proof.
  induction w as [|a w IH]; [reflexivity|].
  cbn [lstrip]. destruct (isspace a) eqn:E; [exact IH|].
  cbn [lstrip]. rewrite E. reflexivity.
Qed.

(** *** First occurrences *)

Lemma first_at_none P w :
  first_at P w = None -> forall p, P (skipn p w) = false.
Proof.
  induction w as [|a w IH]; cbn [first_at]; intros H p.
  - destruct (P []) eqn:E; [discriminate|]. destruct p; exact E.
  - destruct (P (a :: w)) eqn:E; [discriminate|].
    destruct p as [|p]; [exact E|]. cbn [skipn]. apply IH.
    destruct (first_at P w); [discriminate|reflexivity].
Qed.

Lemma first_at_some P w n :
  first_at P w = Some n ->
  P (skipn n w) = true /\ n <= length w
  /\ forall p, p < n -> P (skipn p w) = false.
Proof.
  revert n. induction w as [|a w IH]; cbn [first_at]; intros n H.
  - destruct (P []) eqn:E; [|discriminate]. inversion H; subst.
    repeat split; [exact E|lia|lia].
  - destruct (P (a :: w)) eqn:E.
    + inversion H; subst. repeat split; [exact E|cbn; lia|lia].
    + destruct (first_at P w) as [m|] eqn:F; [|discriminate].
      inversion H; subst. destruct (IH _ eq_refl) as (H1 & H2 & H3).
      repeat split; [exact H1|cbn; lia|].
      intros [|p] Hp; [exact E|]. cbn [skipn]. apply H3. lia.
Qed.

Lemma first_at_found P w p :
  P (skipn p w) = true -> first_at P w <> None.
Proof.
  intros H E. rewrite (first_at_none _ _ E) in H. discriminate.
Qed.

Lemma first_at_here P pre w :
  P w = true ->
  (forall p, p < length pre -> P (skipn p (pre ++ w)) = false) ->
  first_at P (pre ++ w) = Some (length pre).
Proof.
  induction pre as [|a pre IH]; intros Hw H.
  - destruct w; cbn [app first_at]; rewrite Hw; reflexivity.
  - assert (H0 := H 0 ltac:(cbn; lia)). cbn [skipn app] in H0.
    cbn [app first_at length]. rewrite H0.
    rewrite IH; [reflexivity|exact Hw|].
    intros p Hp. apply (H (S p)). cbn. lia.
Qed.

(** *** The search *)

Lemma search_none fl r w :
  (forall p, bt fl r accept (skipn p w) [] = None) -> search fl r w = None.
Proof.
  induction w as [|a w IH]; intros H; cbn [search];
    assert (H0 := H 0); cbn [skipn] in H0; rewrite H0.
  - reflexivity.
  - apply IH. intros p. apply (H (S p)).
Qed.

Lemma search_here fl r w w' cs :
  bt fl r accept w [] = Some (w', cs) ->
  search fl r w = Some (Match w w' cs).
Proof. intros H. destruct w; cbn [search]; rewrite H; reflexivity. Qed.

Lemma search_skip fl r pre w :
  (forall p, p < length pre -> bt fl r accept (skipn p (pre ++ w)) [] = None) ->
  search fl r (pre ++ w) = search fl r w.
Proof.
  induction pre as [|a pre IH]; intros H; [reflexivity|].
  assert (H0 := H 0 ltac:(cbn; lia)). cbn [skipn app] in H0.
  cbn [app search]. rewrite H0.
  apply IH. intros p Hp. apply (H (S p)). cbn. lia.
Qed.

Lemma search_some fl r w m :
  search fl r w = Some m ->
  exists p, m_start m = skipn p w /\ p <= length w
            /\ bt fl r accept (skipn p w) [] = Some (m_end m, m_groups m).
Proof.
  induction w as [|a w IH]; cbn [search]; intros H.
  - destruct (bt fl r accept [] []) as [[w' cs]|] eqn:E; [|discriminate].
    inversion H; subst. exists 0. cbn. auto.
  - destruct (bt fl r accept (a :: w) []) as [[w' cs]|] eqn:E.
    + inversion H; subst. exists 0. cbn. split; [reflexivity|].
      split; [lia|exact E].
    + destruct (IH H) as (p & H1 & H2 & H3). exists (S p). cbn.
      split; [exact H1|]. split; [lia|exact H3].
Qed.

(** *** The repeats, from their first or longest run *)

Lemma lazy_star_skip k u w cs :
  (forall p, p < length u -> k (skipn p (u ++ w)) cs = None) ->
  lazy_star always k (u ++ w) cs = lazy_star always k w cs.
Proof.
  induction u as [|a u IH]; intros H; [reflexivity|].
  assert (H0 := H 0 ltac:(cbn; lia)). cbn [skipn app] in H0.
  cbn [app lazy_star]. rewrite H0. cbn [always].
  apply IH. intros p Hp. apply (H (S p)). cbn. lia.
Qed.

Lemma lazy_star_here t k w cs res :
  k w cs = Some res -> lazy_star t k w cs = Some res.
Proof. intros H. destruct w; cbn [lazy_star]; rewrite H; reflexivity. Qed.

(** A continuation that refuses leading whitespace leaves [\s*] no
    choice: it takes all the whitespace there is. *)
Lemma greedy_star_guarded k w cs :
  (forall a w', isspace a = true -> k (a :: w') cs = None) ->
  greedy_star isspace k w cs = k (lstrip w) cs.
Proof.
  intros Hk. induction w as [|a w IH]; [reflexivity|].
  cbn [greedy_star lstrip]. destruct (isspace a) eqn:E; [|reflexivity].
  rewrite IH. destruct (k (lstrip w) cs) eqn:F; [reflexivity|].
  apply Hk. exact E.
Qed.

(** The longest run of whitespace is tried first. *)
Lemma greedy_star_longest k ws w cs res :
  forallb isspace ws = true -> lstrip w = w -> k w cs = Some res ->
  greedy_star isspace k (ws ++ w) cs = Some res.
Proof.
  intros Hws Hw Hk. induction ws as [|a ws IH].
  - cbn [app]. destruct w as [|b w]; [exact Hk|].
    cbn [greedy_star]. cbn [lstrip] in Hw.
    destruct (isspace b) eqn:E; [|exact Hk].
    exfalso. pose proof (lstrip_split w) as (u & Hu & _).
    rewrite Hw in Hu. apply (f_equal (@length ascii)) in Hu.
    rewrite length_app in Hu. cbn in Hu. lia.
  - cbn in Hws. apply andb_true_iff in Hws as [Ha Hws].
    cbn [app greedy_star]. rewrite Ha, (IH Hws). reflexivity.
Qed.

(** ** Reading a run off the pattern *)

Lemma forallb_same (f g : ascii -> bool) (l : str) :
  (forall a, f a = g a) -> forallb f l = forallb g l.
Proof.
  intros H. induction l as [|a l IH]; [reflexivity|].
  cbn. rewrite H, IH. reflexivity.
Qed.

Lemma skipn_app_exact (u x : str) : skipn (length u) (u ++ x) = x.
Proof. rewrite skipn_app, skipn_all, Nat.sub_diag. reflexivity. Qed.

Lemma spaces_then_intro P u w :
  forallb isspace u = true -> P w = true -> spaces_then P (u ++ w) = true.
Proof.
  intros Hu Hw. induction u as [|a u IH].
  - destruct w; cbn [app spaces_then]; rewrite Hw; reflexivity.
  - cbn in Hu. apply andb_true_iff in Hu as [Ha Hu].
    cbn [app spaces_then]. rewrite Ha, (IH Hu). apply orb_true_r.
Qed.

Section ReachFacts.

Variable fl : flags.

Lemma Reach_empty w cs w' cs' :
  Reach fl Empty w cs w' cs' -> w' = w /\ cs' = cs.
Proof. intros H. inversion H; subst; auto. Qed.

Lemma Reach_seq r1 r2 w cs w' cs' :
  Reach fl (Seq r1 r2) w cs w' cs' ->
  exists w1 cs1, Reach fl r1 w cs w1 cs1 /\ Reach fl r2 w1 cs1 w' cs'.
Proof. intros H. inversion H; subst. eauto. Qed.

Lemma Reach_seq_nil w cs w' cs' :
  Reach fl (seq_of []) w cs w' cs' -> w' = w /\ cs' = cs.
Proof. apply Reach_empty. Qed.

Lemma Reach_seq_cons x l w cs w' cs' :
  Reach fl (seq_of (x :: l)) w cs w' cs' ->
  exists w1 cs1, Reach fl x w cs w1 cs1 /\ Reach fl (seq_of l) w1 cs1 w' cs'.
Proof. cbn. intros H. inversion H; subst. eauto. Qed.

Lemma Reach_seq_of_app a b w cs w' cs' :
  Reach fl (seq_of (a ++ b)) w cs w' cs' ->
  exists w1 cs1,
    Reach fl (seq_of a) w cs w1 cs1 /\ Reach fl (seq_of b) w1 cs1 w' cs'.
Proof.
  revert w cs. induction a as [|x a IH]; intros w cs H.
  - exists w, cs. split; [constructor|exact H].
  - cbn [app] in H. apply Reach_seq_cons in H as (w1 & cs1 & Hx & H).
    apply IH in H as (w2 & cs2 & Ha & Hb).
    exists w2, cs2. split; [|exact Hb].
    cbn. econstructor; eauto.
Qed.

Lemma Reach_literal c w cs w' cs' :
  Reach fl (Literal c) w cs w' cs' ->
  exists a, w = a :: w' /\ cs' = cs /\ literal_eq fl c a = true.
Proof. intros H. inversion H; subst. eauto. Qed.

Lemma Reach_literals l w cs w' cs' :
  Reach fl (seq_of (literals l)) w cs w' cs' ->
  starts fl l w = true /\ w' = skipn (length l) w /\ cs' = cs.
Proof.
  revert w cs. induction l as [|c l IH]; intros w cs H.
  - apply Reach_seq_nil in H as [-> ->]. auto.
  - cbn [literals map] in H.
    apply Reach_seq_cons in H as (w1 & cs1 & Hc & H).
    apply Reach_literal in Hc as (a & -> & -> & Ha).
    apply IH in H as (Hs & -> & ->).
    cbn [starts length skipn]. rewrite Ha, Hs. auto.
Qed.

Lemma one_char_in items :
  one_char fl (In items)
           (fun a => existsb (fun it => item_has fl it a) items).
Proof. intros w cs w1 cs1 H. inversion H; subst. eauto. Qed.

Lemma one_char_any : one_char fl AnyChar (any_has fl).
Proof. intros w cs w1 cs1 H. inversion H; subst. eauto. Qed.

Lemma Reach_repeat_one r test :
  one_char fl r test ->
  forall w g lo hi cs w' cs',
    Reach fl (Repeat g lo hi r) w cs w' cs' ->
    exists u, w = u ++ w' /\ cs' = cs /\ forallb test u = true
              /\ lo <= length u.
Proof.
  intros Hr. induction w as [|a w IH]; intros g lo hi cs w' cs' H;
    inversion H; subst.
  - exists []. cbn. auto.
  - match goal with
    | HR : Reach fl r [] _ _ _ |- _ =>
        apply Hr in HR as (b & Hb & _); discriminate
    end.
  - exists []. cbn. auto.
  - match goal with
    | HR : Reach fl r (a :: w) _ _ _ |- _ =>
        apply Hr in HR as (b & Hb & -> & Ht)
    end.
    inversion Hb; subst.
    match goal with
    | HR : Reach fl (Repeat _ _ _ r) _ _ _ _ |- _ =>
        apply IH in HR as (u & Hu & -> & Hall & Hlo)
    end.
    exists (b :: u). cbn. rewrite Ht, Hall. subst.
    repeat split; lia.
Qed.

Lemma Reach_ws_star w cs w' cs' :
  Reach fl ws_star w cs w' cs' ->
  exists u, w = u ++ w' /\ cs' = cs /\ forallb isspace u = true.
Proof.
  intros H. apply (Reach_repeat_one (@one_char_in _)) in H
    as (u & Hw & Hcs & Hall & _).
  exists u. repeat split; try assumption.
  rewrite <- Hall. apply forallb_same. intros a. symmetry. apply space_test.
Qed.

Lemma Reach_group n r w cs w' cs' :
  Reach fl (Subpattern (Some n) r) w cs w' cs' ->
  exists cs1, Reach fl r w cs w' cs1 /\ cs' = (n, (w, w')) :: cs1.
Proof. intros H. inversion H; subst. eauto. Qed.

(** The tail of a fence: a closing fence lies at least one character
    ahead, and group 1 is set. *)
Lemma fence_tail_reach w cs w' cs' :
  Reach fl (seq_of fence_tail) w cs w' cs' ->
  (exists n, 1 <= n /\ startswith "```" (skipn n w) = true)
  /\ exists sp, cs' = (1, sp) :: cs.
Proof.
  unfold fence_tail. intros H.
  apply Reach_seq_of_app in H as (w3 & cs3 & H & Hclose).
  apply Reach_seq_cons in H as (w1 & cs1 & H1 & H).
  apply Reach_seq_cons in H as (w2 & cs2 & H2 & H).
  apply Reach_seq_cons in H as (w3' & cs3' & H3 & H).
  apply Reach_seq_nil in H as [-> ->].
  apply Reach_ws_star in H1 as (u1 & -> & -> & _).
  apply Reach_group in H2 as (cs2' & H2 & ->).
  apply Reach_seq in H2 as (w2' & cs2'' & H2 & H).
  apply Reach_empty in H as [-> ->].
  apply (Reach_repeat_one (@one_char_in _)) in H2 as (u2 & -> & -> & _ & Hlen).
  apply Reach_ws_star in H3 as (u3 & -> & -> & _).
  apply Reach_literals in Hclose as (Hs & _ & ->).
  rewrite starts_backticks in Hs.
  split; [|eauto].
  exists (length (u1 ++ u2 ++ u3)). split.
  - rewrite !length_app. lia.
  - replace (u1 ++ u2 ++ u3 ++ w3') with ((u1 ++ u2 ++ u3) ++ w3')
      by (rewrite <- !app_assoc; reflexivity).
    rewrite skipn_app_exact. exact Hs.
Qed.

End ReachFacts.

Lemma lookup_group_head n sp cs : lookup_group n ((n, sp) :: cs) = Some sp.
Proof. cbn. rewrite Nat.eqb_refl. reflexivity. Qed.

(** A run of the quiz pattern starts at a header for the label, goes
    through a json fence that opens after the [##], and sets group 1. *)
Lemma quiz_reach key w cs w' cs' :
  Reach quiz_flags (quiz_regex key) w cs w' cs' ->
  header_here key w = true
  /\ (exists q, 2 <= q /\ fence_here (skipn q w) = true)
  /\ exists sp, lookup_group 1 cs' = Some sp.
Proof.
  unfold quiz_regex. intros H.
  apply Reach_seq_of_app in H as (w1 & cs1 & H1 & H).
  apply Reach_seq_of_app in H as (w2 & cs2 & H2 & H).
  apply Reach_seq_of_app in H as (w3 & cs3 & H3 & H).
  apply Reach_seq_of_app in H as (w4 & cs4 & H4 & H).
  apply Reach_seq_of_app in H as (w5 & cs5 & H5 & H).
  apply Reach_literals in H1 as (Hhash & -> & ->).
  apply Reach_seq in H2 as (w2' & cs2' & H2 & E).
  apply Reach_empty in E as [-> ->].
  apply Reach_ws_star in H2 as (u & Hu & -> & Hsp).
  apply Reach_literals in H3 as (Hkey & -> & ->).
  apply Reach_seq in H4 as (w4' & cs4' & H4 & E).
  apply Reach_empty in E as [-> ->].
  apply (Reach_repeat_one (@one_char_in _ _)) in H4 as (v & Hv & -> & _ & _).
  apply Reach_literals in H5 as (Htag & -> & ->).
  apply fence_tail_reach in H as ((n & Hn & Hclose) & sp & ->).
  change (length (chars "##")) with 2 in *.
  change (length (chars "```json")) with 7 in *.
  split; [|split].
  - unfold header_here. rewrite Hhash, Hu.
    apply spaces_then_intro; assumption.
  - exists (length v + (length key + (length u + 2))). split; [lia|].
    assert (E : skipn (length v + (length key + (length u + 2))) w = w4').
    { rewrite <- !skipn_skipn. rewrite Hu, skipn_app_exact.
      rewrite Hv, skipn_app_exact. reflexivity. }
    rewrite E. unfold fence_here. rewrite Htag. cbn [andb].
    assert (F : first_at (startswith "```") (skipn 8 w4') <> None).
    { apply (first_at_found _ _ (n - 1)).
      rewrite skipn_skipn.
      replace (n - 1 + 8) with (n + 7) by lia.
      rewrite <- skipn_skipn. exact Hclose. }
    destruct (first_at (startswith "```") (skipn 8 w4'));
      [reflexivity|contradiction].
  - exists sp. apply lookup_group_head.
Qed.

(** A run of the dot pattern sets group 1. *)
Lemma dot_reach w cs w' cs' :
  Reach NOFLAG dot_regex w cs w' cs' ->
  starts NOFLAG "```dot" w = true
  /\ exists sp, lookup_group 1 cs' = Some sp.
Proof.
  unfold dot_regex. intros H.
  apply Reach_seq_of_app in H as (w1 & cs1 & H1 & H).
  apply Reach_literals in H1 as (Htag & -> & ->).
  apply fence_tail_reach in H as (_ & sp & ->).
  split; [exact Htag|]. exists sp. apply lookup_group_head.
Qed.

Lemma Reach_optional fl g r w cs w' cs' :
  Reach fl (Repeat g 0 (Some 1) r) w cs w' cs' ->
  (w' = w /\ cs' = cs) \/ Reach fl r w cs w' cs'.
Proof.
  intros H. inversion H; subst; [left; auto|right].
  match goal with
  | HR : Reach fl (Repeat _ _ _ _) _ _ _ _ |- _ =>
      cbn in HR; inversion HR; subst
  end.
  - assumption.
  - match goal with
    | HB : _ <> _ \/ _ <> _ |- _ => destruct HB as [HB|HB]; contradiction
    end.
Qed.

Lemma Reach_assert fl r w cs w' cs' :
  Reach fl (Assert r) w cs w' cs' ->
  w' = w /\ exists w1, Reach fl r w cs w1 cs'.
Proof. intros H. inversion H; subst. eauto. Qed.

Lemma offset_trans (w x y : str) n m :
  skipn n w = x -> skipn m x = y -> skipn (m + n) w = y.
Proof. intros <- <-. symmetry. apply skipn_skipn. Qed.

Lemma offset_app (x u y : str) : x = u ++ y -> skipn (length u) x = y.
Proof. intros ->. apply skipn_app_exact. Qed.

Lemma literal_eq_nl fl a : literal_eq fl nl a = Ascii.eqb nl a.
Proof. destruct fl as [[] d]; each_ascii a; reflexivity. Qed.


(** A run of the summary pattern starts at a Summary header, goes
    through a line break, ends in front of a [##] that lies after that
    line break, and sets group 2. *)
Lemma summary_reach w cs w' cs' :
  Reach summary_flags summary_regex w cs w' cs' ->
  summary_header_here w = true
  /\ (exists n rest q, skipn n w = nl :: rest /\ n < q
                       /\ startswith "##" (skipn q w) = true)
  /\ exists sp, lookup_group 2 cs' = Some sp.
Proof.
  unfold summary_regex. intros H.
  apply Reach_seq_of_app in H as (w1 & cs1 & H1 & H).
  apply Reach_seq_of_app in H as (w3 & cs3 & H2 & H).
  apply Reach_seq_of_app in H as (w4 & cs4 & H3 & H).
  apply Reach_literals in H1 as (Hhash & -> & ->).
  apply Reach_seq_cons in H2 as (w2 & cs2 & Hws & H2).
  apply Reach_seq_cons in H2 as (w3' & cs3' & Hopt & E).
  apply Reach_seq_nil in E as [-> ->].
  apply Reach_ws_star in Hws as (u & Hu & -> & Hsp).
  apply Reach_literals in H3 as (Hsum & -> & ->).
  apply Reach_seq_cons in H as (w5 & cs5 & Hws2 & H).
  apply Reach_seq_cons in H as (w6 & cs6 & Hany & H).
  apply Reach_seq_cons in H as (w7 & cs7 & Hnl & H).
  apply Reach_seq_cons in H as (w8 & cs8 & Hgrp & H).
  apply Reach_seq_cons in H as (w9 & cs9 & Hlook & E).
  apply Reach_seq_nil in E as [-> ->].
  apply Reach_ws_star in Hws2 as (u4 & Hu4 & -> & _).
  apply (Reach_repeat_one (@one_char_any _)) in Hany as (v & -> & -> & _).
  apply Reach_literal in Hnl as (a & -> & -> & Ha).
  rewrite literal_eq_nl in Ha. apply Ascii.eqb_eq in Ha. subst a.
  apply Reach_group in Hgrp as (cs8' & Hgrp & ->).
  apply Reach_seq in Hgrp as (w8' & cs8'' & Hgrp & E).
  apply Reach_empty in E as [-> ->].
  apply (Reach_repeat_one (@one_char_any _)) in Hgrp as (u7 & -> & -> & _).
  apply Reach_assert in Hlook as (-> & wl & Hlook).
  apply Reach_literals in Hlook as (Hend & _ & ->).
  rewrite starts_hashes in Hend.
  change (length (chars "##")) with 2 in *.
  change (length (chars "Summary")) with 7 in *.
  assert (Htitle : summary_title w2 = true
                   /\ exists n, skipn n w2 = w3').
  { apply Reach_optional in Hopt as [[-> ->]|Hopt].
    - split; [|exists 0; reflexivity].
      unfold summary_title. rewrite Hsum. reflexivity.
    - apply Reach_group in Hopt as (cs' & Hopt & _).
      apply Reach_seq_of_app in Hopt as (wa & csa & Hd & Hopt).
      apply Reach_literals in Hd as (Hd & -> & ->).
      apply Reach_seq_cons in Hopt as (wb & csb & Hopt & E).
      apply Reach_seq_nil in E as [-> ->].
      apply one_char_in in Hopt as (b & Hb & _ & Hspace).
      rewrite space_test in Hspace.
      change (length (chars "Detailed")) with 8 in *.
      split.
      + unfold summary_title. rewrite Hd, Hb, Hspace, Hsum.
        apply orb_true_r.
      + exists 9. change 9 with (1 + 8). rewrite <- skipn_skipn, Hb.
        reflexivity. }
  destruct Htitle as (Htitle & n & Hn).
  split; [|split].
  - unfold summary_header_here. rewrite Hhash, Hu.
    apply spaces_then_intro; assumption.
  - assert (O1 : skipn (length u + 2) w = w2)
      by (eapply offset_trans; [reflexivity|apply offset_app; exact Hu]).
    assert (O2 : skipn (n + (length u + 2)) w = w3')
      by (eapply offset_trans; [exact O1|exact Hn]).
    assert (O3 : skipn (7 + (n + (length u + 2))) w
                 = u4 ++ v ++ nl :: u7 ++ w8')
      by (eapply offset_trans; [exact O2|exact Hu4]).
    assert (O4 : skipn (length u4 + (7 + (n + (length u + 2)))) w
                 = v ++ nl :: u7 ++ w8')
      by (eapply offset_trans; [exact O3|apply skipn_app_exact]).
    assert (O5 : skipn (length v + (length u4
                        + (7 + (n + (length u + 2))))) w
                 = nl :: u7 ++ w8')
      by (eapply offset_trans; [exact O4|apply skipn_app_exact]).
    assert (O6 : skipn (1 + (length v + (length u4
                        + (7 + (n + (length u + 2)))))) w
                 = u7 ++ w8')
      by (eapply offset_trans; [exact O5|reflexivity]).
    assert (O7 : skipn (length u7 + (1 + (length v + (length u4
                        + (7 + (n + (length u + 2))))))) w
                 = w8')
      by (eapply offset_trans; [exact O6|apply skipn_app_exact]).
    do 3 eexists. split; [exact O5|]. split; [|rewrite O7; exact Hend]. lia.
  - eexists. apply lookup_group_head.
Qed.

(** ** Running the patterns on a fence *)

Lemma bt_seq_cons fl x l k :
  bt fl (seq_of (x :: l)) k = bt fl x (bt fl (seq_of l) k).
Proof. reflexivity. Qed.

Lemma bt_group_seq fl n r k w cs :
  bt fl (Subpattern (Some n) (Seq r Empty)) k w cs
  = bt fl r (fun w' cs' => k w' ((n, (w, w')) :: cs')) w cs.
Proof. reflexivity. Qed.

(** [\s*```] matches exactly where a closing fence starts. *)
Lemma bt_closing fl k w cs :
  bt fl ws_star (bt fl (seq_of (literals "```")) k) w cs
  = if closes_here w then k (skipn 3 (lstrip w)) cs else None.
Proof.
  rewrite bt_ws_star, greedy_star_guarded.
  - rewrite bt_literals, starts_backticks. reflexivity.
  - intros a w' Ha. rewrite bt_literals.
    rewrite starts_space_fails; [reflexivity|reflexivity|exact Ha].
Qed.

Lemma no_early_close_at content tail p :
  no_early_close content tail = true ->
  1 <= p < length content ->
  closes_here (skipn p (content ++ tail)) = false.
Proof.
  unfold no_early_close. intros H Hp.
  rewrite forallb_forall in H.
  apply negb_true_iff, H, in_seq. lia.
Qed.

Lemma closes_here_tail ws2 rest :
  forallb isspace ws2 = true ->
  closes_here (ws2 ++ chars "```" ++ rest) = true
  /\ skipn 3 (lstrip (ws2 ++ chars "```" ++ rest)) = rest.
Proof.
  intros H. unfold closes_here. rewrite (lstrip_app _ _ H). split; reflexivity.
Qed.

(** On a fence whose closing [```] is the first one past the first
    character of [content], the tail of the fence pattern captures
    [content] in group 1. *)
Lemma fence_tail_match fl ws1 content ws2 rest cs :
  forallb isspace ws1 = true ->
  starts_nonspace content = true ->
  forallb isspace ws2 = true ->
  no_early_close content (ws2 ++ chars "```" ++ rest) = true ->
  bt fl (seq_of fence_tail) accept
     (ws1 ++ content ++ ws2 ++ chars "```" ++ rest) cs
  = Some (rest, (1, (content ++ ws2 ++ chars "```" ++ rest,
                     ws2 ++ chars "```" ++ rest)) :: cs).
Proof.
  intros Hws1 Hc Hws2 Hclose.
  unfold fence_tail. rewrite bt_seq_of_app.
  rewrite !bt_seq_cons. change (bt fl (seq_of []) ?k) with k.
  rewrite bt_ws_star. apply greedy_star_longest.
  - exact Hws1.
  - apply lstrip_nonspace. destruct content; [discriminate|exact Hc].
  - rewrite bt_group_seq, bt_lazy_plus_any.
    destruct content as [|c0 content]; [discriminate|]. cbn [app].
    rewrite lazy_star_skip.
    + apply lazy_star_here. rewrite bt_closing.
      destruct (closes_here_tail ws2 rest Hws2) as [-> ->]. reflexivity.
    + intros p Hp. rewrite bt_closing.
      replace (closes_here _) with false; [reflexivity|].
      symmetry.
      apply (no_early_close_at (c0 :: content) _ (p := S p) Hclose).
      cbn [length]. lia.
Qed.

Lemma span_text_app (content tail : str) :
  span_text (content ++ tail, tail) = content.
Proof.
  unfold span_text. cbn [fst snd]. rewrite length_app.
  replace (length content + length tail - length tail)
    with (length content) by lia.
  rewrite firstn_app, firstn_all, Nat.sub_diag. cbn. apply app_nil_r.
Qed.


Lemma starts_noflag l w : starts NOFLAG l w = startswith l w.
Proof.
  revert w. induction l as [|c l IH]; intros [|a w]; try reflexivity.
  cbn [starts startswith]. rewrite IH. unfold literal_eq. cbn.
  rewrite Ascii.eqb_sym. reflexivity.
Qed.

(** The dot pattern, run at a fence. *)
Lemma dot_match_here ws1 content ws2 rest :
  forallb isspace ws1 = true ->
  starts_nonspace content = true ->
  forallb isspace ws2 = true ->
  no_early_close content (ws2 ++ chars "```" ++ rest) = true ->
  bt NOFLAG dot_regex accept
     (chars "```dot" ++ ws1 ++ content ++ ws2 ++ chars "```" ++ rest) []
  = Some (rest, [(1, (content ++ ws2 ++ chars "```" ++ rest,
                      ws2 ++ chars "```" ++ rest))]).
Proof.
  intros Hws1 Hc Hws2 Hclose. unfold dot_regex.
  rewrite bt_seq_of_app, bt_literals.
  rewrite (same_text_starts NOFLAG "```dot" "```dot" _ eq_refl).
  rewrite (same_text_skipn NOFLAG "```dot" "```dot" _ eq_refl).
  apply fence_tail_match; assumption.
Qed.

(** ** What the searches of the extractors return *)

Lemma re_search_quiz key doc l :
  plain_label key = true ->
  re_search (quiz_pattern key) quiz_flags doc l
  = (Return (search quiz_flags (quiz_regex key) doc), l).
Proof.
  intros H. unfold re_search. rewrite (quiz_pattern_compiles _ H).
  reflexivity.
Qed.

Lemma re_search_dot doc l :
  re_search dot_pattern NOFLAG doc l
  = (Return (search NOFLAG dot_regex doc), l).
Proof.
  unfold re_search. rewrite dot_pattern_compiles. reflexivity.
Qed.

Lemma re_search_summary doc l :
  re_search summary_pattern summary_flags doc l
  = (Return (search summary_flags summary_regex doc), l).
Proof.
  unfold re_search. rewrite summary_pattern_compiles. reflexivity.
Qed.

Lemma quiz_bt_some key w w' cs :
  bt quiz_flags (quiz_regex key) accept w [] = Some (w', cs) ->
  header_here key w = true
  /\ (exists q, 2 <= q /\ fence_here (skipn q w) = true)
  /\ exists sp, lookup_group 1 cs = Some sp.
Proof.
  intros H. apply bt_sound in H as (w1 & cs1 & HR & Hk).
  inversion Hk; subst. eapply quiz_reach; eassumption.
Qed.

Lemma dot_bt_some w w' cs :
  bt NOFLAG dot_regex accept w [] = Some (w', cs) ->
  startswith "```dot" w = true /\ exists sp, lookup_group 1 cs = Some sp.
Proof.
  intros H. apply bt_sound in H as (w1 & cs1 & HR & Hk).
  inversion Hk; subst. rewrite <- starts_noflag. eapply dot_reach; eassumption.
Qed.

Lemma summary_bt_some w w' cs :
  bt summary_flags summary_regex accept w [] = Some (w', cs) ->
  summary_header_here w = true
  /\ (exists n rest q, skipn n w = nl :: rest /\ n < q
                       /\ startswith "##" (skipn q w) = true)
  /\ exists sp, lookup_group 2 cs = Some sp.
Proof.
  intros H. apply bt_sound in H as (w1 & cs1 & HR & Hk).
  inversion Hk; subst. eapply summary_reach; eassumption.
Qed.


Lemma dot_group_present doc m :
  search NOFLAG dot_regex doc = Some m -> exists g, group m 1 = Some g.
Proof.
  intros H. apply search_some in H as (p & _ & _ & H).
  apply dot_bt_some in H as (_ & sp & Hsp).
  exists (span_text sp). cbn [group]. rewrite Hsp. reflexivity.
Qed.

Lemma summary_group_present doc m :
  search summary_flags summary_regex doc = Some m ->
  exists g, group m 2 = Some g.
Proof.
  intros H. apply search_some in H as (p & _ & _ & H).
  apply summary_bt_some in H as (_ & _ & sp & Hsp).
  exists (span_text sp). cbn [group]. rewrite Hsp. reflexivity.
Qed.

(** No header for the label, or no json fence after the first one: the
    quiz pattern is found nowhere. *)
Lemma quiz_search_none key doc :
  first_at (header_here key) doc = None
  \/ (exists h, first_at (header_here key) doc = Some h
                /\ first_at fence_here (skipn (h + 2) doc) = None) ->
  search quiz_flags (quiz_regex key) doc = None.
Proof.
  intros H. apply search_none. intros p.
  destruct (bt quiz_flags (quiz_regex key) accept (skipn p doc) [])
    as [[w' cs]|] eqn:E; [exfalso|reflexivity].
  apply quiz_bt_some in E as (Hh & (q & Hq & Hf) & _).
  destruct H as [H|(h & H & Hnone)].
  - rewrite (first_at_none _ _ H) in Hh. discriminate.
  - apply first_at_some in H as (_ & _ & Hmin).
    assert (h <= p).
    { destruct (Nat.le_gt_cases h p) as [|Hlt]; [assumption|].
      rewrite (Hmin p Hlt) in Hh. discriminate. }
    rewrite skipn_skipn in Hf.
    replace (q + p) with ((q + p - (h + 2)) + (h + 2)) in Hf by lia.
    rewrite <- skipn_skipn in Hf.
    rewrite (first_at_none _ _ Hnone) in Hf. discriminate.
Qed.


(** The first dot fence: there the search matches, with the content of
    the fence in group 1. *)
Lemma dot_search_fence pre ws1 content ws2 rest :
  first_at (startswith "```dot")
           (pre ++ chars "```dot" ++ ws1 ++ content ++ ws2 ++ chars "```"
            ++ rest) = Some (length pre) ->
  forallb isspace ws1 = true ->
  starts_nonspace content = true ->
  forallb isspace ws2 = true ->
  no_early_close content (ws2 ++ chars "```" ++ rest) = true ->
  search NOFLAG dot_regex
         (pre ++ chars "```dot" ++ ws1 ++ content ++ ws2 ++ chars "```"
          ++ rest)
  = Some (Match (chars "```dot" ++ ws1 ++ content ++ ws2 ++ chars "```"
                 ++ rest)
                rest
                [(1, (content ++ ws2 ++ chars "```" ++ rest,
                      ws2 ++ chars "```" ++ rest))]).
Proof.
  intros Hfirst Hws1 Hc Hws2 Hclose.
  rewrite search_skip.
  - apply search_here. apply dot_match_here; assumption.
  - intros p Hp.
    destruct (bt NOFLAG dot_regex accept _ []) as [[w' cs]|] eqn:E;
      [exfalso|reflexivity].
    apply dot_bt_some in E as (Hh & _).
    apply first_at_some in Hfirst as (_ & _ & Hmin).
    rewrite (Hmin p Hp) in Hh. discriminate.
Qed.


(** ** The string methods *)

Lemma rstrip_keep l z : isspace z = false -> rstrip (l ++ [z]) = l ++ [z].
Proof.
  intros H. unfold rstrip. rewrite rev_app_distr. cbn [rev app lstrip].
  rewrite H. cbn [rev]. rewrite rev_involutive. reflexivity.
Qed.

Lemma fence_inside_parts ws1 content ws2 rest :
  fence_inside ws1 content ws2 rest = true ->
  forallb isspace ws1 = true /\ starts_nonspace content = true
  /\ forallb isspace ws2 = true
  /\ no_early_close content (ws2 ++ chars "```" ++ rest) = true.
Proof.
  unfold fence_inside. intros H.
  apply andb_true_iff in H as [H H4]. apply andb_true_iff in H as [H H3].
  apply andb_true_iff in H as [H1 H2]. auto.
Qed.

(** The content of a fence has no whitespace at its ends: [strip] leaves
    it as it is. *)
Lemma strip_content ws1 content ws2 rest :
  fence_inside ws1 content ws2 rest = true -> strip content = content.
Proof.
  intros H. apply fence_inside_parts in H as (_ & Hc & Hws2 & Hclose).
  unfold strip. rewrite (lstrip_nonspace _ Hc).
  destruct content as [|c0 content]; [discriminate|].
  destruct (exists_last (l := c0 :: content)) as (l & z & E);
    [discriminate|].
  rewrite E. apply rstrip_keep.
  destruct l as [|b l].
  - cbn in E. inversion E; subst. cbn in Hc.
    apply negb_true_iff. exact Hc.
  - destruct (isspace z) eqn:Hz; [exfalso|reflexivity].
    assert (Hp : 1 <= length (b :: l) < length (c0 :: content)).
    { rewrite E, length_app. cbn. lia. }
    pose proof (no_early_close_at _ _ Hclose Hp) as Hno.
    rewrite E, <- app_assoc, skipn_app_exact in Hno.
    unfold closes_here in Hno. cbn [app lstrip] in Hno.
    rewrite Hz, (lstrip_app _ _ Hws2) in Hno. discriminate.
Qed.

Lemma replace_go_spent old new s : replace_go old new (Some 0) 0 s = s.
Proof.
  induction s as [|a s IH]; [reflexivity|]. cbn. rewrite IH. reflexivity.
Qed.

(** [s.replace(c, new, 1)] rewrites the first [c] of [s], and only it. *)
Lemma replace_first c new a b :
  existsb (Ascii.eqb c) a = false ->
  replace [c] new (Some 1) (a ++ c :: b) = a ++ new ++ b.
Proof.
  unfold replace. induction a as [|x a IH]; intros H.
  - cbn. rewrite Ascii.eqb_refl. cbn. rewrite replace_go_spent. reflexivity.
  - cbn in H. apply orb_false_elim in H as [Hx H].
    cbn. rewrite Hx. cbn. f_equal. apply IH. exact H.
Qed.

Lemma replace_absent c new s :
  existsb (Ascii.eqb c) s = false -> replace [c] new (Some 1) s = s.
Proof.
  unfold replace. induction s as [|x s IH]; intros H; [reflexivity|].
  cbn in H. apply orb_false_elim in H as [Hx H].
  cbn. rewrite Hx. cbn. f_equal. apply IH. exact H.
Qed.





(** ** The claims *)

Section Claims.

(** [json.loads] and the call of the generative model, as the extractors
    use them. *)
Variable json_loads : str -> json + exn.
Variable generate_content : str -> option str + exn.

Lemma parse_quiz_unfold doc key log :
  plain_label key = true ->
  Backend.parse_quiz_from_json json_loads doc key log
  = match search quiz_flags (quiz_regex key) doc with
    | None => (Return (JList []), log)
    | Some m =>
        match group m 1 with
        | None => (Raise TypeError, log)
        | Some g =>
            match json_loads g with
            | inl v => (Return v, log)
            | inr JSONDecodeError =>
                (Return (JList []),
                 log ++ [(WARNING,
                          chars "Failed to parse JSON for key: '" ++ key
                          ++ chars "'")])
            | inr e => (Raise e, log)
            end
        end
    end.
Proof.
  intros H. unfold Backend.parse_quiz_from_json, bind.
  fold quiz_flags. rewrite re_search_quiz by exact H.
  destruct (search quiz_flags (quiz_regex key) doc) as [m|]; [|reflexivity].
  destruct (group m 1) as [g|]; [|reflexivity].
  destruct (json_loads g) as [v|[]]; reflexivity.
Qed.





(** C4 (as amended).  For a label that is plain text, a document without
    a header for the label, or whose first such header has no json fence
    after it, gives the empty list, and nothing is raised or logged. *)
Theorem no_header_or_no_fence_gives_empty doc key log :
  plain_label key = true ->
  first_at (header_here key) doc = None
  \/ (exists h, first_at (header_here key) doc = Some h
                /\ first_at fence_here (skipn (h + 2) doc) = None) ->
  Backend.parse_quiz_from_json json_loads doc key log
  = (Return (JList []), log).
Proof.
  intros Hplain H. rewrite parse_quiz_unfold by exact Hplain.
  rewrite (quiz_search_none _ _ H). reflexivity.
Qed.



(** C7 (as amended).  On a document whose first dot fence holds, between
    whitespace, a [content] that is not blank and is closed by the first
    [```] after its first character, [parse_graphviz] takes the trimmed
    content, wraps it as [digraph G { ... }] unless it begins with
    [digraph], and writes a space and the styling once, right after the
    first [{] of that text; a text without [{] is returned as it is,
    without the styling. *)
Theorem graphviz_styles_first_brace pre ws1 content ws2 rest log :
  first_at (startswith "```dot")
           (pre ++ chars "```dot" ++ ws1 ++ content ++ ws2 ++ chars "```"
            ++ rest) = Some (length pre) ->
  fence_inside ws1 content ws2 rest = true ->
  exists out,
    Backend.parse_graphviz
      (pre ++ chars "```dot" ++ ws1 ++ content ++ ws2 ++ chars "```" ++ rest)
      log
    = (Return (Some out), log)
    /\ strip (ws1 ++ content ++ ws2) = content
    /\ let body := if startswith "digraph" content then content
                   else chars "digraph G { " ++ content ++ chars " }" in
       (forall a b,
          body = a ++ chars "{" ++ b ->
          existsb (Ascii.eqb "{"%char) a = false ->
          out = a ++ chars "{ " ++ styling ++ b)
       /\ (existsb (Ascii.eqb "{"%char) body = false -> out = body).
Proof.
  intros Hfirst Hin.
  pose proof (strip_content _ _ _ _ Hin) as Hstrip.
  pose proof (fence_inside_parts _ _ _ _ Hin) as (Hws1 & Hc & Hws2 & Hclose).
  unfold Backend.parse_graphviz, bind. rewrite re_search_dot.
  rewrite dot_search_fence by assumption.
  cbn [group m_groups lookup_group Nat.eqb option_map].
  rewrite span_text_app, !Hstrip.
  eexists. split; [reflexivity|]. split.
  - unfold strip. rewrite (lstrip_app _ _ Hws1).
    rewrite (lstrip_nonspace (content ++ ws2))
      by (destruct content; [discriminate|exact Hc]).
    unfold rstrip. rewrite rev_app_distr, (lstrip_app _ (rev content)).
    + fold (rstrip content). unfold strip in Hstrip.
      rewrite (lstrip_nonspace _ Hc) in Hstrip. exact Hstrip.
    + rewrite forallb_forall in *. intros x Hx. apply Hws2.
      apply in_rev. exact Hx.
  - cbv zeta. destruct (startswith "digraph" content); cbn [negb]; split.
    + intros a b -> Ha. change (chars "{" ++ b) with ("{"%char :: b).
      change (chars "{") with ["{"%char].
      rewrite (replace_first "{"%char _ a b Ha), <- app_assoc. reflexivity.
    + intros Hb. apply replace_absent. exact Hb.
    + intros a b E Ha. rewrite E. change (chars "{" ++ b) with ("{"%char :: b).
      change (chars "{") with ["{"%char].
      rewrite (replace_first "{"%char _ a b Ha), <- app_assoc. reflexivity.
    + intros Hb. apply replace_absent. exact Hb.
Qed.

(** C8.  On the document of the claim, the summary pattern matches with an
    empty group 2: [\s*] takes the end of the header line and [.*?\n]
    then takes the first line of the summary, so the span captured is
    empty and both versions of [get_topic_from_summary] return [None]. *)
Theorem summary_first_line_lost :
  (exists m,
     re_search summary_pattern summary_flags summary_then_quiz []
     = (Return (Some m), [])
     /\ group m 2 = Some [])
  /\ Frontend.get_topic_from_summary summary_then_quiz [] = (Return None, [])
  /\ Backend.get_topic_from_summary generate_content summary_then_quiz []
     = (Return None,
        [(INFO, chars "Distilling topic from summary.");
         (WARNING,
          chars "Could not find a summary in the notes to generate a topic from.")]).
Proof.
  split; [|split].
  - eexists. split; vm_compute; reflexivity.
  - vm_compute. reflexivity.
  - vm_compute. reflexivity.
Qed.


End Claims.

(** ** Counterexamples and instances *)








(** C4, as stated, fails: with the label "(" the pattern does not compile,
    and on a document without a header for that label the call raises
    [re.error] where the claim has it return the empty list. *)
Lemma unbalanced_label_without_header :
  first_at (header_here "(") summary_then_quiz = None
  /\ Backend.parse_quiz_from_json sample_loads summary_then_quiz "(" []
     = (Raise re_error, []).
Proof. split; vm_compute; reflexivity. Qed.

Lemma no_header_or_no_fence_gives_empty_witness :
  plain_label "MCQ Quiz" = true
  /\ first_at (header_here "MCQ Quiz") summary_then_quiz = None
  /\ first_at (header_here "MCQ Quiz") unfenced = Some 0
  /\ first_at fence_here (skipn (0 + 2) unfenced) = None
  /\ Backend.parse_quiz_from_json sample_loads summary_then_quiz "MCQ Quiz" []
     = (Return (JList []), [])
  /\ Backend.parse_quiz_from_json sample_loads unfenced "MCQ Quiz" []
     = (Return (JList []), []).
Proof.
  split; [reflexivity|]. split; [vm_compute; reflexivity|].
  split; [vm_compute; reflexivity|]. split; [vm_compute; reflexivity|].
  split.
  - apply (no_header_or_no_fence_gives_empty
             sample_loads summary_then_quiz "MCQ Quiz" []);
      [reflexivity|left; vm_compute; reflexivity].
  - apply (no_header_or_no_fence_gives_empty
             sample_loads unfenced "MCQ Quiz" []);
      [reflexivity|right; exists 0; split; vm_compute; reflexivity].
Defined.





(** C7, as stated, fails: a content that begins with [digraph] and holds
    no [{] comes back as it is, and the styling is written nowhere. *)
Lemma unbraced_graph_unstyled :
  Backend.parse_graphviz unbraced_graph []
  = (Return (Some (chars "digraph")), [])
  /\ first_at (startswith styling) (chars "digraph") = None.
Proof. split; vm_compute; reflexivity. Qed.

Lemma graphviz_styles_first_brace_witness :
  (first_at (startswith "```dot") edge_graph = Some 9
   /\ fence_inside [nl] "A -> B" [nl] [nl] = true)
  /\ exists out,
       Backend.parse_graphviz edge_graph [] = (Return (Some out), [])
       /\ strip (nl :: chars "A -> B" ++ [nl]) = chars "A -> B"
       /\ (forall a b,
             chars "digraph G { A -> B }" = a ++ chars "{" ++ b ->
             existsb (Ascii.eqb "{"%char) a = false ->
             out = a ++ chars "{ " ++ styling ++ b)
       /\ (existsb (Ascii.eqb "{"%char) (chars "digraph G { A -> B }") = false
           -> out = chars "digraph G { A -> B }").
Proof.
  split; [split; vm_compute; reflexivity|].
  apply (graphviz_styles_first_brace
           (chars "Diagram:" ++ [nl]) [nl] "A -> B" [nl] [nl] []);
    vm_compute; reflexivity.
Defined.


(** * Further properties of the extractors *)

(** ** The matcher finds what is there *)

Lemma found_at P w p : P (skipn p w) = true -> found P w = true.
Proof.
  intros H. unfold found. destruct (first_at P w) eqn:E; [reflexivity|].
  rewrite (first_at_none _ _ E) in H. discriminate.
Qed.

Lemma found_some P w :
  found P w = true -> exists p, P (skipn p w) = true.
Proof.
  unfold found. destruct (first_at P w) as [p|] eqn:E; [|discriminate].
  intros _. exists p. apply (first_at_some _ _ E).
Qed.

Lemma greedy_star_whole t k w cs res :
  k w cs = Some res -> exists res', greedy_star t k w cs = Some res'.
Proof.
  intros H. destruct w as [|a w]; cbn [greedy_star]; [eauto|].
  destruct (t a); [|eauto].
  destruct (greedy_star t k w cs); eauto.
Qed.

Lemma greedy_star_spaces P k w cs :
  (forall x, P x = true -> exists res, k x cs = Some res) ->
  spaces_then P w = true ->
  exists res, greedy_star isspace k w cs = Some res.
Proof.
  intros HP. induction w as [|a w IH]; cbn [spaces_then]; intros H.
  - rewrite orb_false_r in H. destruct (HP _ H) as (res & Hres).
    apply (greedy_star_whole _ _ _ _ Hres).
  - apply orb_true_iff in H as [H|H].
    + destruct (HP _ H) as (res & Hres).
      apply (greedy_star_whole _ _ _ _ Hres).
    + apply andb_true_iff in H as [Ha H]. cbn [greedy_star]. rewrite Ha.
      destruct (IH H) as (res & ->). eauto.
Qed.

Lemma lazy_star_found k w cs p res :
  k (skipn p w) cs = Some res ->
  exists res', lazy_star always k w cs = Some res'.
Proof.
  revert p. induction w as [|a w IH]; intros p H.
  - rewrite skipn_nil in H. cbn [lazy_star]. rewrite H. eauto.
  - cbn [lazy_star]. destruct (k (a :: w) cs) eqn:E; [eauto|].
    destruct p as [|p]; [cbn in H; congruence|].
    cbn [always]. apply (IH p). exact H.
Qed.

Lemma search_found fl r w p res :
  bt fl r accept (skipn p w) [] = Some res -> search fl r w <> None.
Proof.
  revert p. induction w as [|a w IH]; intros p H.
  - rewrite skipn_nil in H. cbn [search]. rewrite H. destruct res. discriminate.
  - cbn [search]. destruct (bt fl r accept (a :: w) []) as [[w' cs]|] eqn:E;
      [discriminate|].
    destruct p as [|p]; [cbn in H; congruence|].
    apply (IH p). exact H.
Qed.

(** The search starts at the first suffix the pattern matches. *)
Lemma search_first fl r w m :
  search fl r w = Some m ->
  exists p, m_start m = skipn p w /\ p <= length w
            /\ bt fl r accept (skipn p w) [] = Some (m_end m, m_groups m)
            /\ forall q, q < p -> bt fl r accept (skipn q w) [] = None.
Proof.
  induction w as [|a w IH]; cbn [search]; intros H.
  - destruct (bt fl r accept [] []) as [[w' cs]|] eqn:E; [|discriminate].
    inversion H; subst. exists 0. cbn. repeat split; auto. intros q Hq. lia.
  - destruct (bt fl r accept (a :: w) []) as [[w' cs]|] eqn:E.
    + inversion H; subst. exists 0. cbn. repeat split; auto; try lia.
    + destruct (IH H) as (p & H1 & H2 & H3 & H4). exists (S p). cbn.
      repeat split; auto; try lia.
      intros [|q] Hq; [exact E|]. apply H4. lia.
Qed.

Lemma first_at_intro P w p :
  p <= length w -> P (skipn p w) = true ->
  (forall q, q < p -> P (skipn q w) = false) ->
  first_at P w = Some p.
Proof.
  revert p. induction w as [|a w IH]; intros p Hp HP Hmin.
  - cbn in Hp. assert (p = 0) by lia. subst. cbn in *. rewrite HP.
    reflexivity.
  - destruct p as [|p].
    + cbn in HP. cbn [first_at]. rewrite HP. reflexivity.
    + assert (H0 := Hmin 0 ltac:(lia)). cbn [skipn] in H0.
      cbn [first_at]. rewrite H0.
      rewrite (IH p); [reflexivity|cbn in Hp; lia|exact HP|].
      intros q Hq. apply (Hmin (S q)). lia.
Qed.

Lemma lstrip_backticks x : startswith "```" x = true -> lstrip x = x.
Proof.
  destruct x as [|b x]; [reflexivity|].
  change (startswith "```" (b :: x))
    with (Ascii.eqb "`"%char b && startswith "``" x).
  intros H. apply andb_true_iff in H as [Hb _].
  apply Ascii.eqb_eq in Hb. subst b. reflexivity.
Qed.

(** A closing fence at least one character ahead is enough for the tail
    of a fence to match. *)
Lemma fence_tail_complete fl w cs n :
  1 <= n -> startswith "```" (skipn n w) = true ->
  exists res, bt fl (seq_of fence_tail) accept w cs = Some res.
Proof.
  intros Hn Hclose. unfold fence_tail. rewrite bt_seq_of_app.
  rewrite !bt_seq_cons. change (bt fl (seq_of []) ?k) with k.
  rewrite bt_ws_star.
  assert (H : exists res,
             bt fl (Subpattern (Some 1) (Seq (Repeat false 1 None any_set)
                                             Empty))
                (bt fl ws_star (bt fl (seq_of (literals "```")) accept))
                w cs = Some res).
  { rewrite bt_group_seq, bt_lazy_plus_any.
    destruct w as [|a w].
    - rewrite skipn_nil in Hclose. discriminate.
    - destruct n as [|n]; [lia|]. cbn [skipn] in Hclose.
      eapply (lazy_star_found _ w cs n).
      rewrite bt_closing. unfold closes_here.
      rewrite (lstrip_backticks _ Hclose), Hclose. reflexivity. }
  destruct H as (res & H). apply (greedy_star_whole _ _ _ _ H).
Qed.

(** ** [parse_graphviz]: when there is no diagram, and what a diagram
       looks like *)

Lemma dot_reach_fence w cs w' cs' :
  Reach NOFLAG dot_regex w cs w' cs' -> dot_fence_here w = true.
Proof.
  unfold dot_regex. intros H.
  apply Reach_seq_of_app in H as (w1 & cs1 & H1 & H).
  apply Reach_literals in H1 as (Htag & -> & ->).
  apply fence_tail_reach in H as ((n & Hn & Hclose) & _).
  unfold dot_fence_here. rewrite <- starts_noflag, Htag. cbn [andb].
  apply (found_at _ _ (n - 1)). rewrite skipn_skipn.
  change (length (chars "```dot")) with 6 in Hclose.
  rewrite skipn_skipn in Hclose.
  replace (n - 1 + 7) with (n + 6) by lia. exact Hclose.
Qed.

Lemma dot_fence_matches w :
  dot_fence_here w = true ->
  exists res, bt NOFLAG dot_regex accept w [] = Some res.
Proof.
  unfold dot_fence_here. intros H. apply andb_true_iff in H as [Htag H].
  apply found_some in H as (p & Hp). unfold dot_regex.
  rewrite bt_seq_of_app, bt_literals, starts_noflag, Htag.
  change (length (chars "```dot")) with 6.
  apply (@fence_tail_complete _ _ _ (S p)); [lia|].
  rewrite skipn_skipn. replace (S p + 6) with (p + 7) by lia.
  rewrite <- skipn_skipn. exact Hp.
Qed.

Lemma dot_search_none_iff doc :
  search NOFLAG dot_regex doc = None <-> first_at dot_fence_here doc = None.
Proof.
  split; intros H.
  - destruct (first_at dot_fence_here doc) as [p|] eqn:E; [exfalso|reflexivity].
    apply first_at_some in E as (E & _).
    apply dot_fence_matches in E as (res & E).
    apply (search_found _ _ _ _ E). exact H.
  - apply search_none. intros p.
    destruct (bt NOFLAG dot_regex accept (skipn p doc) []) as [[w' cs]|] eqn:E;
      [exfalso|reflexivity].
    apply bt_sound in E as (w1 & cs1 & HR & _).
    apply dot_reach_fence in HR. rewrite (first_at_none _ _ H) in HR.
    discriminate.
Qed.

(** X1.  [parse_graphviz] returns [None] exactly on the documents without
    a dot fence, a fence being the tag [```dot] followed, at least one
    character later, by a closing [```]. *)
Theorem graphviz_none_iff_no_fence doc log :
  Backend.parse_graphviz doc log = (Return None, log)
  <-> first_at dot_fence_here doc = None.
Proof.
  unfold Backend.parse_graphviz, bind. rewrite re_search_dot.
  rewrite <- dot_search_none_iff.
  destruct (search NOFLAG dot_regex doc) as [m|] eqn:E.
  - destruct (dot_group_present _ E) as (g & ->). cbn.
    split; intros H; discriminate.
  - split; reflexivity.
Qed.

Lemma lstrip_snoc_nonspace l a :
  isspace a = false -> lstrip (l ++ [a]) = lstrip l ++ [a].
Proof.
  intros Ha. induction l as [|b l IH]; cbn [app lstrip].
  - rewrite Ha. reflexivity.
  - destruct (isspace b); [exact IH|reflexivity].
Qed.

Lemma rstrip_cons_nonspace a y :
  isspace a = false -> rstrip (a :: y) = a :: rstrip y.
Proof.
  intros Ha. unfold rstrip. cbn [rev].
  rewrite (lstrip_snoc_nonspace _ _ Ha), rev_app_distr. reflexivity.
Qed.

Lemma lstrip_head s a t : lstrip s = a :: t -> isspace a = false.
Proof.
  induction s as [|b s IH]; cbn [lstrip]; [discriminate|].
  destruct (isspace b) eqn:E; [exact IH|].
  intros H. inversion H; subst. exact E.
Qed.

Lemma rstrip_idem s : rstrip (rstrip s) = rstrip s.
Proof.
  unfold rstrip. rewrite rev_involutive, lstrip_idem. reflexivity.
Qed.

(** What [strip] returns starts with a character other than whitespace,
    and [strip] leaves it as it is. *)
Lemma strip_head s a t : strip s = a :: t -> isspace a = false.
Proof.
  unfold strip. destruct (lstrip s) as [|b x] eqn:E; [discriminate|].
  pose proof (lstrip_head _ E) as Hb.
  rewrite (rstrip_cons_nonspace _ _ Hb). intros H. inversion H; subst.
  exact Hb.
Qed.

Lemma strip_idem s : strip (strip s) = strip s.
Proof.
  unfold strip. destruct (lstrip s) as [|b x] eqn:E; [reflexivity|].
  pose proof (lstrip_head _ E) as Hb.
  rewrite (rstrip_cons_nonspace _ _ Hb). cbn [lstrip]. rewrite Hb.
  rewrite <- (rstrip_cons_nonspace _ _ Hb). apply rstrip_idem.
Qed.

(** Rewriting the first [c] keeps a prefix that has no [c]. *)
Lemma replace_keeps_prefix c new p s :
  existsb (Ascii.eqb c) p = false ->
  startswith p s = true ->
  startswith p (replace [c] new (Some 1) s) = true.
Proof.
  unfold replace. revert s. induction p as [|x p IH]; intros s Hp Hs.
  - reflexivity.
  - destruct s as [|y s]; [discriminate|].
    cbn [startswith] in Hs. apply andb_true_iff in Hs as [Hxy Hs].
    apply Ascii.eqb_eq in Hxy. subst y.
    cbn [existsb] in Hp. apply orb_false_elim in Hp as [Hx Hp].
    cbn [replace_go startswith]. rewrite Hx. cbn [andb startswith].
    rewrite Ascii.eqb_refl. cbn [andb]. apply IH; assumption.
Qed.

(** X2.  Whatever diagram [parse_graphviz] returns is a [digraph]
    declaration: its text begins with [digraph], either because the
    content of the fence did or because it was wrapped; and nothing is
    logged. *)
Theorem graphviz_result_is_digraph doc log out log' :
  Backend.parse_graphviz doc log = (Return (Some out), log') ->
  startswith "digraph" out = true /\ log' = log.
Proof.
  unfold Backend.parse_graphviz, bind. rewrite re_search_dot.
  destruct (search NOFLAG dot_regex doc) as [m|] eqn:E; [|discriminate].
  destruct (dot_group_present _ E) as (g & ->). unfold ret.
  intros H.
  pose proof (f_equal (fun r => match fst r with
                                | Return (Some o) => o
                                | _ => []
                                end) H) as Hout.
  pose proof (f_equal snd H) as Hlog. cbn [fst snd] in Hout, Hlog.
  split; [|symmetry; exact Hlog]. rewrite <- Hout.
  apply replace_keeps_prefix; [reflexivity|].
  rewrite strip_idem.
  destruct (startswith "digraph" (strip g)) eqn:D; [exact D|reflexivity].
Qed.

Lemma graphviz_result_is_digraph_witness :
  Backend.parse_graphviz edge_graph []
  = (Return (Some (chars "digraph G { " ++ styling ++ chars " A -> B }")),
     [])
  /\ startswith "digraph"
                (chars "digraph G { " ++ styling ++ chars " A -> B }") = true
  /\ @nil (level * str) = [].
Proof.
  split; [vm_compute; reflexivity|].
  apply (@graphviz_result_is_digraph edge_graph [] _ []).
  vm_compute. reflexivity.
Defined.

(** ** [parse_quiz_from_json]: where the search matches *)

Lemma quiz_reach_then_fence key w cs w' cs' :
  Reach quiz_flags (quiz_regex key) w cs w' cs' ->
  header_then_fence key w = true.
Proof.
  unfold quiz_regex. intros H.
  apply Reach_seq_of_app in H as (w1 & cs1 & H1 & H).
  apply Reach_seq_of_app in H as (w2 & cs2 & H2 & H).
  apply Reach_seq_of_app in H as (w3 & cs3 & H3 & H).
  apply Reach_seq_of_app in H as (w4 & cs4 & H4 & H).
  apply Reach_seq_of_app in H as (w5 & cs5 & H5 & H).
  apply Reach_literals in H1 as (Hhash & -> & ->).
  apply Reach_seq in H2 as (w2' & cs2' & H2 & E).
  apply Reach_empty in E as [-> ->].
  apply Reach_ws_star in H2 as (u & Hu & -> & Hsp).
  apply Reach_literals in H3 as (Hkey & -> & ->).
  apply Reach_seq in H4 as (w4' & cs4' & H4 & E).
  apply Reach_empty in E as [-> ->].
  apply (Reach_repeat_one (@one_char_in _ _)) in H4 as (v & Hv & -> & _ & _).
  apply Reach_literals in H5 as (Htag & -> & ->).
  apply fence_tail_reach in H as ((n & Hn & Hclose) & _).
  change (length (chars "##")) with 2 in *.
  change (length (chars "```json")) with 7 in *.
  unfold header_then_fence. rewrite Hhash, Hu. cbn [andb].
  apply spaces_then_intro; [exact Hsp|].
  rewrite Hkey. cbn [andb]. apply (found_at _ _ (length v)).
  rewrite Hv, skipn_app_exact. unfold fence_here. rewrite Htag. cbn [andb].
  fold (found (startswith "```") (skipn 8 w4')).
  apply (found_at _ _ (n - 1)). rewrite skipn_skipn.
  replace (n - 1 + 8) with (n + 7) by lia.
  rewrite <- skipn_skipn. exact Hclose.
Qed.

Lemma header_then_fence_matches key w :
  header_then_fence key w = true ->
  exists res, bt quiz_flags (quiz_regex key) accept w [] = Some res.
Proof.
  unfold header_then_fence. intros H. apply andb_true_iff in H as [Hhash H].
  unfold quiz_regex. rewrite bt_seq_of_app, bt_literals, Hhash.
  change (length (chars "##")) with 2.
  rewrite bt_seq_of_app, bt_seq_cons. change (bt _ (seq_of []) ?k) with k.
  rewrite bt_ws_star.
  eapply greedy_star_spaces; [|exact H].
  intros x Hx. apply andb_true_iff in Hx as [Hkey Hf].
  rewrite bt_seq_of_app, bt_literals, Hkey.
  rewrite bt_seq_of_app, bt_seq_cons. change (bt _ (seq_of []) ?k) with k.
  rewrite bt_lazy_any.
  apply found_some in Hf as (p & Hp).
  unfold fence_here in Hp. apply andb_true_iff in Hp as [Htag Hclose].
  fold (found (startswith "```") (skipn 8 (skipn p (skipn (length key) x))))
    in Hclose.
  apply found_some in Hclose as (q & Hq).
  assert (F : exists res,
             bt quiz_flags (seq_of (literals "```json" ++ fence_tail)) accept
                (skipn p (skipn (length key) x)) [] = Some res).
  { rewrite bt_seq_of_app, bt_literals, Htag.
    change (length (chars "```json")) with 7.
    apply (@fence_tail_complete _ _ _ (S q)); [lia|].
    rewrite skipn_skipn. replace (S q + 7) with (q + 8) by lia.
    rewrite <- skipn_skipn. exact Hq. }
  destruct F as (res & F). eapply lazy_star_found. exact F.
Qed.

Lemma quiz_bt_iff key w :
  bt quiz_flags (quiz_regex key) accept w [] = None
  <-> header_then_fence key w = false.
Proof.
  split; intros H.
  - destruct (header_then_fence key w) eqn:E; [exfalso|reflexivity].
    apply header_then_fence_matches in E as (res & E). congruence.
  - destruct (bt quiz_flags (quiz_regex key) accept w []) as [[w' cs]|] eqn:E;
      [exfalso|reflexivity].
    apply bt_sound in E as (w1 & cs1 & HR & _).
    apply quiz_reach_then_fence in HR. congruence.
Qed.

(** X3.  For a label that is plain text, the search of
    [parse_quiz_from_json] fails exactly on the documents in which no
    header for the label is followed, after the text of the label, by a
    json fence; and when it matches, the match starts at the first such
    header. *)
Theorem quiz_match_iff_header_then_fence doc key log :
  plain_label key = true ->
  (re_search (quiz_pattern key) quiz_flags doc log = (Return None, log)
   <-> first_at (header_then_fence key) doc = None)
  /\ forall m,
       re_search (quiz_pattern key) quiz_flags doc log
       = (Return (Some m), log) ->
       first_at (header_then_fence key) doc
       = Some (length doc - length (m_start m)).
Proof.
  intros Hplain. rewrite re_search_quiz by exact Hplain. split.
  - split; intros H.
    + inversion H as [E].
      destruct (first_at (header_then_fence key) doc) as [p|] eqn:F;
        [exfalso|reflexivity].
      apply first_at_some in F as (F & _).
      apply header_then_fence_matches in F as (res & F).
      apply (search_found _ _ _ _ F). exact E.
    + f_equal. f_equal. apply search_none. intros p.
      apply quiz_bt_iff. apply (first_at_none _ _ H).
  - intros m H. inversion H as [E].
    apply search_first in E as (p & Hstart & Hp & Hbt & Hmin).
    rewrite Hstart, length_skipn.
    replace (length doc - (length doc - p)) with p by lia.
    apply first_at_intro; [exact Hp| |].
    + destruct (header_then_fence key (skipn p doc)) eqn:F; [reflexivity|].
      apply quiz_bt_iff in F. congruence.
    + intros q Hq. apply quiz_bt_iff. apply Hmin. exact Hq.
Qed.

Lemma quiz_match_iff_header_then_fence_witness :
  plain_label "MCQ Quiz" = true
  /\ (re_search (quiz_pattern "MCQ Quiz") quiz_flags unfenced []
      = (Return None, [])
      <-> first_at (header_then_fence "MCQ Quiz") unfenced = None)
  /\ forall m,
       re_search (quiz_pattern "MCQ Quiz") quiz_flags unfenced []
       = (Return (Some m), []) ->
       first_at (header_then_fence "MCQ Quiz") unfenced
       = Some (length unfenced - length (m_start m)).
Proof.
  split; [reflexivity|].
  apply (quiz_match_iff_header_then_fence unfenced "MCQ Quiz" []).
  reflexivity.
Defined.

(** ** [split] and [join] *)

Lemma forallb_rev (f : ascii -> bool) l : forallb f (rev l) = forallb f l.
Proof.
  induction l as [|a l IH]; [reflexivity|].
  cbn [rev]. rewrite forallb_app, IH. cbn. rewrite andb_true_r.
  apply andb_comm.
Qed.

Lemma is_word_rev cur :
  cur <> [] -> forallb (fun a => negb (isspace a)) cur = true ->
  is_word (rev cur) = true.
Proof.
  intros Hne H. unfold is_word.
  destruct (rev cur) as [|b x] eqn:E.
  - apply (f_equal (@rev ascii)) in E. rewrite rev_involutive in E.
    contradiction.
  - rewrite <- E, forallb_rev. exact H.
Qed.

(** What [split] returns are words. *)
Lemma split_go_words s : forall cur,
  forallb (fun a => negb (isspace a)) cur = true ->
  Forall (fun w => is_word w = true) (split_go cur s).
Proof.
  induction s as [|a s IH]; intros cur Hcur; cbn [split_go].
  - destruct cur as [|c cur]; [constructor|].
    constructor; [|constructor]. apply is_word_rev; [discriminate|exact Hcur].
  - destruct (isspace a) eqn:E.
    + destruct cur as [|c cur]; [apply IH; reflexivity|].
      constructor; [|apply IH; reflexivity].
      apply is_word_rev; [discriminate|exact Hcur].
    + apply IH. cbn. rewrite E. exact Hcur.
Qed.

Lemma split_go_started s : forall cur, cur <> [] -> split_go cur s <> [].
Proof.
  induction s as [|a s IH]; intros cur H; cbn [split_go].
  - destruct cur; [contradiction|discriminate].
  - destruct (isspace a).
    + destruct cur; [contradiction|discriminate].
    + apply IH. discriminate.
Qed.

Lemma split_go_word u s : forall cur,
  forallb (fun a => negb (isspace a)) u = true ->
  split_go cur (u ++ s) = split_go (rev u ++ cur) s.
Proof.
  induction u as [|a u IH]; intros cur H; [reflexivity|].
  cbn in H. apply andb_true_iff in H as [Ha H].
  apply negb_true_iff in Ha.
  cbn [app split_go rev]. rewrite Ha, IH by exact H. rewrite <- app_assoc. reflexivity.
Qed.

Lemma is_word_parts w :
  is_word w = true ->
  w <> [] /\ forallb (fun a => negb (isspace a)) w = true.
Proof.
  destruct w as [|a w]; [discriminate|]. intros H.
  split; [discriminate|exact H].
Qed.

(** Words joined by single spaces are split into the same words. *)
Lemma split_join l :
  Forall (fun w => is_word w = true) l -> split (join " " l) = l.
Proof.
  unfold split. induction 1 as [|w l Hw Hl IH]; [reflexivity|].
  apply is_word_parts in Hw as [Hne Hw].
  assert (Hrev : rev w <> []).
  { intros E. apply (f_equal (@rev ascii)) in E.
    rewrite rev_involutive in E. contradiction. }
  destruct l as [|w' l].
  - cbn [join]. rewrite <- (app_nil_r w), split_go_word by exact Hw.
    rewrite !app_nil_r. cbn [split_go].
    destruct (rev w) eqn:E; [contradiction|].
    rewrite <- E, rev_involutive. reflexivity.
  - change (join " " (w :: w' :: l))
      with (w ++ " "%char :: join " " (w' :: l)).
    rewrite split_go_word by exact Hw. rewrite app_nil_r. cbn [split_go].
    change (isspace " "%char) with true. cbv iota.
    destruct (rev w) eqn:E; [contradiction|].
    rewrite <- E, rev_involutive, IH. reflexivity.
Qed.

Lemma join_nonempty sep w l : w <> [] -> join sep (w :: l) <> [].
Proof.
  intros H. destruct l; cbn [join]; [exact H|].
  destruct w; [contradiction|discriminate].
Qed.

Lemma Forall_firstn (A : Type) (P : A -> Prop) n (l : list A) :
  Forall P l -> Forall P (firstn n l).
Proof.
  intros H. revert n. induction H; intros [|n]; cbn; constructor; auto.
Qed.

(** X4.  Whatever topic the frontend's [get_topic_from_summary] returns
    is a non-empty text of at most ten words, the words separated by single
    spaces, with no whitespace before the first or after the last; and
    the call logs nothing. *)
Theorem frontend_topic_at_most_ten_words doc log t log' :
  Frontend.get_topic_from_summary doc log = (Return (Some t), log') ->
  t <> [] /\ length (split t) <= 10 /\ join " " (split t) = t /\ log' = log.
Proof.
  unfold Frontend.get_topic_from_summary, bind.
  fold summary_flags. rewrite re_search_summary.
  destruct (search summary_flags summary_regex doc) as [m|] eqn:E;
    [|discriminate].
  destruct (summary_group_present _ E) as (g & ->).
  destruct (strip g) as [|a s] eqn:S; [discriminate|].
  pose proof (strip_head _ S) as Ha.
  intros H.
  pose proof (f_equal (fun r => match fst r with
                                | Return (Some o) => o
                                | _ => []
                                end) H) as Ht.
  pose proof (f_equal snd H) as Hlog. cbn [fst snd ret] in Ht, Hlog.
  clear H.
  assert (Hw : Forall (fun w => is_word w = true)
                      (firstn 10 (split (a :: s)))).
  { apply Forall_firstn, split_go_words. reflexivity. }
  assert (Hne : split (a :: s) <> []).
  { unfold split. cbn [split_go]. rewrite Ha.
    apply split_go_started. discriminate. }
  rewrite <- Ht. rewrite (split_join Hw).
  repeat split.
  - destruct (split (a :: s)) as [|w l]; [contradiction|].
    cbn [firstn] in *. apply join_nonempty.
    inversion Hw as [|? ? Hw1 _]; subst.
    apply is_word_parts in Hw1 as [Hw1 _]. exact Hw1.
  - rewrite length_firstn. lia.
  - symmetry. exact Hlog.
Qed.

Lemma frontend_topic_at_most_ten_words_witness :
  Frontend.get_topic_from_summary summary_colon []
  = (Return (Some (chars "The topic is X, and it goes on for more")), [])
  /\ chars "The topic is X, and it goes on for more" <> []
  /\ length (split (chars "The topic is X, and it goes on for more")) <= 10
  /\ join " " (split (chars "The topic is X, and it goes on for more"))
     = chars "The topic is X, and it goes on for more"
  /\ @nil (level * str) = [].
Proof.
  split; [vm_compute; reflexivity|].
  apply (@frontend_topic_at_most_ten_words summary_colon [] _ []).
  vm_compute. reflexivity.
Defined.

(** ** The topic of the backend *)

Lemma replace_removes c s :
  existsb (Ascii.eqb c) (replace [c] [] None s) = false.
Proof.
  unfold replace. induction s as [|a s IH]; [reflexivity|].
  cbn [replace_go startswith length pred option_map].
  destruct (Ascii.eqb c a) eqn:E; cbn [andb app existsb].
  - exact IH.
  - rewrite E. exact IH.
Qed.

Section Topic.

Variable generate_content : str -> option str + exn.

(** X5.  A topic returned by the backend's [get_topic_from_summary] is a
    non-empty answer of the model, trimmed, with every double quote
    removed: it holds no double quote; and the call has logged its start
    and the topic, nothing else. *)
Theorem backend_topic_from_model doc log t log' :
  Backend.get_topic_from_summary generate_content doc log
  = (Return (Some t), log') ->
  existsb (Ascii.eqb dq) t = false
  /\ (exists prompt text,
        generate_content prompt = inl (Some text) /\ text <> []
        /\ t = replace [dq] [] None (strip text))
  /\ log' = log ++ [(INFO, chars "Distilling topic from summary.");
                    (INFO, chars "Successfully distilled topic: '" ++ t
                           ++ chars "'")].
Proof.
  unfold Backend.get_topic_from_summary, bind. cbn [logging].
  fold summary_flags. rewrite re_search_summary.
  destruct (search summary_flags summary_regex doc) as [m|] eqn:E;
    [|discriminate].
  destruct (summary_group_present _ E) as (g & ->).
  destruct (strip g) as [|a s] eqn:S; [discriminate|].
  unfold try_except, bind, lift.
  match goal with
  | |- context [generate_content ?p] =>
      destruct (generate_content p) as [[[|b text]|]|e] eqn:G
  end; try discriminate.
  unfold ret, logging. intros H.
  pose proof (f_equal (fun r => match fst r with
                                | Return (Some o) => o
                                | _ => []
                                end) H) as Ht.
  pose proof (f_equal snd H) as Hlog. cbn [fst snd] in Ht, Hlog.
  clear H. split; [|split].
  - rewrite <- Ht. apply replace_removes.
  - eexists. exists (b :: text). split; [exact G|].
    split; [discriminate|]. symmetry. exact Ht.
  - rewrite <- Hlog, <- app_assoc, Ht. reflexivity.
Qed.

End Topic.

Lemma backend_topic_from_model_witness :
  Backend.get_topic_from_summary quoting_generate summary_colon []
  = (Return (Some (chars "Topic X")),
     [(INFO, chars "Distilling topic from summary.");
      (INFO, chars "Successfully distilled topic: 'Topic X'")])
  /\ existsb (Ascii.eqb dq) (chars "Topic X") = false
  /\ (exists prompt text,
        quoting_generate prompt = inl (Some text) /\ text <> []
        /\ chars "Topic X" = replace [dq] [] None (strip text))
  /\ [(INFO, chars "Distilling topic from summary.");
      (INFO, chars "Successfully distilled topic: 'Topic X'")]
     = [] ++ [(INFO, chars "Distilling topic from summary.");
              (INFO, chars "Successfully distilled topic: '" ++ chars "Topic X"
                     ++ chars "'")].
Proof.
  split; [vm_compute; reflexivity|].
  apply (@backend_topic_from_model quoting_generate summary_colon [] _ _).
  vm_compute. reflexivity.
Defined.

(** ** [get_topic_from_summary]: what the pattern captures *)

Lemma bt_lazy_dotall k w cs :
  bt summary_flags (Repeat false 0 None AnyChar) k w cs
  = lazy_star always k w cs.
Proof.
  cbn [bt]. rewrite rep_one_lazy by lia.
  apply lazy_star_test. intros a. reflexivity.
Qed.

(** An optional node: its body first, then nothing. *)
Lemma bt_optional fl r k w cs :
  bt fl (Repeat true 0 (Some 1) r) k w cs
  = match bt fl r (fun w' cs' =>
                     if length w' <? length w then k w' cs' else None) w cs
    with
    | Some res => Some res
    | None => k w cs
    end.
Proof.
  cbn [bt rep pred option_map].
  rewrite (@bt_ext fl r _ (fun w' cs' =>
             if length w' <? length w then k w' cs' else None)).
  - reflexivity.
  - intros w' cs'. destruct (length w' <? length w) eqn:E; [|reflexivity].
    apply Nat.ltb_lt in E. destruct (length w); [lia|reflexivity].
Qed.

Lemma bt_literal_cons fl c k a w cs :
  bt fl (Literal c) k (a :: w) cs
  = if literal_eq fl c a then k w cs else None.
Proof. reflexivity. Qed.

Lemma lazy_star_line k u w cs :
  (forall a x, List.In a u -> k (a :: x) cs = None) ->
  lazy_star always k (u ++ w) cs = lazy_star always k w cs.
Proof.
  induction u as [|a u IH]; intros H; [reflexivity|].
  cbn [app lazy_star]. rewrite (H a) by (left; reflexivity).
  cbn [always]. apply IH. intros b x Hb. apply H. right. exact Hb.
Qed.

Lemma starts_summary_not_detailed w :
  starts summary_flags "Summary" w = true ->
  starts summary_flags "Detailed" w = false.
Proof.
  destruct w as [|a w]; [discriminate|].
  change (starts summary_flags "Summary" (a :: w))
    with (literal_eq summary_flags "S"%char a
          && starts summary_flags "ummary" w).
  change (starts summary_flags "Detailed" (a :: w))
    with (literal_eq summary_flags "D"%char a
          && starts summary_flags "etailed" w).
  intros H. apply andb_true_iff in H as [H _].
  replace (literal_eq summary_flags "D"%char a) with false; [reflexivity|].
  revert H. each_ascii a; cbv; congruence.
Qed.

Lemma optional_detailed_parts opt :
  optional_detailed opt = true ->
  opt = []
  \/ exists d a, opt = d ++ [a] /\ same_text summary_flags "Detailed" d = true
                 /\ isspace a = true.
Proof.
  destruct opt as [|c opt]; [left; reflexivity|]. intros H. right.
  cbn [optional_detailed] in H. apply andb_true_iff in H as [Hd Ha].
  destruct (skipn 8 (c :: opt)) as [|a [|b x]] eqn:E; try discriminate.
  exists (firstn 8 (c :: opt)), a. rewrite <- E, firstn_skipn. auto.
Qed.

(** The part of the pattern after the title, run where the title ends. *)
Lemma summary_tail_match sum ws0 line1 body rest cs :
  same_text summary_flags "Summary" sum = true ->
  forallb isspace ws0 = true ->
  starts_nonspace line1 = true ->
  existsb (Ascii.eqb nl) line1 = false ->
  first_at (startswith "##") (body ++ chars "##" ++ rest)
  = Some (length body) ->
  bt summary_flags
     (seq_of (literals "Summary"
              ++ [ws_star; Repeat false 0 None AnyChar; Literal nl;
                  Subpattern (Some 2)
                             (Seq (Repeat false 0 None AnyChar) Empty);
                  Assert (seq_of (literals "##"))]))
     accept
     (sum ++ ws0 ++ line1 ++ [nl] ++ body ++ chars "##" ++ rest) cs
  = Some (chars "##" ++ rest,
          (2, (body ++ chars "##" ++ rest, chars "##" ++ rest)) :: cs).
Proof.
  intros Hsum Hws0 Hl1 Hnl Hbody.
  rewrite bt_seq_of_app, bt_literals.
  rewrite (same_text_starts _ _ _ _ Hsum), (same_text_skipn _ _ _ _ Hsum).
  rewrite !bt_seq_cons. change (bt _ (seq_of []) ?k) with k.
  rewrite bt_ws_star. apply greedy_star_longest.
  - exact Hws0.
  - apply lstrip_nonspace. destruct line1; [discriminate|exact Hl1].
  - rewrite bt_lazy_dotall, lazy_star_line.
    + apply lazy_star_here. cbn [app].
      rewrite bt_literal_cons, literal_eq_nl, Ascii.eqb_refl.
      rewrite bt_group_seq, bt_lazy_dotall.
      apply first_at_some in Hbody as (_ & _ & Hmin).
      rewrite lazy_star_skip.
      * apply lazy_star_here. reflexivity.
      * intros p Hp. cbn [bt]. rewrite bt_literals, starts_hashes.
        rewrite (Hmin p Hp). reflexivity.
    + intros a x Ha. rewrite bt_literal_cons, literal_eq_nl.
      destruct (Ascii.eqb nl a) eqn:E; [|reflexivity].
      exfalso. apply Ascii.eqb_eq in E. subst a.
      assert (F : existsb (Ascii.eqb nl) line1 = true).
      { apply existsb_exists. exists nl. split; [exact Ha|].
        apply Ascii.eqb_refl. }
      congruence.
Qed.

(** The summary pattern, run at a Summary header. *)
Lemma summary_match_here ws opt sum ws0 line1 body rest :
  summary_parts ws opt sum ws0 line1 = true ->
  first_at (startswith "##") (body ++ chars "##" ++ rest)
  = Some (length body) ->
  exists cs,
    bt summary_flags summary_regex accept
       (chars "##" ++ ws ++ opt ++ sum ++ ws0 ++ line1 ++ [nl] ++ body
        ++ chars "##" ++ rest) []
    = Some (chars "##" ++ rest,
            (2, (body ++ chars "##" ++ rest, chars "##" ++ rest)) :: cs).
Proof.
  unfold summary_parts. intros H Hbody.
  apply andb_true_iff in H as [H Hnl]. apply negb_true_iff in Hnl.
  apply andb_true_iff in H as [H Hl1].
  apply andb_true_iff in H as [H Hws0].
  apply andb_true_iff in H as [H Hsum].
  apply andb_true_iff in H as [Hws Hopt].
  pose proof (fun cs => summary_tail_match sum ws0 line1 body rest cs
                          Hsum Hws0 Hl1 Hnl Hbody) as Htail.
  unfold summary_regex.
  rewrite bt_seq_of_app, bt_literals.
  rewrite (same_text_starts summary_flags "##" "##" _ eq_refl).
  rewrite (same_text_skipn summary_flags "##" "##" _ eq_refl).
  rewrite bt_seq_of_app, !bt_seq_cons. change (bt _ (seq_of []) ?k) with k.
  apply optional_detailed_parts in Hopt as [->|(d & a & -> & Hd & Ha)].
  - exists []. cbn [app]. rewrite bt_ws_star. apply greedy_star_longest.
    + exact Hws.
    + apply lstrip_nonspace.
      apply (starts_first_nonspace summary_flags "Summary"); [reflexivity|].
      apply same_text_starts. exact Hsum.
    + rewrite bt_optional. cbn [bt]. rewrite bt_seq_of_app, bt_literals.
      rewrite starts_summary_not_detailed
        by (apply same_text_starts; exact Hsum).
      apply Htail.
  - eexists. rewrite <- !app_assoc. cbn [app].
    rewrite bt_ws_star. apply greedy_star_longest.
    + exact Hws.
    + apply lstrip_nonspace.
      apply (starts_first_nonspace summary_flags "Detailed"); [reflexivity|].
      apply same_text_starts. exact Hd.
    + rewrite bt_optional. cbn [bt]. rewrite bt_seq_of_app, bt_literals.
      rewrite (same_text_starts _ _ _ _ Hd), (same_text_skipn _ _ _ _ Hd).
      rewrite bt_seq_cons. change (bt _ (seq_of []) ?k) with k.
      cbn [bt one]. rewrite space_test, Ha.
      replace (length _ <? length _) with true.
      * rewrite Htail. reflexivity.
      * symmetry. apply Nat.ltb_lt. rewrite (length_app d). cbn [length]. lia.
Qed.

(** The first Summary header, a line, a text and a later [##]: there the
    search matches, with the text in group 2. *)
Lemma summary_search_section pre ws opt sum ws0 line1 body rest :
  first_at summary_header_here
           (summary_section pre ws opt sum ws0 line1 body rest)
  = Some (length pre) ->
  summary_parts ws opt sum ws0 line1 = true ->
  first_at (startswith "##") (body ++ chars "##" ++ rest)
  = Some (length body) ->
  exists m,
    search summary_flags summary_regex
           (summary_section pre ws opt sum ws0 line1 body rest) = Some m
    /\ group m 2 = Some body.
Proof.
  intros Hfirst Hparts Hbody. unfold summary_section in *.
  destruct (summary_match_here _ _ _ _ _ _ _ Hparts Hbody) as (cs & Hm).
  rewrite search_skip.
  - rewrite (search_here _ _ _ Hm). eexists. split; [reflexivity|].
    cbn [group m_groups lookup_group Nat.eqb option_map].
    rewrite span_text_app. reflexivity.
  - intros p Hp. clear Hm.
    destruct (bt summary_flags summary_regex accept _ []) as [[w' cs']|] eqn:E;
      [exfalso|reflexivity].
    apply summary_bt_some in E as (Hh & _).
    apply first_at_some in Hfirst as (_ & _ & Hmin).
    rewrite (Hmin p Hp) in Hh. discriminate.
Qed.

(** X6.  Where the first Summary header of a document is followed, after
    optional whitespace, by a line of text and later by a [##], the summary
    that [get_topic_from_summary] captures is the text between the end of
    that line and the next [##]: the line itself is never part of it,
    whether it is the rest of the header line or, when the header line
    ends with its title, the first line of the section.  The frontend
    returns the first ten words of the captured text. *)
Theorem summary_is_text_after_first_line
        pre ws opt sum ws0 line1 body rest log :
  first_at summary_header_here
           (summary_section pre ws opt sum ws0 line1 body rest)
  = Some (length pre) ->
  summary_parts ws opt sum ws0 line1 = true ->
  first_at (startswith "##") (body ++ chars "##" ++ rest)
  = Some (length body) ->
  (exists m,
     re_search summary_pattern summary_flags
               (summary_section pre ws opt sum ws0 line1 body rest) log
     = (Return (Some m), log)
     /\ group m 2 = Some body)
  /\ Frontend.get_topic_from_summary
       (summary_section pre ws opt sum ws0 line1 body rest) log
     = (Return (first_words body), log).
Proof.
  intros Hfirst Hparts Hbody.
  destruct (summary_search_section _ _ _ _ _ _ _ _ Hfirst Hparts Hbody)
    as (m & Hm & Hg).
  split.
  - exists m. rewrite re_search_summary, Hm. split; [reflexivity|exact Hg].
  - unfold Frontend.get_topic_from_summary, bind. fold summary_flags.
    rewrite re_search_summary, Hm, Hg. unfold first_words.
    destruct (strip body); reflexivity.
Qed.

Lemma summary_is_text_after_first_line_witness :
  first_at summary_header_here detailed_summary = Some 0
  /\ summary_parts " " "Detailed " "SUMMARY" [nl] "Line one." = true
  /\ first_at (startswith "##")
              (("Line two." ++ [nl]) ++ chars "##" ++ " Quiz" ++ [nl])
     = Some 10
  /\ (exists m,
        re_search summary_pattern summary_flags detailed_summary []
        = (Return (Some m), [])
        /\ group m 2 = Some ("Line two." ++ [nl]))
  /\ Frontend.get_topic_from_summary detailed_summary []
     = (Return (first_words ("Line two." ++ [nl])), []).
Proof.
  split; [reflexivity|]. split; [reflexivity|]. split; [reflexivity|].
  apply (@summary_is_text_after_first_line
           [] " " "Detailed " "SUMMARY" [nl] "Line one."
           ("Line two." ++ [nl]) (" Quiz" ++ [nl]) []); reflexivity.
Defined.

(** * The services and the endpoints *)

(** ** How calls end *)

Lemma ends_ret A P (a : A) : ends P (ret a).
Proof. intros l. exact I. Qed.

Lemma ends_raise A P e : ends P (@raise A e).
Proof. intros l. exact I. Qed.

Lemma ends_lift A P (r : A + exn) : ends P (lift r).
Proof. destruct r; [apply ends_ret|apply ends_raise]. Qed.

Lemma ends_call A (P : str -> Prop) (r : A + raised) :
  (forall name, r = inr (BaseException name) -> P name) -> ends P (call r).
Proof.
  intros H l. unfold call, ended. cbn [fst].
  destruct r as [a|[e|name]]; [exact I|exact I|]. apply H. reflexivity.
Qed.

Lemma ends_logging P lv msg : ends P (logging lv msg).
Proof. intros l. exact I. Qed.

Lemma ends_bind A B P (m : M A) (f : A -> M B) :
  ends P m -> (forall a, ends P (f a)) -> ends P (bind m f).
Proof.
  intros Hm Hf l. unfold bind. specialize (Hm l).
  destruct (m l) as [[a|e|name|] l1]; cbn [fst] in *;
    [apply Hf|exact I|exact Hm|contradiction].
Qed.

Lemma ends_try_except A P (m : M A) h :
  ends P m -> (forall e, ends P (h e)) -> ends P (try_except m h).
Proof.
  intros Hm Hh l. unfold try_except. specialize (Hm l).
  destruct (m l) as [[a|e|name|] l1]; cbn [fst] in *;
    [exact I|apply Hh|exact Hm|contradiction].
Qed.

Lemma bind_returns A B (m : M A) (f : A -> M B) l b l' :
  bind m f l = (Return b, l') ->
  exists a l1, m l = (Return a, l1) /\ f a l1 = (Return b, l').
Proof.
  unfold bind. destruct (m l) as [[a|e|name|] l1]; try discriminate. eauto.
Qed.

Lemma try_except_returns A (m : M A) h l a l' :
  try_except m h l = (Return a, l') ->
  m l = (Return a, l')
  \/ exists e l1, m l = (Raise e, l1) /\ h e l1 = (Return a, l').
Proof.
  unfold try_except.
  destruct (m l) as [[x|e|name|] l1]; try discriminate; eauto.
Qed.

(** A handler that returns makes the whole [try] return, when nothing
    escapes its body. *)
Lemma try_except_total A (m : M A) h l :
  ends no_escape m ->
  (forall e l1, exists a l', h e l1 = (Return a, l')) ->
  exists a l', try_except m h l = (Return a, l').
Proof.
  intros Hm Hh. unfold try_except. specialize (Hm l).
  destruct (m l) as [[x|e|name|] l1]; cbn [fst] in *;
    [eauto|apply Hh|contradiction|contradiction].
Qed.

(** ** The recommendations *)

Lemma field_step v key x path y :
  field v [key] = Some x -> field x path = Some y ->
  field v (key :: path) = Some y.
Proof.
  cbn [field]. destruct v; try discriminate.
  destruct (dict_lookup key items); [|discriminate].
  intros H. injection H as ->. auto.
Qed.

Section Recommendations.

Variable youtube_service : option (str -> Z -> json + raised).
Variable not_subscriptable : json -> exn.
Variable no_attribute_get : json -> exn.
Variable not_iterable : json -> exn.
Variable py_str : json -> str.

Local Abbreviation recommendation :=
  (Processing.recommendation not_subscriptable py_str).
Local Abbreviation for_item_in :=
  (Processing.for_item_in not_subscriptable py_str).
Local Abbreviation get_youtube_recommendations :=
  (Processing.get_youtube_recommendations
     youtube_service not_subscriptable no_attribute_get not_iterable py_str).
Local Abbreviation generate_roadmap_endpoint :=
  (Main.generate_roadmap_endpoint
     youtube_service not_subscriptable no_attribute_get not_iterable py_str).


Lemma getitem_cases v key l :
  (exists x, field v [key] = Some x
             /\ Processing.getitem not_subscriptable v key l = (Return x, l))
  \/ exists e, Processing.getitem not_subscriptable v key l = (Raise e, l).
Proof.
  unfold Processing.getitem. cbn [field].
  destruct v; try (right; eexists; reflexivity).
  destruct (dict_lookup key items) as [x|];
    [left; eauto|right; eexists; reflexivity].
Qed.

Lemma bind_getitem_cases B v key (f : json -> M B) l (Q : B -> Prop) :
  (forall x, field v [key] = Some x ->
             (exists r, f x l = (Return r, l) /\ Q r)
             \/ exists e, f x l = (Raise e, l)) ->
  (exists r, bind (Processing.getitem not_subscriptable v key) f l
             = (Return r, l) /\ Q r)
  \/ exists e, bind (Processing.getitem not_subscriptable v key) f l
               = (Raise e, l).
Proof.
  intros H. unfold bind.
  destruct (getitem_cases v key l) as [(x & Hx & ->)|(e & ->)];
    [apply H; exact Hx|right; eauto].
Qed.

(** Making a recommendation writes nothing to the log; it returns the
    recommendation of the item, or raises. *)
Lemma recommendation_cases item l :
  (exists r, recommendation item l = (Return r, l)
             /\ recommended py_str item r)
  \/ exists e, recommendation item l = (Raise e, l).
Proof.
  unfold Processing.recommendation.
  apply bind_getitem_cases; intros snippet Hsnippet.
  apply bind_getitem_cases; intros title Htitle.
  apply bind_getitem_cases; intros id Hid.
  apply bind_getitem_cases; intros videoId HvideoId.
  apply bind_getitem_cases; intros snippet' Hsnippet'.
  rewrite Hsnippet in Hsnippet'. injection Hsnippet' as <-.
  apply bind_getitem_cases; intros thumbnails Hthumbnails.
  apply bind_getitem_cases; intros high Hhigh.
  apply bind_getitem_cases; intros url Hurl.
  left. eexists. split; [reflexivity|].
  exists title, videoId, url. repeat split.
  - eapply field_step; eassumption.
  - eapply field_step; eassumption.
  - eapply field_step; [exact Hsnippet|].
    eapply field_step; [exact Hthumbnails|].
    eapply field_step; eassumption.
Qed.

Lemma for_item_in_cases items : forall acc l,
  (exists rs, for_item_in items acc l = (Return (acc ++ rs), l)
              /\ Forall2 (recommended py_str) items rs)
  \/ exists e, for_item_in items acc l = (Raise e, l).
Proof.
  induction items as [|item items IH]; intros acc l.
  - left. exists []. rewrite app_nil_r. split; [reflexivity|constructor].
  - cbn [Processing.for_item_in]. unfold bind.
    destruct (recommendation_cases item l) as [(r & -> & Hr)|(e & ->)];
      [|right; eauto].
    destruct (IH (acc ++ [r]) l) as [(rs & -> & Hrs)|(e & ->)];
      [|right; eauto].
    left. exists (r :: rs). rewrite <- app_assoc.
    split; [reflexivity|constructor; assumption].
Qed.

Lemma ends_for_item_in P items acc : ends P (for_item_in items acc).
Proof.
  intros l. destruct (for_item_in_cases items acc l) as [(rs & -> & _)|(e & ->)];
    exact I.
Qed.

Lemma ends_get P v key default :
  ends P (Processing.get no_attribute_get v key default).
Proof. intros l. destruct v; exact I. Qed.

Lemma ends_iter P v : ends P (Processing.iter not_iterable v).
Proof. intros l. destruct v; exact I. Qed.

(** What is done with the response of the service: nothing escapes it. *)
Lemma ends_response P response :
  ends P
    (items <- Processing.get no_attribute_get response "items" (JList []) ;;
     items <- Processing.iter not_iterable items ;;
     recommendations <- for_item_in items [] ;;
     logging INFO
             (chars "Found " ++ decimal (length recommendations)
              ++ chars " YouTube recommendations.") ;;
     ret recommendations).
Proof.
  apply ends_bind; [apply ends_get|intros items].
  apply ends_bind; [apply ends_iter|intros items'].
  apply ends_bind; [apply ends_for_item_in|intros recs].
  apply ends_bind; [apply ends_logging|intros _]. apply ends_ret.
Qed.

(** The call returns, unless the service lets an exception escape, and
    that one escapes the call: the [except] clause does not catch it. *)
Lemma recommendations_cases topic level max_results log :
  (exists recs log',
     get_youtube_recommendations topic level max_results log
     = (Return recs, log'))
  \/ (exists service name,
        youtube_service = Some service /\ topic <> []
        /\ service (topic ++ chars " for " ++ level ++ chars "s tutorial")
                   max_results
           = inr (BaseException name)
        /\ get_youtube_recommendations topic level max_results log
           = (Escape name,
              log ++ [(INFO,
                       chars "Fetching YouTube recommendations for topic: '"
                       ++ topic ++ chars "', level: '" ++ level
                       ++ chars "'.")])).
Proof.
  unfold Processing.get_youtube_recommendations.
  destruct youtube_service as [service|]; [|left; do 2 eexists; reflexivity].
  destruct topic as [|c topic]; [left; do 2 eexists; reflexivity|].
  unfold bind at 1. cbn [logging].
  destruct (service ((c :: topic) ++ chars " for " ++ level
                     ++ chars "s tutorial") max_results)
    as [response|[e|name]] eqn:S.
  - left. apply try_except_total.
    + unfold bind at 1, call, ended. intros l.
      apply (ends_response no_escape response l).
    + intros e l1. do 2 eexists. reflexivity.
  - left. do 2 eexists. reflexivity.
  - right. exists service, name. split; [reflexivity|].
    split; [discriminate|]. split; [exact S|]. reflexivity.
Qed.

(** X7.  No exception that derives from [Exception] leaves
    [get_youtube_recommendations]: whatever the service answers, and
    whatever the shape of its answer, the call returns a list, and when
    the service raises such an exception the list is empty and the failure
    is in the log.  The call ends otherwise only when the service raises
    an exception that does not derive from [Exception]: that one passes
    the [except] clause and escapes. *)
Theorem recommendations_never_raise topic level max_results log :
  ((exists recs log',
      get_youtube_recommendations topic level max_results log
      = (Return recs, log'))
   \/ (exists service name,
         youtube_service = Some service /\ topic <> []
         /\ service (topic ++ chars " for " ++ level ++ chars "s tutorial")
                    max_results
            = inr (BaseException name)
         /\ get_youtube_recommendations topic level max_results log
            = (Escape name,
               log ++ [(INFO,
                        chars "Fetching YouTube recommendations for topic: '"
                        ++ topic ++ chars "', level: '" ++ level
                        ++ chars "'.")])))
  /\ forall service e,
       youtube_service = Some service -> topic <> [] ->
       service (topic ++ chars " for " ++ level ++ chars "s tutorial")
               max_results = inr (Exception e) ->
       get_youtube_recommendations topic level max_results log
       = (Return [],
          log ++ [(INFO,
                   chars "Fetching YouTube recommendations for topic: '"
                   ++ topic ++ chars "', level: '" ++ level ++ chars "'.");
                  (ERROR, chars "YouTube API search failed: " ++ exn_text e)]).
Proof.
  split; [apply recommendations_cases|].
  intros service e Hs Ht He.
  unfold Processing.get_youtube_recommendations. rewrite Hs.
  destruct topic as [|c topic]; [contradiction|].
  unfold bind at 1. cbn [logging]. unfold try_except, bind at 1.
  rewrite He. cbn [call ended]. unfold bind, logging, ret.
  rewrite <- app_assoc. reflexivity.
Qed.

(** X8.  What [get_youtube_recommendations] returns is the empty list, or
    one recommendation for each item of the answer of the service, in the
    order of the items: the title of the item, the address
    [https://www.youtube.com/watch?v=] followed by its [videoId], and its
    high thumbnail.  One item that lacks one of the three makes the whole
    list empty. *)
Theorem recommendations_one_per_item topic level max_results log recs log' :
  get_youtube_recommendations topic level max_results log
  = (Return recs, log') ->
  recs = []
  \/ exists service response items_value items,
       youtube_service = Some service
       /\ service (topic ++ chars " for " ++ level ++ chars "s tutorial")
                  max_results = inl response
       /\ field response ["items" : str] = Some items_value
       /\ (forall l, Processing.iter not_iterable items_value l
                     = (Return items, l))
       /\ Forall2 (recommended py_str) items recs.
Proof.
  unfold Processing.get_youtube_recommendations.
  destruct youtube_service as [service|].
  2:{ intros H. injection H as <- _. left. reflexivity. }
  destruct topic as [|c topic].
  { intros H. injection H as <- _. left. reflexivity. }
  unfold bind at 1. cbn [logging]. intros H.
  apply try_except_returns in H as [H|(e & l1 & _ & H)].
  2:{ injection H as <- _. left. reflexivity. }
  apply bind_returns in H as (response & l1 & Hresp & H).
  apply bind_returns in H as (items_value & l2 & Hget & H).
  apply bind_returns in H as (items & l3 & Hiter & H).
  apply bind_returns in H as (rs & l4 & Hfor & H).
  apply bind_returns in H as ([] & l5 & _ & H).
  injection H as <- _.
  destruct (for_item_in_cases items [] l3) as [(rs' & E & HF)|(e & E)];
    rewrite E in Hfor; [|discriminate].
  injection Hfor as <- _. cbn [app].
  destruct items as [|item items].
  { inversion HF; subst. left. reflexivity. }
  right. exists service, response, items_value, (item :: items).
  split; [reflexivity|]. split.
  { unfold call, ended in Hresp.
    destruct (service _ max_results) as [r|[e|name]]; try discriminate.
    injection Hresp as -> _. reflexivity. }
  split; [|split; [|exact HF]].
  - unfold Processing.get in Hget. cbn [field].
    destruct response; try discriminate.
    destruct (dict_lookup "items" items0) as [x|].
    + injection Hget as -> _. reflexivity.
    + injection Hget as <- _. discriminate.
  - intros l. unfold Processing.iter in *.
    destruct items_value; try discriminate;
      injection Hiter as <- _; reflexivity.
Qed.

(** X9.  The endpoint [/roadmap] never gives its [error] answer: it
    answers with the status [success], a failure of the service being
    answered as a success with an empty list of recommendations; or the
    service has raised an exception that does not derive from
    [Exception], which passes both [except] clauses and escapes the
    endpoint. *)
Theorem roadmap_never_answers_error topic level log :
  (exists recs log',
     generate_roadmap_endpoint topic level log
     = (Return (JDict [("status" : str, JString "success");
                       ("recommendations" : str, JList recs)]), log'))
  \/ (exists service name,
        youtube_service = Some service /\ topic <> []
        /\ service (topic ++ chars " for " ++ level ++ chars "s tutorial")
                   3%Z
           = inr (BaseException name)
        /\ generate_roadmap_endpoint topic level log
           = (Escape name,
              log ++ [(INFO,
                       chars "Fetching YouTube recommendations for topic: '"
                       ++ topic ++ chars "', level: '" ++ level
                       ++ chars "'.")])).
Proof.
  unfold Main.generate_roadmap_endpoint, try_except, bind.
  destruct (recommendations_cases topic level 3%Z log)
    as [(recs & l' & ->)|(service & name & Hs & Ht & Hn & ->)].
  - left. exists recs, l'. reflexivity.
  - right. exists service, name. repeat split; assumption.
Qed.

End Recommendations.

Lemma recommendations_never_raise_witness :
  (Some failing_service = Some failing_service
   /\ chars "Graphs" <> []
   /\ failing_service (chars "Graphs" ++ chars " for " ++ chars "Beginner"
                       ++ chars "s tutorial") 3%Z
      = inr (Exception (OtherException "quotaExceeded")))
  /\ Processing.get_youtube_recommendations
       (Some failing_service) sample_type_error sample_type_error
       sample_type_error sample_str "Graphs" "Beginner" 3%Z []
     = (Return [],
        [] ++ [(INFO,
                chars "Fetching YouTube recommendations for topic: '"
                ++ chars "Graphs" ++ chars "', level: '" ++ chars "Beginner"
                ++ chars "'.");
               (ERROR,
                chars "YouTube API search failed: "
                ++ exn_text (OtherException "quotaExceeded"))]).
Proof.
  split; [repeat split; discriminate|].
  apply (proj2 (@recommendations_never_raise
                  (Some failing_service) sample_type_error sample_type_error
                  sample_type_error sample_str "Graphs" "Beginner" 3%Z [])
               failing_service (OtherException "quotaExceeded")).
  - reflexivity.
  - discriminate.
  - reflexivity.
Defined.

(** A call interrupted from the keyboard escapes the endpoint. *)
Lemma interrupted_roadmap_escapes :
  Main.generate_roadmap_endpoint
    (Some interrupted_service) sample_type_error sample_type_error
    sample_type_error sample_str "Graphs" "Beginner" []
  = (Escape (chars "KeyboardInterrupt"),
     [(INFO,
       chars "Fetching YouTube recommendations for topic: 'Graphs', level: 'Beginner'.")]).
Proof. vm_compute. reflexivity. Qed.

Lemma recommendations_one_per_item_witness :
  Processing.get_youtube_recommendations
    (Some sample_service) sample_type_error sample_type_error
    sample_type_error sample_str "Graphs" "Beginner" 3%Z []
  = (Return sample_recommendations,
     [(INFO,
       chars "Fetching YouTube recommendations for topic: 'Graphs', level: 'Beginner'.");
      (INFO, chars "Found 2 YouTube recommendations.")])
  /\ (sample_recommendations = []
      \/ exists service response items_value items,
           Some sample_service = Some service
           /\ service (chars "Graphs" ++ chars " for " ++ chars "Beginner"
                       ++ chars "s tutorial") 3%Z = inl response
           /\ field response ["items" : str] = Some items_value
           /\ (forall l, Processing.iter sample_type_error items_value l
                         = (Return items, l))
           /\ Forall2 (recommended sample_str) items sample_recommendations).
Proof.
  split; [vm_compute; reflexivity|].
  apply (@recommendations_one_per_item
           (Some sample_service) sample_type_error sample_type_error
           sample_type_error sample_str "Graphs" "Beginner" 3%Z []
           sample_recommendations
           [(INFO,
             chars "Fetching YouTube recommendations for topic: 'Graphs', level: 'Beginner'.");
            (INFO, chars "Found 2 YouTube recommendations.")]).
  vm_compute. reflexivity.
Defined.

(** ** Calls that touch the files *)

Lemma io_bind_returns A B (m : IO A) (f : A -> IO B) w b w' :
  io_bind m f w = (Return b, w') ->
  exists a w1, m w = (Return a, w1) /\ f a w1 = (Return b, w').
Proof.
  unfold io_bind. destruct (m w) as [[a|e|name|] w1]; try discriminate. eauto.
Qed.

Lemma run_returns A (m : M A) w a w' :
  run m w = (Return a, w') ->
  m (snd w) = (Return a, snd w') /\ fst w' = fst w.
Proof.
  unfold run. destruct (m (snd w)) as [o l]. intros H.
  injection H as -> <-. split; reflexivity.
Qed.

Lemma str_eqb_refl s : str_eqb s s = true.
Proof.
  induction s as [|a s IH]; [reflexivity|].
  cbn. rewrite Ascii.eqb_refl. exact IH.
Qed.

Lemma io_ends_ret A P (a : A) : io_ends P (io_ret a).
Proof. intros w. exact I. Qed.

Lemma io_ends_raise A P e : io_ends P (@io_raise A e).
Proof. intros w. exact I. Qed.

Lemma io_ends_bind A B P (m : IO A) (f : A -> IO B) :
  io_ends P m -> (forall a, io_ends P (f a)) -> io_ends P (io_bind m f).
Proof.
  intros Hm Hf w. unfold io_bind. specialize (Hm w).
  destruct (m w) as [[a|e|name|] w1]; cbn [fst] in *;
    [apply Hf|exact I|exact Hm|contradiction].
Qed.

Lemma io_ends_try_except A P (m : IO A) h :
  io_ends P m -> (forall e, io_ends P (h e)) -> io_ends P (io_try_except m h).
Proof.
  intros Hm Hh w. unfold io_try_except. specialize (Hm w).
  destruct (m w) as [[a|e|name|] w1]; cbn [fst] in *;
    [exact I|apply Hh|exact Hm|contradiction].
Qed.

Lemma io_ends_run A P (m : M A) : ends P m -> io_ends P (run m).
Proof.
  intros Hm w. unfold run. specialize (Hm (snd w)).
  destruct (m (snd w)) as [o l]. exact Hm.
Qed.

Lemma io_ends_path_exists P path : io_ends P (path_exists path).
Proof. intros w. exact I. Qed.

Lemma io_ends_getsize P path : io_ends P (getsize path).
Proof. intros w. unfold getsize. destruct (fst w path); exact I. Qed.

(** The cleanup of the endpoint: afterwards there is no file at [path],
    and the log is as it was; or there is a file that [os.remove] fails
    to remove, and the cleanup raises what [os.remove] raises. *)
Lemma cleanup_cases remove_error path w :
  (exists w',
     (present <~ path_exists path ;;
      if (present : bool) then remove remove_error path else io_ret tt) w
     = (Return tt, w')
     /\ fst w' path = None /\ snd w' = snd w)
  \/ (exists e size,
        fst w path = Some size /\ remove_error path (fst w) = Some e
        /\ (present <~ path_exists path ;;
            if (present : bool) then remove remove_error path
            else io_ret tt) w
           = (Raise e, w)).
Proof.
  unfold io_bind, path_exists, remove, io_ret.
  destruct (fst w path) as [n|] eqn:E.
  - rewrite E. destruct (remove_error path (fst w)) as [e|] eqn:R.
    + right. exists e, n. repeat split.
    + left. eexists. split; [reflexivity|]. cbn [fst snd].
      rewrite str_eqb_refl. split; reflexivity.
  - left. exists w. repeat split. exact E.
Qed.

Section Pipeline.

Variable json_loads : str -> json + exn.
Variable remove_error : str -> files -> option exn.
Variable generate_content : str -> option str + raised.
Variable ydl_download : str -> str -> files -> (unit + raised) * files.
Variable transcribe : str -> files -> (list str + raised) * files.

Local Abbreviation video_to_audio := (Processing.video_to_audio ydl_download).
Local Abbreviation audio_to_text := (Processing.audio_to_text transcribe).
Local Abbreviation generate_notes :=
  (Processing.generate_notes generate_content).
Local Abbreviation generate_notes_endpoint :=
  (Main.generate_notes_endpoint json_loads remove_error generate_content
                                ydl_download transcribe).

(** An exception that does not derive from [Exception] has been raised by
    the download, the transcription or the model. *)
Local Abbreviation service_escapes :=
  (fun name : str =>
     (exists outtmpl url fs fs',
        ydl_download outtmpl url fs = (inr (BaseException name), fs'))
     \/ (exists path fs fs',
           transcribe path fs = (inr (BaseException name), fs'))
     \/ (exists prompt, generate_content prompt = inr (BaseException name))).

Lemma io_ends_download outtmpl url :
  io_ends service_escapes (Processing.download ydl_download outtmpl url).
Proof.
  intros w. unfold Processing.download.
  destruct (ydl_download outtmpl url (fst w)) as [[u|[e|name]] fs] eqn:D;
    cbn [fst ended]; [exact I|exact I|].
  left. eauto.
Qed.

Lemma io_ends_segments_of path :
  io_ends service_escapes (Processing.segments_of transcribe path).
Proof.
  intros w. unfold Processing.segments_of.
  destruct (transcribe path (fst w)) as [[u|[e|name]] fs] eqn:D;
    cbn [fst ended]; [exact I|exact I|].
  right. left. eauto.
Qed.

Lemma io_ends_video_to_audio url path :
  io_ends service_escapes (video_to_audio url path).
Proof.
  unfold Processing.video_to_audio.
  apply io_ends_bind; [apply io_ends_run, ends_logging|intros _].
  apply io_ends_try_except.
  - apply io_ends_bind; [apply io_ends_download|intros _].
    apply io_ends_bind; [apply io_ends_path_exists|intros present].
    apply io_ends_bind.
    + destruct present; cbn [negb]; [|apply io_ends_ret].
      apply io_ends_bind; [apply io_ends_getsize|intros size].
      apply io_ends_ret.
    + intros [|]; [apply io_ends_raise|].
      apply io_ends_bind; [apply io_ends_run, ends_logging|intros _].
      apply io_ends_ret.
  - intros e.
    apply io_ends_bind; [apply io_ends_run, ends_logging|intros _].
    apply io_ends_raise.
Qed.

Lemma io_ends_audio_to_text path :
  io_ends service_escapes (audio_to_text path).
Proof.
  unfold Processing.audio_to_text.
  apply io_ends_bind; [apply io_ends_path_exists|intros present].
  destruct present; cbn [negb]; [|apply io_ends_raise].
  apply io_ends_try_except.
  - apply io_ends_bind; [apply io_ends_run, ends_logging|intros _].
    apply io_ends_bind; [apply io_ends_segments_of|intros segments].
    apply io_ends_bind; [apply io_ends_run, ends_logging|intros _].
    apply io_ends_ret.
  - intros e.
    apply io_ends_bind; [apply io_ends_run, ends_logging|intros _].
    apply io_ends_raise.
Qed.

Lemma ends_generate_notes text :
  ends service_escapes (generate_notes text).
Proof.
  unfold Processing.generate_notes.
  apply ends_bind; [apply ends_logging|intros _].
  destruct text as [|c text]; [apply ends_raise|].
  apply ends_try_except.
  - apply ends_bind.
    + apply ends_call. intros name H. right. right. eauto.
    + intros [[|a notes]|]; try apply ends_raise.
      apply ends_bind; [apply ends_logging|intros _]. apply ends_ret.
  - intros e. apply ends_bind; [apply ends_logging|intros _].
    apply ends_raise.
Qed.

Lemma ends_parse_quiz P notes key :
  plain_label key = true ->
  ends P (Backend.parse_quiz_from_json json_loads notes key).
Proof.
  intros Hkey l. rewrite parse_quiz_unfold by exact Hkey.
  destruct (search quiz_flags (quiz_regex key) notes) as [m|];
    [|exact I].
  destruct (group m 1) as [g|]; [|exact I].
  destruct (json_loads g) as [v|[]]; exact I.
Qed.


Lemma parse_graphviz_returns notes l :
  exists g, Backend.parse_graphviz notes l = (Return g, l).
Proof.
  unfold Backend.parse_graphviz, bind. rewrite re_search_dot.
  destruct (search NOFLAG dot_regex notes) as [m|] eqn:E;
    [|eexists; reflexivity].
  destruct (dot_group_present _ E) as (g & ->). eexists. reflexivity.
Qed.

Lemma ends_parse_graphviz P notes : ends P (Backend.parse_graphviz notes).
Proof.
  intros l. destruct (parse_graphviz_returns notes l) as (g & ->).
  exact I.
Qed.

(** X10.  [generate_notes] returns only on a transcript that is not
    empty, and what it returns is not empty either: it is the text the
    model gave for the prompt that ends with the transcript; the log then
    holds the two lines of the call. *)
Theorem generate_notes_returns_model_text text log notes log' :
  generate_notes text log = (Return notes, log') ->
  text <> [] /\ notes <> []
  /\ generate_content (Processing.system_prompt ++ [nl; nl]
                       ++ chars "Here is the transcript:" ++ [nl] ++ text)
     = inl (Some notes)
  /\ log' = log ++ [(INFO, chars "Calling Gemini API to generate notes.");
                    (INFO,
                     chars "Successfully generated notes from Gemini API.")].
Proof.
  unfold Processing.generate_notes. unfold bind at 1. cbn [logging].
  destruct text as [|c text]; [discriminate|].
  unfold try_except, bind, call, ended.
  destruct (generate_content _) as [[[|a n]|]|[e|name]] eqn:G;
    try discriminate.
  unfold ret, logging. intros H. injection H as <- <-.
  split; [discriminate|]. split; [discriminate|].
  split; [reflexivity|]. rewrite <- app_assoc. reflexivity.
Qed.

Lemma video_to_audio_returns url path w p w' :
  video_to_audio url path w = (Return p, w') ->
  p = path /\ exists size, fst w' path = Some size /\ 0 < size.
Proof.
  unfold Processing.video_to_audio. intros H.
  apply io_bind_returns in H as ([] & w1 & _ & H).
  unfold io_try_except in H.
  match type of H with
  | match ?b with _ => _ end = _ => destruct b as [[a|e|name|] w2] eqn:B
  end; try discriminate.
  injection H as -> ->.
  apply io_bind_returns in B as ([] & w3 & _ & B).
  apply io_bind_returns in B as (present & w4 & Hp & B).
  apply io_bind_returns in B as (missing & w5 & Hm & B).
  unfold path_exists in Hp. injection Hp as <- <-.
  destruct (fst w3 path) as [size|] eqn:F; cbn [negb] in Hm.
  2:{ injection Hm as <- <-. discriminate. }
  unfold io_bind, getsize in Hm. rewrite F in Hm. injection Hm as <- <-.
  destruct (size =? 0) eqn:Z; [discriminate|].
  apply io_bind_returns in B as ([] & w6 & Hlog & B).
  injection B as <- <-. apply run_returns in Hlog as [_ Hfs].
  split; [reflexivity|]. exists size. rewrite Hfs.
  split; [exact F|]. apply Nat.eqb_neq in Z. lia.
Qed.

(** X11.  When [video_to_audio] returns, it returns the path it was given
    and there is a file of positive size at that path; so [audio_to_text]
    on that path passes its check of the file and goes on to the
    transcription, which it announces in the log. *)
Theorem video_to_audio_leaves_audio url path w p w' :
  video_to_audio url path w = (Return p, w') ->
  p = path
  /\ (exists size, fst w' path = Some size /\ 0 < size)
  /\ exists rest,
       snd (snd (audio_to_text path w'))
       = snd w' ++ (INFO,
                    chars "Loading Whisper model for transcription of "
                    ++ path ++ chars ".") :: rest.
Proof.
  intros H. apply video_to_audio_returns in H as (-> & size & Hsize & Hpos).
  split; [reflexivity|]. split; [eauto|].
  unfold Processing.audio_to_text, io_bind at 1, path_exists.
  rewrite Hsize. cbn [negb]. unfold io_try_except, io_bind at 1.
  unfold run at 1, logging. cbn [fst snd].
  unfold io_bind at 1.
  unfold Processing.segments_of. cbn [fst snd].
  destruct (transcribe path (fst w')) as [[u|[e|name]] fs]; cbn [ended];
    cbn; try rewrite <- app_assoc; eexists; reflexivity.
Qed.

Lemma endpoint_body_ends url :
  io_ends service_escapes
    (video_to_audio url "Target_audio.mp3" ~;;
     transcript <~ audio_to_text "Target_audio.mp3" ;;
     notes_text <~ run (generate_notes transcript) ;;
     mcq_questions <~
       run (Backend.parse_quiz_from_json json_loads notes_text "MCQ Quiz") ;;
     flashcard_questions <~
       run (Backend.parse_quiz_from_json json_loads notes_text
                                         "Flashcard Review") ;;
     graphviz_data <~ run (Backend.parse_graphviz notes_text) ;;
     io_ret (JDict [("status" : str, JString "success");
                    ("notes" : str, JString notes_text);
                    ("mcq_questions" : str, mcq_questions);
                    ("flashcard_questions" : str, flashcard_questions);
                    ("graphviz_data" : str, Main.optional graphviz_data)])).
Proof.
  apply io_ends_bind; [apply io_ends_video_to_audio|intros _].
  apply io_ends_bind; [apply io_ends_audio_to_text|intros transcript].
  apply io_ends_bind;
    [apply io_ends_run, ends_generate_notes|intros notes].
  apply io_ends_bind;
    [apply io_ends_run, ends_parse_quiz; reflexivity|intros mcq].
  apply io_ends_bind;
    [apply io_ends_run, ends_parse_quiz; reflexivity|intros flash].
  apply io_ends_bind;
    [apply io_ends_run, ends_parse_graphviz|intros g].
  apply io_ends_ret.
Qed.

(** How the endpoint ends.  Its pipeline returns an answer, raises an
    exception of which the [except] clause makes the [error] answer, or
    lets escape an exception of a service; then the cleanup runs, and
    either the audio file is gone and that outcome stands, or [os.remove]
    fails on the file and its exception is what the endpoint raises. *)
Lemma endpoint_cases url w :
  exists o w1 o1,
    (video_to_audio url "Target_audio.mp3" ~;;
     transcript <~ audio_to_text "Target_audio.mp3" ;;
     notes_text <~ run (generate_notes transcript) ;;
     mcq_questions <~
       run (Backend.parse_quiz_from_json json_loads notes_text "MCQ Quiz") ;;
     flashcard_questions <~
       run (Backend.parse_quiz_from_json json_loads notes_text
                                         "Flashcard Review") ;;
     graphviz_data <~ run (Backend.parse_graphviz notes_text) ;;
     io_ret (JDict [("status" : str, JString "success");
                    ("notes" : str, JString notes_text);
                    ("mcq_questions" : str, mcq_questions);
                    ("flashcard_questions" : str, flashcard_questions);
                    ("graphviz_data" : str, Main.optional graphviz_data)]))
      w = (o, w1)
    /\ ((exists a, o = Return a /\ o1 = Return a)
        \/ (exists e,
              o = Raise e
              /\ o1 = Return (JDict [("status" : str, JString "error");
                                     ("message" : str,
                                      JString (exn_text e))]))
        \/ (exists name,
              o = Escape name /\ service_escapes name /\ o1 = Escape name))
    /\ ((exists w2,
           fst w2 (chars "Target_audio.mp3") = None
           /\ generate_notes_endpoint url w = (o1, w2))
        \/ (exists e size,
              fst w1 (chars "Target_audio.mp3") = Some size
              /\ remove_error (chars "Target_audio.mp3") (fst w1) = Some e
              /\ generate_notes_endpoint url w = (Raise e, w1))).
Proof.
  unfold Main.generate_notes_endpoint. cbv zeta.
  pose proof (endpoint_body_ends url w) as Hends.
  match goal with
  | |- context [io_finally (io_try_except ?b ?h) ?c] =>
      set (body := b) in *; set (cleanup := c)
  end.
  destruct (body w) as [[a|e|name|] w1] eqn:Hb; cbn [fst] in Hends;
    [| | |contradiction].
  - exists (Return a), w1, (Return a). split; [reflexivity|].
    split; [left; eauto|].
    unfold io_finally, io_try_except. rewrite Hb. cbv beta iota.
    destruct (cleanup_cases remove_error "Target_audio.mp3" w1)
      as [(w2 & Hc & Hnone & _)|(e & size & Hsize & He & Hc)];
      change (cleanup w1 = (Return tt, w2)) in Hc
      || change (cleanup w1 = (Raise e, w1)) in Hc;
      rewrite Hc; [left|right]; eauto.
  - eexists (Raise e), w1, _. split; [reflexivity|].
    split; [right; left; eauto|].
    unfold io_finally, io_try_except. rewrite Hb. unfold io_ret.
    cbv beta iota.
    destruct (cleanup_cases remove_error "Target_audio.mp3" w1)
      as [(w2 & Hc & Hnone & _)|(e' & size & Hsize & He & Hc)];
      change (cleanup w1 = (Return tt, w2)) in Hc
      || change (cleanup w1 = (Raise e', w1)) in Hc;
      rewrite Hc; [left|right]; eauto.
  - exists (Escape name), w1, (Escape name). split; [reflexivity|].
    split; [right; right; eauto|].
    unfold io_finally, io_try_except. rewrite Hb. cbv beta iota.
    destruct (cleanup_cases remove_error "Target_audio.mp3" w1)
      as [(w2 & Hc & Hnone & _)|(e & size & Hsize & He & Hc)];
      change (cleanup w1 = (Return tt, w2)) in Hc
      || change (cleanup w1 = (Raise e, w1)) in Hc;
      rewrite Hc; [left|right]; eauto.
Qed.

(** X12.  The endpoint [/generate] ends in one of three ways.  It answers
    with the status [success] or [error], and no file [Target_audio.mp3]
    is left.  Or a service has raised an exception that does not derive
    from [Exception]: it passes the [except] clause and escapes, the file
    being removed all the same.  Or [os.remove] fails in the [finally]
    clause on a file that is there: its exception is raised in place of
    the answer, and the file is left.  So the endpoint answers whenever
    no service raises such an exception and [os.remove] does not fail. *)
Theorem generate_endpoint_answers_and_cleans_up url w :
  exists o w',
    generate_notes_endpoint url w = (o, w')
    /\ ((exists answer,
           o = Return answer
           /\ (field answer ["status" : str] = Some (JString "success")
               \/ field answer ["status" : str] = Some (JString "error"))
           /\ fst w' (chars "Target_audio.mp3") = None)
        \/ (exists name,
              o = Escape name
              /\ ((exists outtmpl video_url fs fs',
                     ydl_download outtmpl video_url fs
                     = (inr (BaseException name), fs'))
                  \/ (exists path fs fs',
                        transcribe path fs = (inr (BaseException name), fs'))
                  \/ (exists prompt,
                        generate_content prompt = inr (BaseException name)))
              /\ fst w' (chars "Target_audio.mp3") = None)
        \/ (exists e size,
              o = Raise e
              /\ fst w' (chars "Target_audio.mp3") = Some size
              /\ remove_error (chars "Target_audio.mp3") (fst w') = Some e))
    /\ ((forall outtmpl video_url fs name fs',
           ydl_download outtmpl video_url fs
           <> (inr (BaseException name), fs')) ->
        (forall path fs name fs',
           transcribe path fs <> (inr (BaseException name), fs')) ->
        (forall prompt name,
           generate_content prompt <> inr (BaseException name)) ->
        (forall fs, remove_error (chars "Target_audio.mp3") fs = None) ->
        exists answer, o = Return answer).
Proof.
  destruct (endpoint_cases url w)
    as (o & w1 & o1 & Hb & Ho & [(w2 & Hnone & HE)|(e & size & Hs & He & HE)]).
  2:{ exists (Raise e), w1. split; [exact HE|]. split.
      - right. right. exists e, size. repeat split; assumption.
      - intros _ _ _ Hr. rewrite Hr in He. discriminate. }
  exists o1, w2. split; [exact HE|].
  destruct Ho as [(a & -> & ->)|[(e & -> & ->)|(name & -> & Hname & ->)]].
  - split; [|eauto].
    left. exists a. split; [reflexivity|]. split; [|exact Hnone]. left.
    apply io_bind_returns in Hb as (? & ? & _ & Hb).
    apply io_bind_returns in Hb as (? & ? & _ & Hb).
    apply io_bind_returns in Hb as (? & ? & _ & Hb).
    apply io_bind_returns in Hb as (? & ? & _ & Hb).
    apply io_bind_returns in Hb as (? & ? & _ & Hb).
    apply io_bind_returns in Hb as (? & ? & _ & Hb).
    injection Hb as <- _. reflexivity.
  - split; [|eauto].
    left. eexists. split; [reflexivity|]. split; [|exact Hnone].
    right. reflexivity.
  - split.
    + right. left. exists name. split; [reflexivity|].
      split; [exact Hname|exact Hnone].
    + intros Hd Ht Hg _. exfalso.
      destruct Hname as [(t & u & fs & fs' & H)|[(p & fs & fs' & H)|(p & H)]].
      * exact (Hd _ _ _ _ _ H).
      * exact (Ht _ _ _ _ H).
      * exact (Hg _ _ H).
Qed.



End Pipeline.

Lemma generate_notes_returns_model_text_witness :
  Processing.generate_notes sample_notes_model "Hello world." []
  = (Return one_section,
     [(INFO, chars "Calling Gemini API to generate notes.");
      (INFO, chars "Successfully generated notes from Gemini API.")])
  /\ chars "Hello world." <> [] /\ one_section <> []
  /\ sample_notes_model (Processing.system_prompt ++ [nl; nl]
                         ++ chars "Here is the transcript:" ++ [nl]
                         ++ chars "Hello world.")
     = inl (Some one_section)
  /\ [(INFO, chars "Calling Gemini API to generate notes.");
      (INFO, chars "Successfully generated notes from Gemini API.")]
     = [] ++ [(INFO, chars "Calling Gemini API to generate notes.");
              (INFO,
               chars "Successfully generated notes from Gemini API.")].
Proof.
  split; [reflexivity|].
  apply (@generate_notes_returns_model_text
           sample_notes_model "Hello world." [] one_section _).
  reflexivity.
Defined.

Lemma video_to_audio_leaves_audio_witness :
  sample_download_run
  = (Return (chars "Target_audio.mp3"), snd sample_download_run)
  /\ chars "Target_audio.mp3" = chars "Target_audio.mp3"
  /\ (exists size,
        fst (snd sample_download_run) (chars "Target_audio.mp3") = Some size
        /\ 0 < size)
  /\ exists rest,
       snd (snd (Processing.audio_to_text sample_transcribe
                   "Target_audio.mp3" (snd sample_download_run)))
       = snd (snd sample_download_run)
         ++ (INFO,
             chars "Loading Whisper model for transcription of "
             ++ chars "Target_audio.mp3" ++ chars ".") :: rest.
Proof.
  split; [vm_compute; reflexivity|].
  apply (@video_to_audio_leaves_audio
           sample_download sample_transcribe "https://youtu.be/x"
           "Target_audio.mp3" (no_files, []) "Target_audio.mp3"
           (snd sample_download_run)).
  vm_compute. reflexivity.
Defined.


Lemma generate_endpoint_answers_and_cleans_up_witness :
  ((forall outtmpl video_url fs name fs',
      sample_download outtmpl video_url fs
      <> (inr (BaseException name), fs'))
   /\ (forall path fs name fs',
         sample_transcribe path fs <> (inr (BaseException name), fs'))
   /\ (forall prompt name,
         sample_notes_model prompt <> inr (BaseException name))
   /\ (forall fs, no_remove_error (chars "Target_audio.mp3") fs = None))
  /\ exists answer w',
       Main.generate_notes_endpoint sample_loads no_remove_error
                                    sample_notes_model sample_download
                                    sample_transcribe "https://youtu.be/x"
                                    (no_files, [])
       = (Return answer, w').
Proof.
  split; [repeat split; intros; discriminate || reflexivity|].
  destruct (@generate_endpoint_answers_and_cleans_up
              sample_loads no_remove_error sample_notes_model
              sample_download sample_transcribe "https://youtu.be/x"
              (no_files, []))
    as (o & w' & HE & _ & H).
  destruct H as (answer & ->).
  - intros; discriminate.
  - intros; discriminate.
  - intros; discriminate.
  - reflexivity.
  - exists answer, w'. exact HE.
Defined.

(** A download interrupted from the keyboard: the interruption escapes the
    endpoint, and the file the download had written is removed. *)
Lemma interrupted_generate_escapes :
  exists w',
    Main.generate_notes_endpoint sample_loads no_remove_error
                                 sample_notes_model interrupted_download
                                 sample_transcribe "https://youtu.be/x"
                                 (no_files, [])
    = (Escape (chars "KeyboardInterrupt"), w')
    /\ fst w' (chars "Target_audio.mp3") = None.
Proof. eexists. split; vm_compute; reflexivity. Qed.

(** A file that may not be removed: the exception of [os.remove] takes the
    place of the answer, and the file is left. *)
Lemma failed_cleanup_replaces_answer :
  exists w',
    Main.generate_notes_endpoint sample_loads permission_denied
                                 sample_notes_model sample_download
                                 sample_transcribe "https://youtu.be/x"
                                 (no_files, [])
    = (Raise (OtherException
                "[Errno 13] Permission denied: 'Target_audio.mp3'"), w')
    /\ fst w' (chars "Target_audio.mp3") = Some 1000.
Proof. eexists. split; vm_compute; reflexivity. Qed.

(** * The highlighting of keywords *)

(** ** [re.sub] *)

(** A run of the matcher only goes forward. *)
Lemma Reach_length fl r w cs w' cs' :
  Reach fl r w cs w' cs' -> length w' <= length w.
Proof.
  induction 1; cbn [length] in *; lia.
Qed.

Lemma accept_advancing_some fl r must_advance w w' cs :
  bt fl r (accept_advancing must_advance w) w [] = Some (w', cs) ->
  length w' <= length w
  /\ (must_advance = true -> length w' < length w).
Proof.
  intros E. apply bt_sound in E as (w1 & cs1 & HR & Hk).
  apply Reach_length in HR. unfold accept_advancing in Hk.
  destruct must_advance; cbn [andb] in Hk.
  - destruct (length w1 =? length w) eqn:L; [discriminate|].
    apply Nat.eqb_neq in L. injection Hk as <- _. split; [lia|]. lia.
  - injection Hk as <- _. split; [lia|discriminate].
Qed.

Lemma search_from_some fl r : forall w must_advance m,
  search_from fl r must_advance w = Some m ->
  length (m_end m) <= length (m_start m)
  /\ length (m_start m) <= length w
  /\ (must_advance = true -> length (m_start m) = length w ->
      length (m_end m) < length w).
Proof.
  induction w as [|a w IH]; intros ma m; cbn [search_from].
  - destruct (bt fl r (accept_advancing ma []) [] []) as [[w' cs]|] eqn:E;
      [|discriminate].
    intros H. injection H as <-. cbn [m_start m_end].
    apply accept_advancing_some in E as [H1 H2]. repeat split; auto.
  - destruct (bt fl r (accept_advancing ma (a :: w)) (a :: w) [])
      as [[w' cs]|] eqn:E.
    + intros H. injection H as <-. cbn [m_start m_end].
      apply accept_advancing_some in E as [H1 H2]. repeat split; auto.
    + intros H. apply IH in H as (H1 & H2 & _). cbn [length].
      repeat split; lia.
Qed.

Lemma search_from_here fl r must_advance w w' cs :
  bt fl r (accept_advancing must_advance w) w [] = Some (w', cs) ->
  search_from fl r must_advance w = Some (Match w w' cs).
Proof. intros H. destruct w; cbn [search_from]; rewrite H; reflexivity. Qed.

Lemma search_from_none fl r w :
  (forall p, bt fl r (accept_advancing false (skipn p w)) (skipn p w) []
             = None) ->
  search_from fl r false w = None.
Proof.
  induction w as [|a w IH]; intros H; cbn [search_from];
    assert (H0 := H 0); cbn [skipn] in H0; rewrite H0.
  - reflexivity.
  - apply IH. intros p. apply (H (S p)).
Qed.

Lemma search_from_skip fl r pre w :
  (forall p, p < length pre ->
             bt fl r (accept_advancing false (skipn p (pre ++ w)))
                (skipn p (pre ++ w)) [] = None) ->
  search_from fl r false (pre ++ w) = search_from fl r false w.
Proof.
  induction pre as [|a pre IH]; intros H; [reflexivity|].
  assert (H0 := H 0 ltac:(cbn; lia)). cbn [skipn app] in H0.
  cbn [app search_from]. rewrite H0.
  apply IH. intros p Hp. apply (H (S p)). cbn. lia.
Qed.

Section Sub.

Variable fl : flags.
Variable r : regex.
Variable repl : match_object -> M str.

(** The replacement function returns, and writes nothing to the log. *)
Hypothesis repl_returns : forall m l, exists s, repl m l = (Return s, l).

(** With enough fuel, the substitution returns. *)
Lemma sub_go_returns : forall fuel (must_advance : bool) (w : str) l,
  2 * length w + (if must_advance then 0 else 1) < fuel ->
  exists s, sub_go fuel fl r repl must_advance w l = (Return s, l).
Proof.
  induction fuel as [|fuel IH]; intros ma w l Hf; [lia|].
  cbn [sub_go].
  destruct (search_from fl r ma w) as [m|] eqn:E; [|eexists; reflexivity].
  apply search_from_some in E as (H1 & H2 & H3).
  unfold bind. destruct (repl_returns m l) as (item & ->).
  destruct (IH (length (m_end m) =? length (m_start m)) (m_end m) l)
    as (rest & ->); [|eexists; reflexivity].
  destruct (length (m_end m) =? length (m_start m)) eqn:L.
  - apply Nat.eqb_eq in L. destruct ma.
    + destruct (Nat.eq_dec (length (m_start m)) (length w)) as [Hl|Hl];
        [specialize (H3 eq_refl Hl)|]; lia.
    + lia.
  - apply Nat.eqb_neq in L. lia.
Qed.

(** More fuel than enough changes nothing. *)
Lemma sub_go_fuel : forall fuel fuel' (must_advance : bool) (w : str) l,
  2 * length w + (if must_advance then 0 else 1) < fuel ->
  2 * length w + (if must_advance then 0 else 1) < fuel' ->
  sub_go fuel fl r repl must_advance w l
  = sub_go fuel' fl r repl must_advance w l.
Proof.
  induction fuel as [|fuel IH]; intros [|fuel'] ma w l Hf Hf'; try lia.
  cbn [sub_go].
  destruct (search_from fl r ma w) as [m|] eqn:E; [|reflexivity].
  apply search_from_some in E as (H1 & H2 & H3).
  unfold bind. destruct (repl m l) as [[item|e|name|] l1]; try reflexivity.
  rewrite (IH fuel'); [reflexivity| |];
    (destruct (length (m_end m) =? length (m_start m)) eqn:L;
     [apply Nat.eqb_eq in L; destruct ma;
      [destruct (Nat.eq_dec (length (m_start m)) (length w)) as [Hl|Hl];
       [specialize (H3 eq_refl Hl)|]; lia
      |lia]
     |apply Nat.eqb_neq in L; lia]).
Qed.

End Sub.

(** ** [highlight_keywords] *)

Lemma keyword_pattern_compiles :
  re_compile "@@(.*?)@@" = Compiled keyword_regex.
Proof. reflexivity. Qed.

Lemma lazy_star_skip_test t k u w cs :
  forallb t u = true ->
  (forall p, p < length u -> k (skipn p (u ++ w)) cs = None) ->
  lazy_star t k (u ++ w) cs = lazy_star t k w cs.
Proof.
  induction u as [|a u IH]; intros Ht H; [reflexivity|].
  cbn in Ht. apply andb_true_iff in Ht as [Ha Ht].
  assert (H0 := H 0 ltac:(cbn; lia)). cbn [skipn app] in H0.
  cbn [app lazy_star]. rewrite H0, Ha.
  apply IH; [exact Ht|]. intros p Hp. apply (H (S p)). cbn. lia.
Qed.

Lemma bt_lazy_line k w cs :
  bt NOFLAG (Repeat false 0 None AnyChar) k w cs
  = lazy_star (fun a => negb (Ascii.eqb a nl)) k w cs.
Proof.
  cbn [bt]. rewrite rep_one_lazy by lia.
  apply lazy_star_test. intros a. reflexivity.
Qed.

(** The pattern of the keywords needs [@@] where it starts. *)
Lemma keyword_needs_marker k w cs :
  startswith "@@" w = false -> bt NOFLAG keyword_regex k w cs = None.
Proof.
  intros H. unfold keyword_regex.
  rewrite bt_seq_of_app, bt_literals, starts_noflag, H. reflexivity.
Qed.

(** The pattern of the keywords, run at a keyword between two markers. *)
Lemma keyword_match_here must_advance kw post :
  existsb (Ascii.eqb nl) kw = false ->
  first_at (startswith "@@") (kw ++ chars "@@" ++ post) = Some (length kw) ->
  bt NOFLAG keyword_regex
     (accept_advancing must_advance
                       (chars "@@" ++ kw ++ chars "@@" ++ post))
     (chars "@@" ++ kw ++ chars "@@" ++ post) []
  = Some (post, [(1, (kw ++ chars "@@" ++ post, chars "@@" ++ post))]).
Proof.
  intros Hnl Hfirst. unfold keyword_regex.
  rewrite bt_seq_of_app, bt_literals.
  rewrite (same_text_starts NOFLAG "@@" "@@" _ eq_refl).
  rewrite (same_text_skipn NOFLAG "@@" "@@" _ eq_refl).
  cbn [app]. rewrite bt_seq_cons, bt_group_seq, bt_lazy_line.
  apply first_at_some in Hfirst as (_ & _ & Hmin).
  rewrite lazy_star_skip_test.
  - apply lazy_star_here. rewrite bt_literals.
    rewrite (same_text_starts NOFLAG "@@" "@@" _ eq_refl).
    rewrite (same_text_skipn NOFLAG "@@" "@@" _ eq_refl).
    unfold accept_advancing.
    replace (length post =? _) with false; [rewrite andb_false_r; reflexivity|].
    symmetry. apply Nat.eqb_neq. rewrite !length_app.
    change (length (chars "@@")) with 2. lia.
  - rewrite forallb_forall. intros a Ha. apply negb_true_iff.
    destruct (Ascii.eqb a nl) eqn:E; [|reflexivity].
    apply Ascii.eqb_eq in E. subst a.
    assert (F : existsb (Ascii.eqb nl) kw = true).
    { apply existsb_exists. exists nl. split; [exact Ha|].
      apply Ascii.eqb_refl. }
    congruence.
  - intros p Hp. rewrite bt_literals, starts_noflag, (Hmin p Hp).
    reflexivity.
Qed.

Section Highlight.

Variable hash : option str -> Z.

Lemma color_replacer_returns m l :
  exists color,
    List.In color App.colors
    /\ App.item_at App.colors
                   (hash (group m 1) mod Z.of_nat (length App.colors)) l
       = (Return color, l)
    /\ App.color_replacer hash m l
       = (Return (span_of color (App.format_group (group m 1))), l).
Proof.
  unfold App.color_replacer, bind, App.item_at.
  assert (Hi : Z.to_nat (hash (group m 1) mod Z.of_nat (length App.colors))
               < length App.colors).
  { pose proof (Z.mod_pos_bound (hash (group m 1))
                  (Z.of_nat (length App.colors)) ltac:(cbn; lia)). lia. }
  destruct (nth_error App.colors _) as [color|] eqn:E.
  - exists color. split; [exact (nth_error_In _ _ E)|].
    split; reflexivity.
  - apply nth_error_None in E. lia.
Qed.

Lemma color_replacer_quiet m l :
  exists s, App.color_replacer hash m l = (Return s, l).
Proof.
  destruct (color_replacer_returns m l) as (color & _ & _ & ->). eauto.
Qed.

(** X14.  [highlight_keywords] returns on every text and for every hash
    function, negative hashes included: the index into the colours is
    always in range, and the substitution comes to an end; it writes
    nothing to the log.  A text without [@@] is returned as it is. *)
Theorem highlight_keywords_returns text l :
  (exists out, App.highlight_keywords hash text l = (Return out, l))
  /\ (first_at (startswith "@@") text = None ->
      App.highlight_keywords hash text l = (Return text, l)).
Proof.
  unfold App.highlight_keywords, re_sub. rewrite keyword_pattern_compiles.
  split.
  - apply sub_go_returns; [apply color_replacer_quiet|cbv iota; lia].
  - intros H.
    replace (2 * length text + 2) with (S (2 * length text + 1)) by lia.
    cbn [sub_go]. rewrite search_from_none; [reflexivity|].
    intros p. apply keyword_needs_marker. apply (first_at_none _ _ H).
Qed.

(** X15.  The first keyword of a text: where the first [@@] of the text
    is followed by a keyword without a line break and the next [@@], the
    text before the marker is kept, the markers and the keyword are
    replaced by a [span] element that holds the keyword on one of the
    five colours, and what follows the closing marker is highlighted
    as a text of its own. *)
Theorem highlight_first_keyword pre kw post l :
  first_at (startswith "@@") (pre ++ chars "@@" ++ kw ++ chars "@@" ++ post)
  = Some (length pre) ->
  existsb (Ascii.eqb nl) kw = false ->
  first_at (startswith "@@") (kw ++ chars "@@" ++ post) = Some (length kw) ->
  exists color out,
    List.In color App.colors
    /\ App.highlight_keywords hash post l = (Return out, l)
    /\ App.highlight_keywords
         hash (pre ++ chars "@@" ++ kw ++ chars "@@" ++ post) l
       = (Return (pre ++ span_of color kw ++ out), l).
Proof.
  intros Hpre Hnl Hkw.
  unfold App.highlight_keywords, re_sub. rewrite keyword_pattern_compiles.
  destruct (@sub_go_returns NOFLAG keyword_regex (App.color_replacer hash)
              color_replacer_quiet (2 * length post + 2) false post l
              ltac:(cbv iota; lia))
    as (out & Hout).
  set (m := Match (chars "@@" ++ kw ++ chars "@@" ++ post) post
                  [(1, (kw ++ chars "@@" ++ post, chars "@@" ++ post))]).
  destruct (color_replacer_returns m l) as (color & Hin & _ & Hrepl).
  exists color, out. split; [exact Hin|]. split; [exact Hout|].
  replace (2 * length (pre ++ chars "@@" ++ kw ++ chars "@@" ++ post) + 2)
    with (S (2 * length (pre ++ chars "@@" ++ kw ++ chars "@@" ++ post) + 1))
    by lia.
  cbn [sub_go].
  rewrite search_from_skip.
  2:{ intros p Hp. apply keyword_needs_marker.
      apply first_at_some in Hpre as (_ & _ & Hmin). apply Hmin. exact Hp. }
  assert (Hs : search_from NOFLAG keyword_regex false
                           (chars "@@" ++ kw ++ chars "@@" ++ post)
               = Some m).
  { apply search_from_here. apply keyword_match_here; assumption. }
  rewrite Hs. unfold bind. rewrite Hrepl.
  cbn [m_start m_end m].
  replace (length post =? length (chars "@@" ++ kw ++ chars "@@" ++ post))
    with false.
  2:{ symmetry. apply Nat.eqb_neq. rewrite !length_app.
      change (length (chars "@@")) with 2. lia. }
  rewrite (@sub_go_fuel NOFLAG keyword_regex (App.color_replacer hash)
             _ (2 * length post + 2)).
  2:{ cbv iota. rewrite !length_app. change (length (chars "@@")) with 2.
      lia. }
  2:{ cbv iota. lia. }
  rewrite Hout. unfold ret.
  assert (Hg : group m 1 = Some kw).
  { cbn [group m_groups m lookup_group Nat.eqb option_map].
    rewrite span_text_app. reflexivity. }
  rewrite Hg. cbn [App.format_group].
  rewrite length_app.
  replace (length pre + length (chars "@@" ++ kw ++ chars "@@" ++ post)
           - length (chars "@@" ++ kw ++ chars "@@" ++ post))
    with (length pre) by lia.
  rewrite firstn_app, firstn_all, Nat.sub_diag. cbn [firstn].
  rewrite app_nil_r. reflexivity.
Qed.

End Highlight.

Lemma highlight_first_keyword_witness :
  first_at (startswith "@@")
           (chars "ab " ++ chars "@@" ++ chars "key" ++ chars "@@"
            ++ chars " cd") = Some (length (chars "ab "))
  /\ existsb (Ascii.eqb nl) (chars "key") = false
  /\ first_at (startswith "@@") (chars "key" ++ chars "@@" ++ chars " cd")
     = Some (length (chars "key"))
  /\ exists color out,
       List.In color App.colors
       /\ App.highlight_keywords sample_hash (chars " cd") []
          = (Return out, [])
       /\ App.highlight_keywords
            sample_hash
            (chars "ab " ++ chars "@@" ++ chars "key" ++ chars "@@"
             ++ chars " cd") []
          = (Return (chars "ab " ++ span_of color (chars "key") ++ out), []).
Proof.
  split; [reflexivity|]. split; [reflexivity|]. split; [reflexivity|].
  apply (@highlight_first_keyword sample_hash "ab " "key" " cd" []);
    reflexivity.
Defined.
